(** * modular-kb-vscode: the proxy supervisor, the interception proxy and
    the exchange logger

    A shallow embedding of
    - [src/proxy/ProxyManager.ts]        (module [ProxyManager]),
    - [src/proxy/orchestrator-adapter.ts] (module [OrchestratorAdapter]),
    - [src/proxy/proxy.ts]               (module [Proxy]),
    with the parts of the JavaScript runtime they stand on (module [JS],
    [JSON], [Clock], [Fs]).  The first part of the file holds the model, the
    second part the lemmas and the theorems about it. *)

From Stdlib Require Import ZArith Lia List String Ascii Bool.
From Stdlib Require Import DecimalString DecimalZ DecimalPos.
From stdpp Require Import base option list gmap strings.

#[local] Set Warnings "-register-all".

Local Open Scope Z_scope.

(* ===================================================================== *)
(** * Part I: the model                                                    *)
(* ===================================================================== *)

(** Decimal rendering of an integer, as [Number.prototype.toString] and
    template literals print it. *)
Definition string_of_Z (z : Z) : string := NilZero.string_of_int (Z.to_int z).

(* --------------------------------------------------------------------- *)
(** ** JSON texts: JSON.stringify and JSON.parse                           *)
(* --------------------------------------------------------------------- *)

Module JSON.

(** A JSON text, as a tree.  Numbers are the integers; [JSON.stringify]
    writes the properties of an object in the order they were added. *)
Inductive json :=
| JNull
| JBool (b : bool)
| JNum (n : Z)
| JStr (s : string)
| JArr (elems : list json)
| JObj (props : list (string * json)).

Definition dquote : ascii := Eval cbv in ascii_of_nat 34.
Definition backslash : ascii := Eval cbv in ascii_of_nat 92.
Definition newline : ascii := Eval cbv in ascii_of_nat 10.

Definition hex_digit (n : N) : ascii :=
  ascii_of_N (if (n <? 10)%N then 48 + n else 87 + n)%N.

(** QuoteJSONString, one character at a time. *)
Definition escape_char (c : ascii) : string :=
  let n := N_of_ascii c in
  if (n =? 34)%N then String backslash (String dquote "")
  else if (n =? 92)%N then String backslash (String backslash "")
  else if (n =? 8)%N then String backslash "b"
  else if (n =? 9)%N then String backslash "t"
  else if (n =? 10)%N then String backslash "n"
  else if (n =? 12)%N then String backslash "f"
  else if (n =? 13)%N then String backslash "r"
  else if (n <? 32)%N then
    String backslash
      (String "u" (String "0" (String "0"
         (String (hex_digit (n / 16)) (String (hex_digit (n mod 16)) "")))))
  else String c "".

Fixpoint escape (s : string) : string :=
  match s with
  | EmptyString => ""
  | String c s' => escape_char c +:+ escape s'
  end.

Definition quote (s : string) : string :=
  String dquote (escape s +:+ String dquote "").

Fixpoint join (sep : string) (parts : list string) : string :=
  match parts with
  | [] => ""
  | [p] => p
  | p :: ps => p +:+ sep +:+ join sep ps
  end.

(** [JSON.stringify] of a tree, with no indentation. *)
Fixpoint print (j : json) : string :=
  match j with
  | JNull => "null"
  | JBool true => "true"
  | JBool false => "false"
  | JNum n => string_of_Z n
  | JStr s => quote s
  | JArr elems => "[" +:+ join "," (map print elems) +:+ "]"
  | JObj props =>
      "{" +:+ join "," (map (fun p => quote (fst p) +:+ ":" +:+ print (snd p)) props)
          +:+ "}"
  end.

(** *** Reading a JSON text back *)

Definition unhex (c : ascii) : option N :=
  let n := N_of_ascii c in
  if (48 <=? n)%N && (n <=? 57)%N then Some (n - 48)%N
  else if (97 <=? n)%N && (n <=? 102)%N then Some (n - 87)%N
  else if (65 <=? n)%N && (n <=? 70)%N then Some (n - 55)%N
  else None.

Definition unescape_simple (e : ascii) : option ascii :=
  let n := N_of_ascii e in
  if (n =? 34)%N then Some dquote
  else if (n =? 92)%N then Some backslash
  else if (n =? 47)%N then Some "/"%char
  else if (n =? 98)%N then Some (ascii_of_nat 8)
  else if (n =? 116)%N then Some (ascii_of_nat 9)
  else if (n =? 110)%N then Some (ascii_of_nat 10)
  else if (n =? 102)%N then Some (ascii_of_nat 12)
  else if (n =? 114)%N then Some (ascii_of_nat 13)
  else None.

Definition push (c : ascii) (r : option (string * string))
    : option (string * string) :=
  match r with
  | Some (s, rest) => Some (String c s, rest)
  | None => None
  end.

(** The characters of a string literal after its opening quote, up to and
    with the closing quote.  An escape [\uXXXX] is read when it names one
    of the 256 characters a [string] holds. *)
Fixpoint read_string (inp : string) : option (string * string) :=
  match inp with
  | EmptyString => None
  | String c rest =>
      if (N_of_ascii c =? 34)%N then Some ("", rest)
      else if (N_of_ascii c =? 92)%N then
        match rest with
        | String e rest1 =>
            if (N_of_ascii e =? 117)%N then
              match rest1 with
              | String h1 (String h2 (String h3 (String h4 rest2))) =>
                  match unhex h1, unhex h2, unhex h3, unhex h4 with
                  | Some 0%N, Some 0%N, Some a, Some b =>
                      push (ascii_of_N (16 * a + b)) (read_string rest2)
                  | _, _, _, _ => None
                  end
              | _ => None
              end
            else
              match unescape_simple e with
              | Some c' => push c' (read_string rest1)
              | None => None
              end
        | EmptyString => None
        end
      else if (N_of_ascii c <? 32)%N then None
      else push c (read_string rest)
  end.

Definition is_digit (c : ascii) : bool :=
  (48 <=? N_of_ascii c)%N && (N_of_ascii c <=? 57)%N.

Fixpoint span_digits (inp : string) : string * string :=
  match inp with
  | EmptyString => ("", "")
  | String c rest =>
      if is_digit c then
        let '(ds, r) := span_digits rest in (String c ds, r)
      else ("", inp)
  end.

(** An integer: an optional minus sign and digits. *)
Definition read_number (inp : string) : option (Z * string) :=
  let '(sign, body) :=
    match inp with
    | String "-" rest => ("-", rest)
    | _ => ("", inp)
    end in
  let '(ds, rest) := span_digits body in
  match ds with
  | EmptyString => None
  | _ =>
      match NilZero.int_of_string (sign +:+ ds) with
      | Some d => Some (Z.of_int d, rest)
      | None => None
      end
  end.


Definition is_char (c : ascii) (code : N) : bool := (N_of_ascii c =? code)%N.

(** A value at the head of [inp] and what follows it.  [fuel] bounds the
    number of values, elements and properties read. *)
Fixpoint read_value (fuel : nat) (inp : string) : option (json * string) :=
  match fuel with
  | O => None
  | S fuel' =>
      match inp with
      | EmptyString => None
      | String c rest =>
          if is_digit c || is_char c 45 then
            match read_number inp with
            | Some (n, rest') => Some (JNum n, rest')
            | None => None
            end
          else if is_char c 34 then
            match read_string rest with
            | Some (s, rest') => Some (JStr s, rest')
            | None => None
            end
          else if is_char c 91 then          (* [ *)
            match rest with
            | String c1 rest1 =>
                if is_char c1 93 then Some (JArr [], rest1)
                else
                  match read_elems fuel' rest with
                  | Some (elems, rest') => Some (JArr elems, rest')
                  | None => None
                  end
            | EmptyString => None
            end
          else if is_char c 123 then         (* { *)
            match rest with
            | String c1 rest1 =>
                if is_char c1 125 then Some (JObj [], rest1)
                else
                  match read_props fuel' rest with
                  | Some (props, rest') => Some (JObj props, rest')
                  | None => None
                  end
            | EmptyString => None
            end
          else
            match inp with
            | String "n" (String "u" (String "l" (String "l" rest'))) =>
                Some (JNull, rest')
            | String "t" (String "r" (String "u" (String "e" rest'))) =>
                Some (JBool true, rest')
            | String "f" (String "a" (String "l" (String "s"
                (String "e" rest')))) =>
                Some (JBool false, rest')
            | _ => None
            end
      end
  end
with read_elems (fuel : nat) (inp : string) : option (list json * string) :=
  match fuel with
  | O => None
  | S fuel' =>
      match read_value fuel' inp with
      | Some (v, String c rest) =>
          if is_char c 44 then               (* , *)
            match read_elems fuel' rest with
            | Some (vs, rest') => Some (v :: vs, rest')
            | None => None
            end
          else if is_char c 93 then Some ([v], rest)
          else None
      | _ => None
      end
  end
with read_props (fuel : nat) (inp : string)
    : option (list (string * json) * string) :=
  match fuel with
  | O => None
  | S fuel' =>
      match inp with
      | String c rest =>
          if is_char c 34 then
            match read_string rest with
            | Some (k, String c1 rest1) =>
                if is_char c1 58 then        (* : *)
                  match read_value fuel' rest1 with
                  | Some (v, String c2 rest2) =>
                      if is_char c2 44 then
                        match read_props fuel' rest2 with
                        | Some (ps, rest') => Some ((k, v) :: ps, rest')
                        | None => None
                        end
                      else if is_char c2 125 then Some ([(k, v)], rest2)
                      else None
                  | _ => None
                  end
                else None
            | _ => None
            end
          else None
      | EmptyString => None
      end
  end.

(** [JSON.parse] on a text without white space. *)
Definition parse (text : string) : option json :=
  match read_value (S (String.length text)) text with
  | Some (j, EmptyString) => Some j
  | _ => None
  end.


Definition leading_digit (s : string) : bool :=
  match s with
  | String c _ => is_digit c
  | EmptyString => false
  end.

(** The number of values, elements and properties of a tree. *)
Fixpoint size (j : json) : nat :=
  match j with
  | JArr elems => S (list_sum (map (fun e => S (size e)) elems))
  | JObj props => S (list_sum (map (fun p => S (size (snd p))) props))
  | _ => 1
  end.

(** No line feed occurs in the text. *)
Fixpoint one_line (s : string) : bool :=
  match s with
  | EmptyString => true
  | String c s' => negb (is_char c 10) && one_line s'
  end.

End JSON.


(* --------------------------------------------------------------------- *)
(** ** JavaScript values, the store and exceptions                         *)
(* --------------------------------------------------------------------- *)

Module JS.
Import JSON.

(** Values: numbers are the integers; an array or an object is a
    reference into the store, so that two names of one array see the
    same elements. *)
Inductive value :=
| VUndefined
| VNull
| VBool (b : bool)
| VNum (n : Z)
| VStr (s : string)
| VRef (l : nat).

Inductive cell :=
| Arr (elems : list value)
| Obj (props : list (string * value)).   (* in the order of insertion *)

Abbreviation heap := (gmap nat cell).

Definition truthy (v : value) : bool :=
  match v with
  | VUndefined | VNull => false
  | VBool b => b
  | VNum n => negb (n =? 0)
  | VStr s => negb (String.eqb s "")
  | VRef _ => true
  end.

(** [v === true] *)
Definition strictly_true (v : value) : bool :=
  match v with
  | VBool true => true
  | _ => false
  end.

(** [v === s] for a string [s] *)
Definition strictly_string (v : value) (s : string) : bool :=
  match v with
  | VStr s' => String.eqb s' s
  | _ => false
  end.

(** [a || b] *)
Definition or_else (a b : value) : value := if truthy a then a else b.

(** Reading and writing a property in a property list. *)
Fixpoint get (k : string) (props : list (string * value)) : value :=
  match props with
  | [] => VUndefined
  | (k', v) :: props' => if String.eqb k k' then v else get k props'
  end.

Fixpoint set (k : string) (v : value) (props : list (string * value))
    : list (string * value) :=
  match props with
  | [] => [(k, v)]
  | (k', v') :: props' =>
      if String.eqb k k' then (k, v) :: props'
      else (k', v') :: set k v props'
  end.

(** How a computation ends: with a value or with an exception. *)
Inductive completion (A : Type) :=
| Return (a : A)
| Throw (error : string).
Arguments Return {A} a.
Arguments Throw {A} error.

(** Computations on a state [S] that may throw; what was done before an
    exception stays done. *)
Definition ST (S A : Type) : Type := S -> S * completion A.

#[global] Instance ST_ret {S} : MRet (ST S) := fun A a s => (s, Return a).

#[global] Instance ST_bind {S} : MBind (ST S) := fun A B f m s =>
  match m s with
  | (s', Return a) => f a s'
  | (s', Throw e) => (s', Throw e)
  end.

Definition throw {S A} (e : string) : ST S A := fun s => (s, Throw e).

Definition try_catch {S A} (m : ST S A) (handler : string -> ST S A)
    : ST S A := fun s =>
  match m s with
  | (s', Throw e) => handler e s'
  | (s', Return a) => (s', Return a)
  end.

(** What [JSON.stringify] makes of a value: [None] stands for undefined
    (a property holding it is left out, an element holding it is written
    null); a structure that contains itself throws.  [fuel] bounds the
    depth, and a depth beyond the number of cells is a cycle. *)
Fixpoint to_json (fuel : nat) (h : heap) (v : value)
    : completion (option json) :=
  match v with
  | VUndefined => Return None
  | VNull => Return (Some JNull)
  | VBool b => Return (Some (JBool b))
  | VNum n => Return (Some (JNum n))
  | VStr s => Return (Some (JStr s))
  | VRef l =>
      match fuel with
      | O => Throw "TypeError: Converting circular structure to JSON"
      | S fuel' =>
          match h !! l with
          | Some (Arr elems) =>
              (fix elements (es : list value) (acc : list json) :=
                 match es with
                 | [] => Return (Some (JArr (rev acc)))
                 | e :: es' =>
                     match to_json fuel' h e with
                     | Return oj => elements es' (default JNull oj :: acc)
                     | Throw x => Throw x
                     end
                 end) elems []
          | Some (Obj props) =>
              (fix properties (ps : list (string * value))
                   (acc : list (string * json)) :=
                 match ps with
                 | [] => Return (Some (JObj (rev acc)))
                 | (k, e) :: ps' =>
                     match to_json fuel' h e with
                     | Return (Some j) => properties ps' ((k, j) :: acc)
                     | Return None => properties ps' acc
                     | Throw x => Throw x
                     end
                 end) props []
          | None => Return None
          end
      end
  end.

(** An object literal, given by its properties. *)
Fixpoint literal_to_json (fuel : nat) (h : heap)
    (props : list (string * value)) : completion (list (string * json)) :=
  match props with
  | [] => Return []
  | (k, e) :: props' =>
      match to_json fuel h e with
      | Return oj =>
          match literal_to_json fuel h props' with
          | Return js =>
              Return (match oj with Some j => (k, j) :: js | None => js end)
          | Throw x => Throw x
          end
      | Throw x => Throw x
      end
  end.

Definition depth_bound (h : heap) : nat := S (base.size h).

(** [String(v)], as a template literal converts the value it holds; the
    objects are taken to have no [toString] of their own. *)
Fixpoint to_string (fuel : nat) (h : heap) (v : value) : string :=
  match v with
  | VUndefined => "undefined"
  | VNull => "null"
  | VBool true => "true"
  | VBool false => "false"
  | VNum n => string_of_Z n
  | VStr s => s
  | VRef l =>
      match h !! l with
      | Some (Obj _) => "[object Object]"
      | Some (Arr elems) =>
          match fuel with
          | O => ""
          | S fuel' =>
              join ","
                (map (fun e => match e with
                               | VUndefined | VNull => ""
                               | _ => to_string fuel' h e
                               end) elems)
          end
      | None => ""
      end
  end.

(** [s] without the white space at its head, as [parseInt] and the
    conversion of a string to a number skip it: the characters of
    WhiteSpace and LineTerminator, read in the UTF-8 bytes of the
    string. *)
Fixpoint skip_white_space (s : string) : string :=
  match s with
  | EmptyString => EmptyString
  | String c rest =>
      if is_char c 9 || is_char c 10 || is_char c 11 || is_char c 12
         || is_char c 13 || is_char c 32
      then skip_white_space rest
      else
        match rest with
        | String c1 rest1 =>
            if is_char c 194 && is_char c1 160      (* U+00A0 *)
            then skip_white_space rest1
            else
              match rest1 with
              | String c2 rest2 =>
                  if (is_char c 225 && is_char c1 154 && is_char c2 128)
                       (* U+1680 *)
                     || (is_char c 226 && is_char c1 128
                         && ((128 <=? N_of_ascii c2)%N
                             && (N_of_ascii c2 <=? 138)%N
                             || is_char c2 168 || is_char c2 169
                             || is_char c2 175))
                       (* U+2000..U+200A, U+2028, U+2029, U+202F *)
                     || (is_char c 226 && is_char c1 129 && is_char c2 159)
                       (* U+205F *)
                     || (is_char c 227 && is_char c1 128 && is_char c2 128)
                       (* U+3000 *)
                     || (is_char c 239 && is_char c1 187 && is_char c2 191)
                       (* U+FEFF *)
                  then skip_white_space rest2
                  else s
              | EmptyString => s
              end
        | EmptyString => s
        end
  end.

(** *** [v > 0]

    The comparison turns [v] into a number first: undefined into NaN, null
    into 0, true into 1, a string into the number it spells (white space
    around it skipped; NaN when it spells none), an array or an object
    into the number that its string spells.  Of that number only this is
    needed: whether it is greater than zero. *)

Fixpoint strip_prefix (p s : string) : option string :=
  match p with
  | EmptyString => Some s
  | String c p' =>
      match s with
      | String c' s' => if Ascii.eqb c c' then strip_prefix p' s' else None
      | EmptyString => None
      end
  end.

Definition digits_value (ds : string) : Z :=
  fold_left (fun acc c => 10 * acc + (Z.of_N (N_of_ascii c) - 48))
    (list_ascii_of_string ds) 0.

(** What an unsigned decimal literal spells: Infinity, or
    [mantissa * 10 ^ exponent]. *)
Inductive magnitude :=
| Infinite
| Finite (mantissa exponent : Z).

(** ExponentPart, when there is one. *)
Definition read_exponent (s : string) : option (Z * string) :=
  match s with
  | String c rest =>
      if is_char c 101 || is_char c 69 then              (* e E *)
        let '(negative, rest1) :=
          match rest with
          | String c1 r1 =>
              if is_char c1 45 then (true, r1)           (* - *)
              else if is_char c1 43 then (false, r1)     (* + *)
              else (false, rest)
          | EmptyString => (false, rest)
          end in
        let '(ds, rest2) := span_digits rest1 in
        match ds with
        | EmptyString => None
        | _ => Some (if negative then - digits_value ds else digits_value ds,
                     rest2)
        end
      else Some (0, s)
  | EmptyString => Some (0, s)
  end.

(** StrUnsignedDecimalLiteral at the head of [s]. *)
Definition read_unsigned_decimal (s : string) : option (magnitude * string) :=
  match strip_prefix "Infinity" s with
  | Some rest => Some (Infinite, rest)
  | None =>
      let '(whole, rest) := span_digits s in
      let '(fraction, rest1) :=
        match rest with
        | String c r => if is_char c 46 then span_digits r else ("", rest)
        | EmptyString => ("", rest)
        end in
      if String.eqb whole "" && String.eqb fraction "" then None
      else
        match read_exponent rest1 with
        | Some (e, rest2) =>
            Some (Finite (digits_value (whole +:+ fraction))
                         (e - Z.of_nat (String.length fraction)), rest2)
        | None => None
        end
  end.

(** Whether the double nearest to the magnitude is greater than zero:
    what is not above 2^-1075, half of the least double, rounds to zero. *)
Definition magnitude_positive (m : magnitude) : bool :=
  match m with
  | Infinite => true
  | Finite mantissa exponent =>
      (0 <? mantissa)
      && ((0 <=? exponent) || (10 ^ (- exponent) <? mantissa * 2 ^ 1075))
  end.

(** The digits of a literal in radix 2, 8 or 16: whether there is one,
    whether one of them is not zero, and what follows them. *)
Fixpoint radix_digits (radix : N) (s : string) (seen nonzero : bool)
    : bool * bool * string :=
  match s with
  | String c rest =>
      match unhex c with
      | Some d =>
          if (d <? radix)%N
          then radix_digits radix rest true (nonzero || negb (d =? 0)%N)
          else (seen, nonzero, s)
      | None => (seen, nonzero, s)
      end
  | EmptyString => (seen, nonzero, s)
  end.

(** [Number(s) > 0] *)
Definition string_positive (s : string) : bool :=
  let ends rest := String.eqb (skip_white_space rest) "" in
  let nondecimal radix rest :=
    let '(seen, nonzero, rest') := radix_digits radix rest false false in
    seen && nonzero && ends rest' in
  let decimal s :=
    match s with
    | String c rest =>
        if is_char c 45 then false                       (* - *)
        else
          match read_unsigned_decimal
                  (if is_char c 43 then rest else s) with     (* + *)
          | Some (m, rest') => magnitude_positive m && ends rest'
          | None => false
          end
    | EmptyString => false
    end in
  match skip_white_space s with
  | String c0 (String c1 rest) as s' =>
      if is_char c0 48 && (is_char c1 120 || is_char c1 88)      (* 0x 0X *)
      then nondecimal 16%N rest
      else if is_char c0 48 && (is_char c1 111 || is_char c1 79) (* 0o 0O *)
      then nondecimal 8%N rest
      else if is_char c0 48 && (is_char c1 98 || is_char c1 66)  (* 0b 0B *)
      then nondecimal 2%N rest
      else decimal s'
  | s' => decimal s'
  end.

Definition greater_than_zero (h : heap) (v : value) : bool :=
  match v with
  | VUndefined | VNull => false
  | VBool b => b
  | VNum n => 0 <? n
  | VStr s => string_positive s
  | VRef _ => string_positive (to_string (depth_bound h) h v)
  end.

End JS.

(* --------------------------------------------------------------------- *)
(** ** Dates                                                               *)
(* --------------------------------------------------------------------- *)

Module Clock.
Import JSON.

(** What the getters of a [Date] return: the calendar fields in local
    time, which name the log file, and in UTC, which [toISOString]
    prints. *)
Record Date := {
  getFullYear : Z;
  getMonth : Z;            (* 0..11 *)
  getDate : Z;
  getUTCFullYear : Z;
  getUTCMonth : Z;         (* 0..11 *)
  getUTCDate : Z;
  getUTCHours : Z;
  getUTCMinutes : Z;
  getUTCSeconds : Z;
  getUTCMilliseconds : Z
}.

Definition leap_year (y : Z) : bool :=
  ((y mod 4 =? 0) && negb (y mod 100 =? 0)) || (y mod 400 =? 0).

Definition days_in_month (y m : Z) : Z :=   (* m in 1..12 *)
  if m =? 2 then (if leap_year y then 29 else 28)
  else if (m =? 4) || (m =? 6) || (m =? 9) || (m =? 11) then 30
  else 31.

(** The fields of a date that exists. *)
Definition valid (d : Date) : Prop :=
  -271821 <= getUTCFullYear d <= 275760
  /\ 0 <= getUTCMonth d <= 11
  /\ 1 <= getUTCDate d
       <= days_in_month (getUTCFullYear d) (getUTCMonth d + 1)
  /\ 0 <= getUTCHours d <= 23
  /\ 0 <= getUTCMinutes d <= 59
  /\ 0 <= getUTCSeconds d <= 59
  /\ 0 <= getUTCMilliseconds d <= 999.

Definition digit (z : Z) : ascii := ascii_of_N (Z.to_N (48 + z)).

(** [z] in [width] decimal digits, zeros in front. *)
Fixpoint fixed (width : nat) (z : Z) : string :=
  match width with
  | O => ""
  | S w => String (digit ((z / 10 ^ Z.of_nat w) mod 10)) (fixed w z)
  end.

Definition iso_year (y : Z) : string :=
  if (0 <=? y) && (y <=? 9999) then fixed 4 y
  else String (if y <? 0 then "-"%char else "+"%char) (fixed 6 (Z.abs y)).

(** [Date.prototype.toISOString]: YYYY-MM-DDTHH:mm:ss.sssZ *)
Definition toISOString (d : Date) : string :=
  iso_year (getUTCFullYear d)
    +:+ "-" +:+ fixed 2 (getUTCMonth d + 1)
    +:+ "-" +:+ fixed 2 (getUTCDate d)
    +:+ "T" +:+ fixed 2 (getUTCHours d)
    +:+ ":" +:+ fixed 2 (getUTCMinutes d)
    +:+ ":" +:+ fixed 2 (getUTCSeconds d)
    +:+ "." +:+ fixed 3 (getUTCMilliseconds d)
    +:+ "Z".

(** [String.prototype.padStart] with a one-character filler. *)
Definition padStart (width : nat) (fill : ascii) (s : string) : string :=
  string_of_list_ascii (repeat fill (width - String.length s)) +:+ s.

(** *** Reading a time stamp back, as [Date.parse] reads the format above *)

Record timestamp := {
  year : Z; month : Z; day : Z;
  hours : Z; minutes : Z; seconds : Z; milliseconds : Z
}.

Definition digit_value (c : ascii) : option Z :=
  if is_digit c then Some (Z.of_N (N_of_ascii c) - 48) else None.

Fixpoint read_fixed (width : nat) (acc : Z) (inp : string)
    : option (Z * string) :=
  match width with
  | O => Some (acc, inp)
  | S w =>
      match inp with
      | String c rest =>
          match digit_value c with
          | Some d => read_fixed w (10 * acc + d) rest
          | None => None
          end
      | EmptyString => None
      end
  end.

Definition expect (code : N) (inp : string) : option string :=
  match inp with
  | String c rest => if is_char c code then Some rest else None
  | EmptyString => None
  end.

Definition read_year (inp : string) : option (Z * string) :=
  match inp with
  | String c rest =>
      if is_char c 43 then read_fixed 6 0 rest                (* + *)
      else if is_char c 45 then                               (* - *)
        match read_fixed 6 0 rest with
        | Some (y, r) => if y =? 0 then None else Some (- y, r)
        | None => None
        end
      else read_fixed 4 0 inp
  | EmptyString => None
  end.

Definition parse (text : string) : option timestamp :=
  '(y, r) ← read_year text;
  r ← expect 45 r;
  '(m, r) ← read_fixed 2 0 r;
  r ← expect 45 r;
  '(d, r) ← read_fixed 2 0 r;
  r ← expect 84 r;                                            (* T *)
  '(hh, r) ← read_fixed 2 0 r;
  r ← expect 58 r;                                            (* : *)
  '(mm, r) ← read_fixed 2 0 r;
  r ← expect 58 r;
  '(ss, r) ← read_fixed 2 0 r;
  r ← expect 46 r;                                            (* . *)
  '(ms, r) ← read_fixed 3 0 r;
  r ← expect 90 r;                                            (* Z *)
  if String.eqb r ""
     && (1 <=? m) && (m <=? 12) && (1 <=? d) && (d <=? days_in_month y m)
     && (hh <=? 23) && (mm <=? 59) && (ss <=? 59)
  then Some {| year := y; month := m; day := d; hours := hh;
               minutes := mm; seconds := ss; milliseconds := ms |}
  else None.

End Clock.

(* --------------------------------------------------------------------- *)
(** ** The file system                                                     *)
(* --------------------------------------------------------------------- *)

Module Fs.
Import JSON JS.

Inductive node :=
| Dir
| File (content : string).

(** The paths that exist; the paths that the operating system refuses to
    create or to open (no permission, a read-only volume); and the paths
    at which a write breaks off after so many characters (a volume that
    is full, a quota). *)
Record fs := {
  entries : gmap string node;
  denied : gset string;
  short : gmap string nat
}.

Definition existsSync (path : string) (f : fs) : bool :=
  bool_decide (is_Some (entries f !! path)).

Definition with_entry (path : string) (n : node) (f : fs) : fs :=
  {| entries := <[path := n]> (entries f); denied := denied f;
     short := short f |}.

(** The directories on the way to a path, from the top down: what stands
    before each slash of the path, the slash at its head apart. *)
Fixpoint ways (before rest : string) : list string :=
  match rest with
  | EmptyString => []
  | String c rest' =>
      (if is_char c 47 && negb (String.eqb before "") then [before] else [])
        ++ ways (before +:+ String c "") rest'
  end.

Definition ancestors (path : string) : list string := ways "" path.

(** The directory that holds [path], when [path] names one. *)
Definition dirname (path : string) : option string := last (ancestors path).

(** [mkdir] of one directory on the way ([leaf] tells the last one): a
    directory that is there is left alone. *)
Definition mkdir_step (leaf : bool) (path : string) : ST fs unit := fun f =>
  match entries f !! path with
  | Some Dir => (f, Return tt)
  | Some (File _) =>
      (f, Throw (if leaf then "EEXIST: file already exists, mkdir"
                 else "ENOTDIR: not a directory, mkdir"))
  | None =>
      if bool_decide (path ∈ denied f)
      then (f, Throw "EACCES: permission denied, mkdir")
      else (with_entry path Dir f, Return tt)
  end.

Fixpoint mkdir_way (paths : list string) : ST fs unit :=
  match paths with
  | [] => mret tt
  | path :: paths' => mkdir_step false path;; mkdir_way paths'
  end.

(** [fs.mkdirSync(path, { recursive: true })]: the directories on the
    way that are missing are created first; what was created before a
    failure stays. *)
Definition mkdirSync (path : string) : ST fs unit :=
  mkdir_way (ancestors path);; mkdir_step true path.

(** [fs.appendFileSync(path, data)]: the file is opened, and created when
    it is not there, and the data is written at its end.  A write that
    breaks off leaves what it has written. *)
Definition appendFileSync (path data : string) : ST fs unit := fun f =>
  if bool_decide (path ∈ denied f) then
    (f, Throw "EACCES: permission denied, open")
  else
    match match dirname path with
          | Some parent => entries f !! parent
          | None => Some Dir
          end with
    | None => (f, Throw "ENOENT: no such file or directory, open")
    | Some (File _) => (f, Throw "ENOTDIR: not a directory, open")
    | Some Dir =>
        match entries f !! path with
        | Some Dir =>
            (f, Throw "EISDIR: illegal operation on a directory, open")
        | found =>
            let content := match found with
                           | Some (File content) => content
                           | _ => ""
                           end in
            match short f !! path with
            | Some n =>
                if (n <? String.length data)%nat then
                  (with_entry path (File (content +:+ substring 0 n data)) f,
                   Throw "ENOSPC: no space left on device, write")
                else (with_entry path (File (content +:+ data)) f, Return tt)
            | None => (with_entry path (File (content +:+ data)) f, Return tt)
            end
        end
    end.

(** The text of a file; a path that holds no file reads as empty. *)
Definition content_of (path : string) (f : fs) : string :=
  match entries f !! path with
  | Some (File content) => content
  | _ => ""
  end.

(** [path.join] on POSIX paths that need no normalising: the segments
    that are not empty, with a slash between them. *)
Definition path_join (segments : list string) : string :=
  JSON.join "/" (filter (fun s => s <> "") segments).

End Fs.

(* --------------------------------------------------------------------- *)
(** ** The world of the proxy process                                      *)
(* --------------------------------------------------------------------- *)

Module Runtime.
Import JS.

Record World := {
  heap : gmap nat cell;          (* the arrays and objects *)
  files : Fs.fs;
  env : gmap string string;      (* process.env *)
  clock : Clock.Date             (* what [new Date()] reads *)
}.

Abbreviation M := (ST World).

Definition with_heap (h : gmap nat cell) (w : World) : World :=
  {| heap := h; files := files w; env := env w; clock := clock w |}.

Definition with_files (f : Fs.fs) (w : World) : World :=
  {| heap := heap w; files := f; env := env w; clock := clock w |}.

(** A computation on the file system, run in the world. *)
Definition on_files {A} (m : ST Fs.fs A) : M A := fun w =>
  let '(f, r) := m (files w) in (with_files f w, r).

(** A new array or object. *)
Definition alloc (c : cell) : M value := fun w =>
  let l := fresh (dom (heap w)) in
  (with_heap (<[l := c]> (heap w)) w, Return (VRef l)).

(** [v.k] for a name [k] that no prototype defines: undefined and null
    have no properties, the other primitive values and the arrays have
    none of that name. *)
Definition get_named (v : value) (k : string) : M value := fun w =>
  match v with
  | VUndefined =>
      (w, Throw "TypeError: Cannot read properties of undefined")
  | VNull => (w, Throw "TypeError: Cannot read properties of null")
  | VBool _ | VNum _ | VStr _ => (w, Return VUndefined)
  | VRef l =>
      match heap w !! l with
      | Some (Obj props) => (w, Return (get k props))
      | _ => (w, Return VUndefined)
      end
  end.

(** [v.k = x] on an object. *)
Definition set_named (v : value) (k : string) (x : value) : M unit := fun w =>
  match v with
  | VRef l =>
      match heap w !! l with
      | Some (Obj props) =>
          (with_heap (<[l := Obj (set k x props)]> (heap w)) w, Return tt)
      | _ => (w, Return tt)
      end
  | _ => (w, Return tt)
  end.

(** [JSON.stringify] of an object literal with the properties [props]. *)
Definition stringify_literal (props : list (string * value)) : M string :=
  fun w =>
  match literal_to_json (depth_bound (heap w)) (heap w) props with
  | Return js => (w, Return (JSON.print (JSON.JObj js)))
  | Throw e => (w, Throw e)
  end.

Definition to_String (v : value) : M string := fun w =>
  (w, Return (to_string (depth_bound (heap w)) (heap w) v)).

(** [process.env.name], undefined when the variable is not set. *)
Definition getenv (name : string) : M value := fun w =>
  (w, Return (match env w !! name with
              | Some s => VStr s
              | None => VUndefined
              end)).

Definition new_Date : M Clock.Date := fun w => (w, Return (clock w)).

End Runtime.

(* --------------------------------------------------------------------- *)
(** ** orchestrator-adapter.ts                                             *)
(* --------------------------------------------------------------------- *)

Module OrchestratorAdapter.
Import JS Runtime.

Inductive phase := inbound | outbound.

Definition phase_name (p : phase) : string :=
  match p with
  | inbound => "inbound"
  | outbound => "outbound"
  end.

(** [path.join(homeDir, '.orchestrator', 'logs')] *)
Definition log_directory : M string :=
  userprofile ← getenv "USERPROFILE";
  home ← getenv "HOME";
  homeDir ← to_String (or_else (or_else userprofile home) (VStr ""));
  mret (Fs.path_join [homeDir; ".orchestrator"; "logs"]).

(** YYYY-MM-DD.log, from the local date. *)
Definition log_file_name (now : Clock.Date) : string :=
  string_of_Z (Clock.getFullYear now)
    +:+ "-" +:+ Clock.padStart 2 "0" (string_of_Z (Clock.getMonth now + 1))
    +:+ "-" +:+ Clock.padStart 2 "0" (string_of_Z (Clock.getDate now))
    +:+ ".log".

(** The tree [JSON.stringify] writes for [{ ts, phase, data }]. *)
Definition entry_json (ts : string) (p : phase)
    (data : list (string * JSON.json)) : JSON.json :=
  JSON.JObj [("ts", JSON.JStr ts); ("phase", JSON.JStr (phase_name p));
             ("data", JSON.JObj data)].

(** [JSON.stringify(logEntry)], where [data] is an object literal given
    by its properties. *)
Definition stringify_entry (ts : string) (p : phase)
    (data : list (string * value)) : M string := fun w =>
  match literal_to_json (depth_bound (heap w)) (heap w) data with
  | Return js => (w, Return (JSON.print (entry_json ts p js)))
  | Throw e => (w, Throw e)
  end.

Definition logRequest (p : phase) (data : list (string * value)) : M unit :=
  logDir ← log_directory;
  present ← on_files (fun f => (f, Return (Fs.existsSync logDir f)));
  (if negb present then on_files (Fs.mkdirSync logDir) else mret tt);;
  now ← new_Date;
  let logFile := Fs.path_join [logDir; log_file_name now] in
  line ← stringify_entry (Clock.toISOString now) p data;
  on_files (Fs.appendFileSync logFile (line +:+ String JSON.newline "")).

(** [messages[0]] when [messages && messages.length > 0] holds, and
    nothing when it does not.  The parameter is declared [any[]], and the
    handler passes whatever the request body holds under [messages]: of
    an array the first element, of an object that has a [length] greater
    than zero what it holds under "0", of a string that is not empty its
    first character. *)
Definition first_element (h : gmap nat cell) (messages : value)
    : option value :=
  if truthy messages then
    match messages with
    | VStr (String c _) => Some (VStr (String c ""))
    | VRef l =>
        match h !! l with
        | Some (Arr (m0 :: _)) => Some m0
        | Some (Arr []) => None
        | Some (Obj props) =>
            if greater_than_zero h (get "length" props)
            then Some (get "0" props)
            else None
        | None => None
        end
    | _ => None
    end
  else None.

Definition first_message (messages : value) : M (option value) := fun w =>
  (w, Return (first_element (heap w) messages)).

Definition processPrompt (messages meta : value) : M value :=
  logRequest inbound [("messages", messages); ("meta", meta)];;
  first ← first_message messages;
  match first with
  | Some m0 =>
      content ← get_named m0 "content";
      if truthy content then
        text ← to_String content;
        set_named m0 "content" (VStr ("[DEBUG] " +:+ text));;
        mret messages
      else mret messages
  | None => mret messages
  end.

Definition processResponse (chunk meta : value) : M value :=
  logRequest outbound [("chunk", chunk); ("meta", meta)];;
  mret chunk.

End OrchestratorAdapter.

(* --------------------------------------------------------------------- *)
(** ** proxy.ts: POST /v1/chat/completions                                 *)
(* --------------------------------------------------------------------- *)

Module Proxy.
Import JS Runtime.

(** The two methods the handler calls on its transformer. *)
Record Transformer := {
  processPrompt : value -> value -> M value;
  processResponse : value -> value -> M value
}.

Definition orchestratorAdapter : Transformer :=
  {| processPrompt := OrchestratorAdapter.processPrompt;
     processResponse := OrchestratorAdapter.processResponse |}.

(** The response to the caller: the status, the headers set by name (by
    the handler with [setHeader], and the content type that [res.json]
    sets), and the calls on its body, in order.  What Express adds of its
    own when it sends (a charset in the content type, Content-Length,
    ETag) is not recorded.

    A write on a response that has ended sends nothing.  Node reports it
    as an 'error' event (ERR_STREAM_WRITE_AFTER_END) on the response, to
    which nothing in proxy.ts listens: unless the response is closed by
    then, the process ends with it.  The call is recorded as what it is,
    and the model goes on as the process does when it lives on. *)
Inductive body_call :=
| Chunk (text : string)           (* res.write(text), or the text of res.send *)
| End                             (* res.end() *)
| WriteAfterEnd (text : string).  (* res.write(text) after res.end() *)

Record ServerResponse := {
  statusCode : Z;
  headers : list (string * string);
  calls : list body_call
}.

(** A request sent upstream. *)
Record Posted := {
  url : string;
  authorization : string;
  organization : string;
  payload : string
}.

(** What the upstream call comes to.  [text] is what [response.text()]
    yields, [sse] the body as eventsource-parser cuts it into events up to
    its 'end' (or no body at all), [json] what [response.json()] yields. *)
Inductive parsed_event :=
| ParsedEvent (data : string)       (* type 'event' *)
| ReconnectInterval (value : Z).    (* type 'reconnect-interval' *)

Record UpstreamResponse := {
  status : Z;
  text : completion string;           (* what response.text() settles with *)
  sse : option (list parsed_event);
  json : M value
}.

Inductive fetched :=
| FetchRejects (error : string)
| FetchResolves (r : UpstreamResponse).

Definition response_ok (r : UpstreamResponse) : bool :=
  (200 <=? status r) && (status r <=? 299).

(** One exchange: the world, the requests sent upstream, the response. *)
Record Exchange := {
  world : World;
  posted : list Posted;
  res : ServerResponse
}.

Abbreviation H := (ST Exchange).

Definition lift {A} (m : M A) : H A := fun x =>
  let '(w, r) := m (world x) in
  ({| world := w; posted := posted x; res := res x |}, r).

Definition on_res (f : ServerResponse -> ServerResponse) : H unit := fun x =>
  ({| world := world x; posted := posted x; res := f (res x) |}, Return tt).

Definition is_end (c : body_call) : bool :=
  match c with
  | End => true
  | Chunk _ | WriteAfterEnd _ => false
  end.

Definition is_write_after_end (c : body_call) : bool :=
  match c with
  | WriteAfterEnd _ => true
  | Chunk _ | End => false
  end.

Definition writableEnded (r : ServerResponse) : bool :=
  existsb is_end (calls r).

(** Whether the handler has written to the response after its end. *)
Definition wrote_after_end (r : ServerResponse) : bool :=
  existsb is_write_after_end (calls r).

Definition res_status (code : Z) : H unit :=
  on_res (fun r => {| statusCode := code; headers := headers r;
                      calls := calls r |}).

Definition res_setHeader (name v : string) : H unit :=
  on_res (fun r => {| statusCode := statusCode r;
                      headers := headers r ++ [(name, v)];
                      calls := calls r |}).

(** [res.write]: the text is sent, unless the response has ended. *)
Definition res_write (chunk : string) : H unit :=
  on_res (fun r => {| statusCode := statusCode r; headers := headers r;
                      calls := calls r ++ [if writableEnded r
                                           then WriteAfterEnd chunk
                                           else Chunk chunk] |}).

(** [res.end()]: a second call does nothing. *)
Definition res_end : H unit :=
  on_res (fun r => if writableEnded r then r
                   else {| statusCode := statusCode r; headers := headers r;
                           calls := calls r ++ [End] |}).

Definition res_send (body : string) : H unit :=
  res_write body;; res_end.

(** [res.json(v)] *)
Definition res_json (v : value) : H unit := fun x =>
  match to_json (depth_bound (heap (world x))) (heap (world x)) v with
  | Return oj =>
      (res_setHeader "Content-Type" "application/json";;
       res_send (match oj with Some j => JSON.print j | None => "" end)) x
  | Throw e => (x, Throw e)
  end.

Record Request := {
  body : list (string * value);   (* req.body, as express.json() parsed it *)
  req_headers : value;
  ip : value;
  path : value;
  method : value
}.

Definition upstream_url : string :=
  "https://api.openai.com/v1/chat/completions".

(** [await promise] for a promise that settles with [c]. *)
Definition await {A} (c : completion A) : H A := fun x => (x, c).

(** [await fetch(url, options)] *)
Definition send (fetch : Posted -> fetched) (p : Posted) : H UpstreamResponse :=
  fun x =>
    let x' := {| world := world x; posted := posted x ++ [p]; res := res x |} in
    match fetch p with
    | FetchResolves r => (x', Return r)
    | FetchRejects e => (x', Throw e)
    end.

(** The upstream call of the handler, with the headers and the body it
    builds for it. *)
Definition post (fetch : Posted -> fetched) (req : Request)
    (processedRequestBody : list (string * value)) : H UpstreamResponse :=
  auth ← lift (a ← get_named (req_headers req) "authorization";
               to_String (or_else a (VStr "")));
  org ← lift (o ← get_named (req_headers req) "openai-organization";
              to_String (or_else o (VStr "")));
  text ← lift (stringify_literal processedRequestBody);
  send fetch {| url := upstream_url; authorization := auth;
                organization := org; payload := text |}.

Definition sentinel : string := "[DONE]".

(** [`data: ${payload}\n\n`] *)
Definition frame (payload : string) : string :=
  "data: " +:+ payload +:+ String JSON.newline (String JSON.newline "").

(** The callback of [createParser], with the [then] and the [catch] of
    the promise [processResponse] returns.  Each promise is taken to be
    settled before the next event is handled, as it is with a transformer
    that awaits nothing. *)
Definition on_event (tr : Transformer) (meta : value) (event : parsed_event)
    : H unit :=
  match event with
  | ParsedEvent data =>
      if truthy (VStr data) then
        try_catch
          (processedData ← lift (processResponse tr (VStr data) meta);
           shown ← lift (to_String processedData);
           res_write (frame shown);;
           if strictly_string processedData sentinel then res_end
           else mret tt)
          (fun error => res_write (frame data))
      else mret tt
  | ReconnectInterval _ => mret tt
  end.

(** The events of the upstream body in order, then its 'end'.  An event
    that comes after the response was ended is handled like the others:
    its frame is a write after the end. *)
Fixpoint relay (tr : Transformer) (meta : value) (events : list parsed_event)
    : H unit :=
  match events with
  | [] => res_end    (* if (!res.writableEnded) res.end() *)
  | event :: events' => on_event tr meta event;; relay tr meta events'
  end.

(** The handler up to the call of the transformer: the messages and the
    metadata it is called with. *)
Definition prepare (req : Request) : M (value * value) :=
  let requestBody := body req in
  messages ← (if truthy (get "messages" requestBody)
              then mret (get "messages" requestBody)
              else alloc (Arr []));
  meta ← alloc (Obj [("model", get "model" requestBody);
                     ("headers", req_headers req);
                     ("ip", ip req);
                     ("path", path req);
                     ("method", method req)]);
  mret (messages, meta).

Definition chat_completions (tr : Transformer) (fetch : Posted -> fetched)
    (req : Request) : H unit :=
  try_catch
    (let requestBody := body req in
     '(messages, meta) ← lift (prepare req);
     processedMessages ← lift (processPrompt tr messages meta);
     let processedRequestBody := set "messages" processedMessages requestBody in
     let isStreaming := strictly_true (get "stream" requestBody) in
     if isStreaming then
       res_setHeader "Content-Type" "text/event-stream";;
       res_setHeader "Cache-Control" "no-cache";;
       res_setHeader "Connection" "keep-alive";;
       openaiResponse ← post fetch req processedRequestBody;
       if negb (response_ok openaiResponse) then
         errorText ← await (text openaiResponse);
         res_status (status openaiResponse);;
         res_send errorText
       else
         match sse openaiResponse with
         | None =>
             res_status 500;;
             res_send "Internal Server Error: No response body"
         | Some events => relay tr meta events
         end
     else
       openaiResponse ← post fetch req processedRequestBody;
       if negb (response_ok openaiResponse) then
         errorText ← await (text openaiResponse);
         res_status (status openaiResponse);;
         res_send errorText
       else
         openaiResponseData ← lift (json openaiResponse);
         processedResponseData ←
           lift (processResponse tr openaiResponseData meta);
         res_json processedResponseData)
    (fun error => res_status 500;; res_send "Internal Server Error").

Definition fresh_response : ServerResponse :=
  {| statusCode := 200; headers := []; calls := [] |}.

Definition begin (w : World) : Exchange :=
  {| world := w; posted := []; res := fresh_response |}.

End Proxy.

(* --------------------------------------------------------------------- *)
(** ** ProxyManager.ts: the supervisor of the proxy process               *)
(* --------------------------------------------------------------------- *)

Module ProxyManager.

(** The mutable fields of a [ProxyManager] instance.  A process handle is
    the index of the child in the order of spawning, a timer handle the
    index of the interval in the order of creation. *)
Record fields := {
  proxyPort : option Z;              (* number | null *)
  proxyProcess : option nat;         (* ChildProcess | null *)
  healthCheckInterval : option nat;  (* NodeJS.Timeout | null *)
  isStopped : bool
}.

Definition initial : fields :=
  {| proxyPort := None; proxyProcess := None;
     healthCheckInterval := None; isStopped := false |}.

(** [!this.proxyPort]: null and 0 are falsy. *)
Definition port_unset (f : fields) : bool :=
  match proxyPort f with
  | None => true
  | Some p => p =? 0
  end.

(** *** isPortFree / findFreeProxyPort *)

(** [canBind port] tells whether [server.listen(port)] reaches 'listening'
    (true) or 'error' (false).  [listen] throws synchronously on a number
    that is no port, which rejects the promise. *)
Inductive settled (A : Type) :=
| Resolved (a : A)
| Rejected (e : string).
Arguments Resolved {A} a.
Arguments Rejected {A} e.

Definition isPortFree (canBind : Z -> bool) (port : Z) : settled bool :=
  if (0 <=? port) && (port <? 65536)
  then Resolved (canBind port)
  else Rejected "ERR_SOCKET_BAD_PORT".

(** The [for] loop of [findFreeProxyPort], with the ports probed so far.
    [fuel] bounds the iterations; eleven are enough to leave the loop by
    its own test. *)
Fixpoint findFreeProxyPort_loop (canBind : Z -> bool) (fuel : nat)
    (port : Z) (probed : list Z) : Z * list Z :=
  match fuel with
  | O => (7001, probed)
  | S fuel' =>
      if port <=? 7010 then
        match isPortFree canBind port with
        | Resolved true => (port, probed ++ [port])
        | Resolved false | Rejected _ =>
            findFreeProxyPort_loop canBind fuel' (port + 1) (probed ++ [port])
        end
      else (7001, probed)
  end.

Definition findFreeProxyPort_trace (canBind : Z -> bool) : Z * list Z :=
  findFreeProxyPort_loop canBind 11 7001 [].

Definition findFreeProxyPort (canBind : Z -> bool) : Z :=
  fst (findFreeProxyPort_trace canBind).

(** *** isProxyAvailable *)

(** What the [fetch] of the health probe does: it answers with a status
    after some milliseconds, or fails (connection refused, reset, ...)
    after some milliseconds. *)
Inductive fetch_outcome :=
| Response (status : Z) (latency_ms : Z)
| NetworkError (latency_ms : Z).

(** [response.ok] *)
Definition response_ok (status : Z) : bool :=
  (200 <=? status) && (status <=? 299).

Definition outcome_ok (o : fetch_outcome) : bool :=
  match o with
  | Response status _ => response_ok status
  | NetworkError _ => false
  end.

Definition ping_url (port : Z) : string :=
  "http://127.0.0.1:" +:+ string_of_Z port +:+ "/ping".

(** The options object passed to [fetch]: a method and one header; the
    source passes neither a signal nor a timeout. *)
Record fetch_options := {
  opt_method : string;
  opt_headers : list (string * string);
  opt_signal : option Z   (* abort after that many milliseconds *)
}.

Definition ping_options : fetch_options :=
  {| opt_method := "GET";
     opt_headers := [("Accept", "application/json")];
     opt_signal := None |}.

Record probe := {
  available : bool;                          (* the value returned *)
  requests : list (string * fetch_options);  (* the network calls made *)
  elapsed_ms : Z                             (* time until it returned *)
}.

Definition isProxyAvailable (f : fields) (fetch : string -> fetch_outcome)
    : probe :=
  if port_unset f then
    {| available := false; requests := []; elapsed_ms := 0 |}
  else
    let url := ping_url (default 0 (proxyPort f)) in
    match fetch url with
    | Response status t =>
        {| available := response_ok status;
           requests := [(url, ping_options)]; elapsed_ms := t |}
    | NetworkError t =>
        {| available := false;
           requests := [(url, ping_options)]; elapsed_ms := t |}
    end.

(** *** The event loop around one ProxyManager

    The asynchronous methods run on Node's event loop: a method runs
    until it awaits something that needs a timer, the network or a socket,
    and is resumed by a later event.  A [task] is a method suspended at
    such an [await]; an [await this.isProxyAvailable()] with no port set
    needs nothing of the outside and is resumed at once.  Writing to the
    output channel changes nothing of what follows and is left out.
    [spawn] hands back a handle (Node reports a missing executable by a
    later 'error' event), so the [catch] of [startProxy] is never
    entered. *)

Inductive child_status :=
| Running    (* spawned, no signal sent *)
| Killed     (* kill() was called on its handle, 'close' not yet emitted *)
| Exited.    (* 'close' was emitted *)

#[global] Instance child_status_eq_dec : EqDecision child_status.
Proof. solve_decision. Defined.

Inductive task :=
| StartSettle    (* startProxy: await setTimeout(resolve, 2000) *)
| StartProbe     (* startProxy: await this.isProxyAvailable(), fetch sent *)
| TickProbe      (* interval callback: await this.isProxyAvailable() *)
| RestartDelay   (* restartProxy: await setTimeout(resolve, 1000) *)
| RestartScan    (* restartProxy: await this.findFreeProxyPort() *)
| EnsureProbe    (* ensureProxyAvailable: await this.isProxyAvailable() *)
| EnsureScan.    (* ensureProxyAvailable: await this.findFreeProxyPort() *)

Record world := {
  this : fields;
  children : list child_status;  (* every child spawned so far *)
  intervals : list bool;         (* every interval set so far; true: live *)
  pending : list task
}.

Definition initial_world : world :=
  {| this := initial; children := []; intervals := []; pending := [] |}.

Definition add_pending (t : task) (w : world) : world :=
  {| this := this w; children := children w; intervals := intervals w;
     pending := pending w ++ [t] |}.

(** [ChildProcess.kill()]: the signal reaches a child that still runs. *)
Definition kill (pid : nat) (cs : list child_status) : list child_status :=
  match cs !! pid with
  | Some Running => <[pid := Killed]> cs
  | _ => cs
  end.

Definition stopProxy (w : world) : world :=
  let w1 :=
    match healthCheckInterval (this w) with
    | Some t =>
        {| this := {| proxyPort := proxyPort (this w);
                      proxyProcess := proxyProcess (this w);
                      healthCheckInterval := None;
                      isStopped := isStopped (this w) |};
           children := children w;
           intervals := <[t := false]> (intervals w);   (* clearInterval *)
           pending := pending w |}
    | None => w
    end in
  match proxyProcess (this w1) with
  | Some p =>
      {| this := {| proxyPort := None;
                    proxyProcess := None;
                    healthCheckInterval := healthCheckInterval (this w1);
                    isStopped := true |};
         children := kill p (children w1);
         intervals := intervals w1;
         pending := pending w1 |}
  | None => w1
  end.

Definition setupHealthCheck (w : world) : world :=
  let cleared :=
    match healthCheckInterval (this w) with
    | Some t => <[t := false]> (intervals w)
    | None => intervals w
    end in
  {| this := {| proxyPort := proxyPort (this w);
                proxyProcess := proxyProcess (this w);
                healthCheckInterval := Some (length cleared);  (* setInterval *)
                isStopped := isStopped (this w) |};
     children := children w;
     intervals := cleared ++ [true];
     pending := pending w |}.

(** [startProxy(port)] up to its first [await]. *)
Definition startProxy (port : Z) (w : world) : world :=
  let spawned :=
    {| this := {| proxyPort := Some port;
                  proxyProcess := Some (length (children w));   (* spawn *)
                  healthCheckInterval := healthCheckInterval (this w);
                  isStopped := false |};
       children := children w ++ [Running];
       intervals := intervals w;
       pending := pending w |} in
  add_pending StartSettle (setupHealthCheck spawned).

Definition restartProxy (w : world) : world :=
  add_pending RestartDelay (stopProxy w).

Definition ensureProxyAvailable (w : world) : world :=
  if port_unset (this w)
  then add_pending EnsureScan w     (* isProxyAvailable() gave false *)
  else add_pending EnsureProbe w.

(** The 'close' handler registered by [startProxy] on the child [pid]. *)
Definition on_close (pid : nat) (w : world) : world :=
  let w1 :=
    {| this := {| proxyPort := None;
                  proxyProcess := None;
                  healthCheckInterval := healthCheckInterval (this w);
                  isStopped := isStopped (this w) |};
       children := <[pid := Exited]> (children w);
       intervals := intervals w;
       pending := pending w |} in
  if isStopped (this w1) then w1 else ensureProxyAvailable w1.

(** The callback of [setInterval] in [setupHealthCheck]. *)
Definition on_tick (w : world) : world :=
  if port_unset (this w) then w else add_pending TickProbe w.

(** What a suspended method is resumed with. *)
Inductive answer :=
| TimerFired
| Fetched (o : fetch_outcome)
| Scanned (busy : list Z).    (* the ports on which listen() fails *)

Definition canBind_except (busy : list Z) (port : Z) : bool :=
  negb (bool_decide (port ∈ busy)).

Definition resume (t : task) (a : answer) (w : world) : option world :=
  match t, a with
  | StartSettle, TimerFired =>
      Some (if port_unset (this w) then stopProxy w
            else add_pending StartProbe w)
  | StartProbe, Fetched o =>
      Some (if outcome_ok o then w else stopProxy w)
  | TickProbe, Fetched o =>
      Some (if negb (outcome_ok o) && negb (isStopped (this w))
            then restartProxy w else w)
  | RestartDelay, TimerFired => Some (add_pending RestartScan w)
  | RestartScan, Scanned busy =>
      Some (startProxy (findFreeProxyPort (canBind_except busy)) w)
  | EnsureProbe, Fetched o =>
      Some (if outcome_ok o then w else add_pending EnsureScan w)
  | EnsureScan, Scanned busy =>
      Some (startProxy (findFreeProxyPort (canBind_except busy)) w)
  | _, _ => None
  end.

Inductive event :=
| CallStart (port : Z)          (* the host calls startProxy(port) *)
| CallEnsure                    (* the host calls ensureProxyAvailable() *)
| CallStop                      (* the host calls stopProxy() *)
| Close (pid : nat)             (* the child pid has terminated *)
| Tick (tid : nat)              (* the interval tid fires *)
| Settle (i : nat) (a : answer). (* the i-th pending await settles *)

(** One turn of the event loop; [None] when the event cannot occur. *)
Definition step (w : world) (e : event) : option world :=
  match e with
  | CallStart port => Some (startProxy port w)
  | CallEnsure => Some (ensureProxyAvailable w)
  | CallStop => Some (stopProxy w)
  | Close pid =>
      match children w !! pid with
      | Some Running | Some Killed => Some (on_close pid w)
      | _ => None
      end
  | Tick tid =>
      match intervals w !! tid with
      | Some true => Some (on_tick w)
      | _ => None
      end
  | Settle i a =>
      match pending w !! i with
      | Some t =>
          resume t a {| this := this w; children := children w;
                        intervals := intervals w;
                        pending := delete i (pending w) |}
      | None => None
      end
  end.

Fixpoint run (w : world) (es : list event) : option world :=
  match es with
  | [] => Some w
  | e :: es' =>
      match step w e with
      | Some w' => run w' es'
      | None => None
      end
  end.

Inductive reachable : world -> Prop :=
| reachable_initial : reachable initial_world
| reachable_step w e w' :
    reachable w -> step w e = Some w' -> reachable w'.

(** The events that are no call of the host. *)
Definition internal (e : event) : bool :=
  match e with
  | Close _ | Tick _ | Settle _ _ => true
  | CallStart _ | CallEnsure | CallStop => false
  end.

(** The children that run. *)
Definition live (w : world) : nat :=
  length (filter (fun c => c = Running) (children w)).

End ProxyManager.

(* ===================================================================== *)
(** * Part II: lemmas and theorems                                         *)
(* ===================================================================== *)

(* --------------------------------------------------------------------- *)
(** ** JSON.parse reads back what JSON.stringify wrote                     *)
(* --------------------------------------------------------------------- *)

Section JsonRoundTrip.
Import JSON.
#[local] Arguments append !_ _ / : simpl nomatch.

Lemma append_assoc (a b c : string) : (a +:+ b) +:+ c = a +:+ (b +:+ c).
Proof.
  induction a as [|x a IH]; [reflexivity|]. cbn [append]. now rewrite IH.
Qed.

Lemma append_empty_r (a : string) : a +:+ "" = a.
Proof.
  induction a as [|x a IH]; [reflexivity|]. cbn [append]. now rewrite IH.
Qed.

Lemma length_append (a b : string) :
  String.length (a +:+ b) = (String.length a + String.length b)%nat.
Proof.
  induction a as [|x a IH]; [reflexivity|].
  cbn [append String.length]. now rewrite IH.
Qed.

Lemma json_ind_nested (P : json -> Prop) :
  P JNull -> (forall b, P (JBool b)) -> (forall n, P (JNum n)) ->
  (forall s, P (JStr s)) ->
  (forall elems, Forall P elems -> P (JArr elems)) ->
  (forall props, Forall (fun p => P (snd p)) props -> P (JObj props)) ->
  forall j, P j.
Proof.
  intros Hnull Hbool Hnum Hstr Harr Hobj.
  refine (fix IH (j : json) : P j :=
            match j with
            | JNull => Hnull
            | JBool b => Hbool b
            | JNum n => Hnum n
            | JStr s => Hstr s
            | JArr elems =>
                Harr elems
                  ((fix all (es : list json) : Forall P es :=
                      match es with
                      | [] => List.Forall_nil _
                      | e :: es' => List.Forall_cons _ e es' (IH e) (all es')
                      end) elems)
            | JObj props =>
                Hobj props
                  ((fix all (ps : list (string * json))
                      : Forall (fun p => P (snd p)) ps :=
                      match ps with
                      | [] => List.Forall_nil _
                      | p :: ps' => List.Forall_cons _ p ps' (IH (snd p)) (all ps')
                      end) props)
            end).
Qed.

(** **** String literals *)

Lemma read_string_escape_char c tail :
  read_string (escape_char c +:+ tail) = push c (read_string tail).
Proof. destruct c as [[] [] [] [] [] [] [] []]; reflexivity. Qed.

Lemma read_string_escape s tail :
  read_string (escape s +:+ String dquote tail) = Some (s, tail).
Proof.
  induction s as [|c s IH]; [reflexivity|].
  cbn [escape]. rewrite append_assoc, read_string_escape_char, IH.
  reflexivity.
Qed.

Lemma quote_append s tail :
  quote s +:+ tail = String dquote (escape s +:+ String dquote tail).
Proof. unfold quote. cbn. now rewrite append_assoc. Qed.

(** **** Numbers *)

Lemma span_digits_uint d rest :
  leading_digit rest = false ->
  span_digits (NilEmpty.string_of_uint d +:+ rest)
    = (NilEmpty.string_of_uint d, rest).
Proof.
  intros Hrest. induction d; cbn; rewrite ?IHd; try reflexivity.
  destruct rest as [|c r]; [reflexivity|]. cbn in *. now rewrite Hrest.
Qed.

Lemma string_of_uint_nonnil d :
  d <> Decimal.Nil ->
  NilZero.string_of_uint d = NilEmpty.string_of_uint d
  /\ exists c s, NilEmpty.string_of_uint d = String c s /\ is_digit c = true.
Proof.
  intros Hd. destruct d; try congruence; split; try reflexivity;
    cbn; eauto.
Qed.

Lemma to_int_unsigned n :
  exists d, d <> Decimal.Nil
    /\ (Z.to_int n = Decimal.Pos d \/ Z.to_int n = Decimal.Neg d).
Proof.
  destruct n as [|p|p]; cbn.
  - exists (Decimal.D0 Decimal.Nil). split; [discriminate|auto].
  - exists (Pos.to_uint p). split; [apply Unsigned.to_uint_nonnil|auto].
  - exists (Pos.to_uint p). split; [apply Unsigned.to_uint_nonnil|auto].
Qed.

Lemma read_number_print n rest :
  leading_digit rest = false ->
  read_number (string_of_Z n +:+ rest) = Some (n, rest).
Proof.
  intros Hrest. unfold string_of_Z.
  destruct (to_int_unsigned n) as (d & Hd & [Hn|Hn]);
    destruct (string_of_uint_nonnil d Hd) as (Hz & c & s & Hs & Hc).
  - assert (Hi := NilZero.isi (Decimal.Pos d)).
    rewrite Hn in *. cbn [NilZero.string_of_int] in *. rewrite Hz in *.
    unfold read_number.
    assert (Hminus : (c =? "-")%char = false).
    { destruct c as [[] [] [] [] [] [] [] []]; try discriminate; reflexivity. }
    replace (match NilEmpty.string_of_uint d +:+ rest with
             | String "-" rest0 => ("-", rest0)
             | _ => ("", NilEmpty.string_of_uint d +:+ rest)
             end) with ("", NilEmpty.string_of_uint d +:+ rest).
    2:{ rewrite Hs. cbn.
        destruct c as [[] [] [] [] [] [] [] []]; try discriminate; reflexivity. }
    rewrite span_digits_uint by exact Hrest. rewrite Hs. cbn [append].
    rewrite <- Hs, Hi by (intros [=]; congruence).
    rewrite <- Hn, of_to. reflexivity.
  - assert (Hi := NilZero.isi (Decimal.Neg d)).
    rewrite Hn in *. cbn [NilZero.string_of_int] in *. rewrite Hz in *.
    unfold read_number. cbn [append].
    rewrite span_digits_uint by exact Hrest. rewrite Hs.
    rewrite <- Hs, Hi by (intros [=]; congruence).
    rewrite <- Hn, of_to. reflexivity.
Qed.

Lemma string_of_Z_head n :
  exists c s, string_of_Z n = String c s
    /\ (is_digit c || is_char c 45) = true.
Proof.
  unfold string_of_Z.
  destruct (to_int_unsigned n) as (d & Hd & [Hn|Hn]);
    destruct (string_of_uint_nonnil d Hd) as (Hz & c & s & Hs & Hc);
    rewrite Hn; cbn [NilZero.string_of_int]; rewrite ?Hz.
  - exists c, s. rewrite Hs, Hc. auto.
  - eexists _, _. split; reflexivity.
Qed.

(** **** Values *)

Lemma join_cons2 sep p q ps :
  join sep (p :: q :: ps) = p +:+ sep +:+ join sep (q :: ps).
Proof. reflexivity. Qed.

Lemma read_value_number f c s :
  (is_digit c || is_char c 45) = true ->
  read_value (S f) (String c s)
    = match read_number (String c s) with
      | Some (n, rest') => Some (JNum n, rest')
      | None => None
      end.
Proof. intros H. cbn [read_value]. now rewrite H. Qed.

Lemma read_value_string f s :
  read_value (S f) (String dquote s)
    = match read_string s with
      | Some (s', rest') => Some (JStr s', rest')
      | None => None
      end.
Proof. reflexivity. Qed.

Lemma read_value_array f c s :
  is_char c 93 = false ->
  read_value (S f) (String "[" (String c s))
    = match read_elems f (String c s) with
      | Some (elems, rest') => Some (JArr elems, rest')
      | None => None
      end.
Proof. intros H. cbn [read_value]. cbn. now rewrite H. Qed.

Lemma read_value_object f s :
  read_value (S f) (String "{" (String dquote s))
    = match read_props f (String dquote s) with
      | Some (props, rest') => Some (JObj props, rest')
      | None => None
      end.
Proof. reflexivity. Qed.

Lemma digit_or_minus_head c :
  (is_digit c || is_char c 45) = true ->
  is_char c 93 = false /\ is_char c 125 = false.
Proof.
  destruct c as [[] [] [] [] [] [] [] []]; try discriminate; auto.
Qed.

Lemma print_head j tail :
  exists c s, print j +:+ tail = String c s /\ is_char c 93 = false.
Proof.
  destruct j as [| [] | n | s | elems | props];
    try (eexists _, _; split; [reflexivity|reflexivity]).
  destruct (string_of_Z_head n) as (c & s & Hs & Hc).
  exists c, (s +:+ tail). cbn [print]. rewrite Hs. split; [reflexivity|].
  now apply digit_or_minus_head.
Qed.

(** Reading back what [print] wrote, followed by anything that cannot
    lengthen a number. *)
Definition reads_back (j : json) : Prop :=
  forall fuel rest, (size j <= fuel)%nat -> leading_digit rest = false ->
    read_value fuel (print j +:+ rest) = Some (j, rest).

Lemma read_elems_print elems :
  elems <> [] -> Forall reads_back elems ->
  forall fuel rest,
    (list_sum (map (fun e => S (size e)) elems) <= fuel)%nat ->
    read_elems fuel (join "," (map print elems) +:+ String "]" rest)
      = Some (elems, rest).
Proof.
  induction elems as [|e elems IH]; [congruence|].
  intros _ Hall fuel rest Hfuel.
  apply Forall_cons in Hall as [He Hall].
  cbn [map list_sum fold_right] in Hfuel.
  destruct fuel as [|fuel]; [lia|]. cbn [read_elems].
  destruct elems as [|e2 elems].
  - cbn [map join]. rewrite He by (try reflexivity; lia). reflexivity.
  - cbn [map]. rewrite join_cons2, !append_assoc.
    change ("," +:+ ?x) with (String "," x).
    rewrite He by (try reflexivity; cbn [map list_sum fold_right] in *; lia).
    change (is_char "," 44) with true. cbv iota.
    change (map print (e2 :: elems)) with (print e2 :: map print elems) in IH.
    rewrite IH; [reflexivity|congruence|exact Hall|].
    cbn [map list_sum fold_right snd] in *; lia.
Qed.

Lemma read_props_print props :
  props <> [] -> Forall (fun p => reads_back (snd p)) props ->
  forall fuel rest,
    (list_sum (map (fun p => S (size (snd p))) props) <= fuel)%nat ->
    read_props fuel
      (join "," (map (fun p => quote (fst p) +:+ ":" +:+ print (snd p)) props)
         +:+ String "}" rest)
      = Some (props, rest).
Proof.
  induction props as [|[k v] props IH]; [congruence|].
  intros _ Hall fuel rest Hfuel.
  apply Forall_cons in Hall as [Hv Hall]. cbn [snd] in Hv.
  cbn [map list_sum fold_right snd] in Hfuel.
  destruct fuel as [|fuel]; [lia|].
  destruct props as [|[k2 v2] props].
  - cbn [map join fst snd]. rewrite !append_assoc, quote_append.
    cbn [read_props]. change (is_char dquote 34) with true. cbv iota.
    rewrite read_string_escape.
    change (":" +:+ ?x) with (String ":" x).
    change (is_char ":" 58) with true. cbv iota.
    rewrite Hv by (try reflexivity; lia). reflexivity.
  - cbn [map fst snd]. rewrite join_cons2, !append_assoc, quote_append.
    cbn [read_props]. change (is_char dquote 34) with true. cbv iota.
    rewrite read_string_escape.
    change (":" +:+ ?x) with (String ":" x).
    change (is_char ":" 58) with true. cbv iota.
    change ("," +:+ ?x) with (String "," x).
    rewrite Hv by (try reflexivity; cbn [map list_sum fold_right snd] in *; lia).
    change (is_char "," 44) with true. cbv iota.
    cbn [map fst snd] in IH.
    rewrite IH; [reflexivity|congruence|exact Hall|].
    cbn [map list_sum fold_right snd] in *; lia.
Qed.

Lemma read_value_print j : reads_back j.
Proof.
  induction j as [| b | n | s | elems IH | props IH] using json_ind_nested;
    intros fuel rest Hfuel Hrest;
    (destruct fuel as [|fuel]; [cbn in Hfuel; lia|]).
  - reflexivity.
  - destruct b; reflexivity.
  - cbn [print].
    destruct (string_of_Z_head n) as (c & s & Hs & Hc).
    pose proof (read_number_print n rest Hrest) as Hn.
    rewrite Hs in *. cbn [append] in *.
    now rewrite (read_value_number fuel c _ Hc), Hn.
  - cbn [print]. rewrite quote_append, read_value_string.
    now rewrite read_string_escape.
  - cbn [print size] in *. rewrite !append_assoc.
    change ("[" +:+ ?x) with (String "[" x).
    change ("]" +:+ ?x) with (String "]" x).
    destruct elems as [|e elems]; [reflexivity|].
    assert (Hhead : exists c s,
              join "," (map print (e :: elems)) +:+ String "]" rest
                = String c s /\ is_char c 93 = false).
    { cbn [map]. destruct elems as [|e2 elems].
      - apply print_head.
      - cbn [map]. rewrite join_cons2, append_assoc. apply print_head. }
    destruct Hhead as (c & s' & Heq & Hc).
    pose proof (read_elems_print (e :: elems) ltac:(congruence) IH fuel rest
                  ltac:(lia)) as Hread.
    rewrite Heq in *. now rewrite (read_value_array fuel c s' Hc), Hread.
  - cbn [print size] in *. rewrite !append_assoc.
    change ("{" +:+ ?x) with (String "{" x).
    change ("}" +:+ ?x) with (String "}" x).
    destruct props as [|[k v] props]; [reflexivity|].
    pose proof (read_props_print ((k, v) :: props) ltac:(congruence) IH
                  fuel rest ltac:(lia)) as Hread.
    assert (Hhead : exists s',
              join "," (map (fun p => quote (fst p) +:+ ":" +:+ print (snd p))
                          ((k, v) :: props)) +:+ String "}" rest
                = String dquote s').
    { cbn [map fst snd]. destruct props as [|[k2 v2] props].
      - cbn [join]. rewrite !append_assoc, quote_append. eauto.
      - cbn [map fst snd].
        rewrite join_cons2, !append_assoc, quote_append. eauto. }
    destruct Hhead as (s' & Heq).
    rewrite Heq in *. now rewrite read_value_object, Hread.
Qed.

Lemma string_of_Z_length n : (1 <= String.length (string_of_Z n))%nat.
Proof.
  destruct (string_of_Z_head n) as (c & s & -> & _). cbn. lia.
Qed.

Lemma elems_size_le_length elems :
  Forall (fun j => (size j <= String.length (print j))%nat) elems ->
  (list_sum (map (fun e => S (size e)) elems)
     <= String.length (join "," (map print elems)) + 1)%nat.
Proof.
  induction elems as [|e elems IH]; intros Hall; [cbn; lia|].
  apply Forall_cons in Hall as [He Hall]. specialize (IH Hall).
  destruct elems as [|e2 elems].
  - cbn [map list_sum fold_right join]. lia.
  - cbn [map]. rewrite join_cons2, !length_append.
    cbn [map list_sum fold_right String.length] in *. lia.
Qed.

Lemma props_size_le_length props :
  Forall (fun p => (size (snd p) <= String.length (print (snd p)))%nat) props ->
  (list_sum (map (fun p => S (size (snd p))) props)
     <= String.length
          (join "," (map (fun p => quote (fst p) +:+ ":" +:+ print (snd p))
                       props)) + 1)%nat.
Proof.
  induction props as [|[k v] props IH]; intros Hall; [cbn; lia|].
  apply Forall_cons in Hall as [Hv Hall]. specialize (IH Hall).
  destruct props as [|[k2 v2] props].
  - cbn [map list_sum fold_right join fst snd] in *.
    rewrite !length_append. lia.
  - cbn [map fst snd]. rewrite join_cons2, !length_append.
    cbn [map list_sum fold_right String.length fst snd] in *. lia.
Qed.

Lemma size_le_length j : (size j <= String.length (print j))%nat.
Proof.
  induction j as [| b | n | s | elems IH | props IH] using json_ind_nested.
  - cbn. lia.
  - destruct b; cbn; lia.
  - cbn [size print]. apply string_of_Z_length.
  - cbn. lia.
  - cbn [size print]. rewrite !length_append.
    pose proof (elems_size_le_length elems IH). cbn [String.length]. lia.
  - cbn [size print]. rewrite !length_append.
    pose proof (props_size_le_length props IH). cbn [String.length]. lia.
Qed.

(** [JSON.parse (JSON.stringify j)] is [j]. *)
Lemma parse_print j : parse (print j) = Some j.
Proof.
  unfold parse.
  pose proof (read_value_print j (S (String.length (print j))) ""
                ltac:(pose proof (size_le_length j); lia) eq_refl) as H.
  rewrite append_empty_r in H. now rewrite H.
Qed.

(** **** One line *)

Lemma one_line_append a b : one_line (a +:+ b) = one_line a && one_line b.
Proof.
  induction a as [|c a IH]; [reflexivity|].
  cbn [append one_line]. rewrite IH. now rewrite andb_assoc.
Qed.

Lemma one_line_escape_char c : one_line (escape_char c) = true.
Proof. destruct c as [[] [] [] [] [] [] [] []]; reflexivity. Qed.

Lemma one_line_escape s : one_line (escape s) = true.
Proof.
  induction s as [|c s IH]; [reflexivity|].
  cbn [escape]. now rewrite one_line_append, one_line_escape_char, IH.
Qed.

Lemma one_line_quote s : one_line (quote s) = true.
Proof.
  unfold quote. cbn [one_line]. rewrite one_line_append, one_line_escape.
  reflexivity.
Qed.

Lemma one_line_uint d : one_line (NilEmpty.string_of_uint d) = true.
Proof. induction d; cbn [NilEmpty.string_of_uint one_line]; auto. Qed.

Lemma one_line_string_of_Z n : one_line (string_of_Z n) = true.
Proof.
  unfold string_of_Z.
  destruct (to_int_unsigned n) as (d & Hd & [Hn|Hn]);
    destruct (string_of_uint_nonnil d Hd) as (Hz & _);
    rewrite Hn; cbn [NilZero.string_of_int one_line]; rewrite Hz;
    apply one_line_uint.
Qed.

Lemma one_line_join parts :
  Forall (fun p => one_line p = true) parts -> one_line (join "," parts) = true.
Proof.
  induction parts as [|p parts IH]; intros Hall; [reflexivity|].
  apply Forall_cons in Hall as [Hp Hall]. specialize (IH Hall).
  destruct parts as [|q parts]; [exact Hp|].
  rewrite join_cons2, !one_line_append, Hp, IH. reflexivity.
Qed.

Lemma one_line_print j : one_line (print j) = true.
Proof.
  induction j as [| b | n | s | elems IH | props IH] using json_ind_nested.
  - reflexivity.
  - destruct b; reflexivity.
  - apply one_line_string_of_Z.
  - apply one_line_quote.
  - cbn [print]. rewrite !one_line_append, one_line_join; [reflexivity|].
    apply Forall_map. exact IH.
  - cbn [print]. rewrite !one_line_append, one_line_join; [reflexivity|].
    apply Forall_map. eapply Forall_impl; [exact IH|].
    intros [k v] Hv. cbn [fst snd] in *.
    now rewrite !one_line_append, one_line_quote, Hv.
Qed.

End JsonRoundTrip.

(* --------------------------------------------------------------------- *)
(** ** findFreeProxyPort                                                   *)
(* --------------------------------------------------------------------- *)

Section FindFreeProxyPort.
Import ProxyManager.
Variable canBind : Z -> bool.

Lemma isPortFree_in_range port :
  7001 <= port <= 7010 -> isPortFree canBind port = Resolved (canBind port).
Proof.
  intros H. unfold isPortFree.
  replace (0 <=? port) with true by (symmetry; apply Z.leb_le; lia).
  replace (port <? 65536) with true by (symmetry; apply Z.ltb_lt; lia).
  reflexivity.
Qed.

Lemma findFreeProxyPort_loop_spec fuel : forall port probed,
  7001 <= port -> 7011 <= port + Z.of_nat fuel ->
  (exists p, port <= p <= 7010 /\ canBind p = true /\
     (forall q, port <= q < p -> canBind q = false) /\
     findFreeProxyPort_loop canBind fuel port probed
       = (p, probed ++ seqZ port (p - port + 1)))
  \/ ((forall q, port <= q <= 7010 -> canBind q = false) /\
      findFreeProxyPort_loop canBind fuel port probed
        = (7001, probed ++ seqZ port (7011 - port))).
Proof.
  assert (Hdone : forall port probed, 7011 <= port ->
            probed ++ seqZ port (7011 - port) = probed).
  { intros port probed H. unfold seqZ.
    replace (Z.to_nat (7011 - port)) with 0%nat by lia.
    simpl. now rewrite app_nil_r. }
  induction fuel as [|fuel IH]; intros port probed Hlo Hsum.
  - right. split; [intros q Hq; lia|].
    simpl. now rewrite Hdone by lia.
  - cbn [findFreeProxyPort_loop].
    destruct (Z.leb_spec port 7010) as [Hport|Hport].
    2:{ right. split; [intros q Hq; lia|]. now rewrite Hdone by lia. }
    rewrite isPortFree_in_range by lia.
    destruct (canBind port) eqn:Hfree.
    + left. exists port. split; [lia|]. split; [exact Hfree|].
      split; [intros q Hq; lia|].
      replace (port - port + 1) with 1 by lia. reflexivity.
    + destruct (IH (port + 1) (probed ++ [port])) as
        [(p & Hp & Hfp & Hbusy & Heq)|[Hbusy Heq]]; [lia|lia| |].
      * left. exists p. split; [lia|]. split; [exact Hfp|]. split.
        -- intros q Hq. destruct (Z.eq_dec q port) as [->|Hne];
             [exact Hfree|apply Hbusy; lia].
        -- rewrite Heq. f_equal. rewrite <- app_assoc. f_equal.
           replace (p - port + 1) with (Z.succ (p - (port + 1) + 1)) by lia.
           rewrite (seqZ_cons port) by lia. simpl. do 2 f_equal; lia.
      * right. split.
        -- intros q Hq. destruct (Z.eq_dec q port) as [->|Hne];
             [exact Hfree|apply Hbusy; lia].
        -- rewrite Heq. f_equal. rewrite <- app_assoc. f_equal.
           replace (7011 - port) with (Z.succ (7011 - (port + 1))) by lia.
           rewrite (seqZ_cons port) by lia. simpl. do 2 f_equal; lia.
Qed.

(** C6. [findFreeProxyPort] probes the ports 7001, 7002, ... in ascending
    order and returns the first one on which a listening socket can be
    bound; when none of 7001..7010 can be bound it returns 7001. *)
Theorem findFreeProxyPort_first_free :
  (exists p, 7001 <= p <= 7010 /\ canBind p = true /\
     (forall q, 7001 <= q < p -> canBind q = false) /\
     findFreeProxyPort canBind = p /\
     snd (findFreeProxyPort_trace canBind) = seqZ 7001 (p - 7001 + 1))
  \/ ((forall q, 7001 <= q <= 7010 -> canBind q = false) /\
      findFreeProxyPort canBind = 7001 /\
      snd (findFreeProxyPort_trace canBind) = seqZ 7001 10).
Proof.
  unfold findFreeProxyPort, findFreeProxyPort_trace.
  destruct (findFreeProxyPort_loop_spec 11 7001 []) as
    [(p & Hp & Hfp & Hbusy & Heq)|[Hbusy Heq]]; [lia|lia| |].
  - left. exists p. rewrite Heq. auto.
  - right. rewrite Heq. auto.
Qed.

End FindFreeProxyPort.

(* --------------------------------------------------------------------- *)
(** ** isProxyAvailable                                                    *)
(* --------------------------------------------------------------------- *)

Section IsProxyAvailable.
Import ProxyManager.

(** The sentence of the specification at one state and one behaviour of
    the network: true only with a port and a probe that succeeded within
    five seconds; false without a network call when no port is set. *)
Definition available_within_timeout (f : fields)
    (fetch : string -> fetch_outcome) : Prop :=
  (available (isProxyAvailable f fetch) = true ->
     port_unset f = false /\ elapsed_ms (isProxyAvailable f fetch) <= 5000)
  /\ (proxyPort f = None ->
        available (isProxyAvailable f fetch) = false
        /\ requests (isProxyAvailable f fetch) = []).

Definition on_port_7001 : fields :=
  {| proxyPort := Some 7001; proxyProcess := Some 0%nat;
     healthCheckInterval := Some 0%nat; isStopped := false |}.

Definition answers_after_a_minute (url : string) : fetch_outcome :=
  Response 200 60000.

(** A probe answered after a minute still makes [isProxyAvailable] return
    true: the [fetch] carries no timeout. *)
Lemma isProxyAvailable_waits_unbounded :
  ~ available_within_timeout on_port_7001 answers_after_a_minute.
Proof.
  intros [Hbound _]. cbn in Hbound.
  destruct (Hbound eq_refl) as [_ Hle]. lia.
Qed.

Lemma port_unset_false f :
  port_unset f = false -> exists p, proxyPort f = Some p /\ p <> 0.
Proof.
  unfold port_unset. destruct (proxyPort f) as [p|]; [|discriminate].
  intros H%Z.eqb_neq. eauto.
Qed.

Lemma isProxyAvailable_port_set f fetch p :
  proxyPort f = Some p -> p <> 0 ->
  isProxyAvailable f fetch =
    {| available := outcome_ok (fetch (ping_url p));
       requests := [(ping_url p, ping_options)];
       elapsed_ms := match fetch (ping_url p) with
                     | Response _ t | NetworkError t => t
                     end |}.
Proof.
  intros Hport Hp0. unfold isProxyAvailable, port_unset. rewrite Hport.
  apply Z.eqb_neq in Hp0. rewrite Hp0. cbn.
  now destruct (fetch (ping_url p)).
Qed.

(** C7 (amended). [isProxyAvailable] returns true only if a port is set
    and the probe of [/ping] on that port was answered with a status in
    200..299, after however long: the request carries no timeout and the
    value returned does not depend on the time the answer took.  With no
    port set (null or 0) it returns false and makes no network call. *)
Theorem isProxyAvailable_spec (f : fields) (fetch : string -> fetch_outcome) :
  (available (isProxyAvailable f fetch) = true ->
     exists p status t, proxyPort f = Some p /\ p <> 0 /\
       fetch (ping_url p) = Response status t /\ 200 <= status <= 299)
  /\ (port_unset f = true ->
        isProxyAvailable f fetch
          = {| available := false; requests := []; elapsed_ms := 0 |})
  /\ (proxyPort f = None -> port_unset f = true)
  /\ (forall p o, proxyPort f = Some p -> p <> 0 -> fetch (ping_url p) = o ->
        available (isProxyAvailable f fetch) = outcome_ok o
        /\ requests (isProxyAvailable f fetch) = [(ping_url p, ping_options)])
  /\ opt_signal ping_options = None.
Proof.
  split; [|split; [|split; [|split]]].
  - destruct (port_unset f) eqn:Hp.
    { unfold isProxyAvailable. rewrite Hp. cbn. discriminate. }
    destruct (port_unset_false f Hp) as (p & Hport & Hp0).
    rewrite (isProxyAvailable_port_set f fetch p Hport Hp0). cbn.
    destruct (fetch (ping_url p)) as [status t|t] eqn:Hf; cbn; intros Hok;
      [|discriminate Hok].
    exists p, status, t.
    unfold response_ok in Hok. apply andb_true_iff in Hok as [H1 H2].
    apply Z.leb_le in H1, H2. repeat split; auto.
  - intros Hp. unfold isProxyAvailable. now rewrite Hp.
  - intros Hp. unfold port_unset. now rewrite Hp.
  - intros p o Hport Hp0 Hf.
    rewrite (isProxyAvailable_port_set f fetch p Hport Hp0). cbn.
    now rewrite Hf.
  - reflexivity.
Qed.

End IsProxyAvailable.

(* --------------------------------------------------------------------- *)
(** ** startProxy and the process handle                                   *)
(* --------------------------------------------------------------------- *)

Section ProcessHandle.
Import ProxyManager.

Lemma run_app w es1 es2 :
  run w (es1 ++ es2) = match run w es1 with
                       | Some w' => run w' es2
                       | None => None
                       end.
Proof.
  revert w. induction es1 as [|e es1 IH]; intros w; cbn; [reflexivity|].
  destruct (step w e); auto.
Qed.

Lemma run_reachable es : forall w w',
  reachable w -> run w es = Some w' -> reachable w'.
Proof.
  induction es as [|e es IH]; intros w w' Hw Hrun; cbn in Hrun.
  - congruence.
  - destruct (step w e) as [w1|] eqn:Hstep; [|discriminate].
    eapply IH; [|exact Hrun]. eapply reachable_step; eauto.
Qed.

(** The handle, when one is attached, is the child spawned last, and that
    child runs. *)
Definition handle_ok (w : world) : Prop :=
  forall p, proxyProcess (this w) = Some p ->
    S p = length (children w) /\ children w !! p = Some Running.

Lemma stopProxy_detaches w : proxyProcess (this (stopProxy w)) = None.
Proof.
  unfold stopProxy.
  destruct (healthCheckInterval (this w)); cbn;
    destruct (proxyProcess (this w)) eqn:E; cbn; auto.
Qed.

Lemma startProxy_children port w :
  children (startProxy port w) = children w ++ [Running]
  /\ proxyProcess (this (startProxy port w)) = Some (length (children w))
  /\ proxyPort (this (startProxy port w)) = Some port
  /\ isStopped (this (startProxy port w)) = false.
Proof. unfold startProxy, setupHealthCheck. cbn. auto. Qed.

Lemma startProxy_handle_ok port w : handle_ok (startProxy port w).
Proof.
  intros p Hp. destruct (startProxy_children port w) as (Hc & Hh & _).
  rewrite Hh in Hp. injection Hp as <-. rewrite Hc. split.
  - rewrite length_app. cbn. lia.
  - rewrite lookup_app_r by lia. now rewrite Nat.sub_diag.
Qed.

Lemma detached_handle_ok w : proxyProcess (this w) = None -> handle_ok w.
Proof. intros H p Hp. congruence. Qed.

Lemma handle_ok_add_pending t w : handle_ok w -> handle_ok (add_pending t w).
Proof. exact (fun H => H). Qed.

Lemma handle_ok_ensure w : handle_ok w -> handle_ok (ensureProxyAvailable w).
Proof. unfold ensureProxyAvailable. destruct (port_unset (this w)); auto. Qed.

Lemma resume_handle_ok t a w w' :
  handle_ok w -> resume t a w = Some w' -> handle_ok w'.
Proof.
  intros Hw Hr.
  destruct t, a; cbn in Hr; try discriminate; injection Hr as <-;
    repeat match goal with
           | |- context [if ?b then _ else _] => destruct b
           end;
    auto using startProxy_handle_ok, stopProxy_detaches, detached_handle_ok.
  unfold restartProxy. apply detached_handle_ok, stopProxy_detaches.
Qed.

Lemma step_handle_ok w e w' :
  handle_ok w -> step w e = Some w' -> handle_ok w'.
Proof.
  intros Hw Hs. destruct e as [port| | |pid|tid|i a]; cbn in Hs.
  - injection Hs as <-. apply startProxy_handle_ok.
  - injection Hs as <-. now apply handle_ok_ensure.
  - injection Hs as <-. apply detached_handle_ok, stopProxy_detaches.
  - assert (Hc : handle_ok (on_close pid w)).
    { apply detached_handle_ok. unfold on_close, ensureProxyAvailable. cbn.
      destruct (isStopped (this w)); [reflexivity|].
      unfold port_unset; reflexivity. }
    destruct (children w !! pid) as [[]|]; try discriminate;
      now injection Hs as <-.
  - destruct (intervals w !! tid) as [[]|]; try discriminate.
    injection Hs as <-. unfold on_tick. destruct (port_unset (this w)); auto.
  - destruct (pending w !! i); [|discriminate].
    eapply resume_handle_ok; [|exact Hs]. exact Hw.
Qed.

Lemma reachable_handle_ok w : reachable w -> handle_ok w.
Proof.
  induction 1 as [|w e w' _ IH Hs].
  - now apply detached_handle_ok.
  - eapply step_handle_ok; eauto.
Qed.

(** The sentence of the specification at one state: at most one child
    lives, and [startProxy] spawns nothing while a handle is attached. *)
Definition start_refused_while_attached (w : world) (port : Z) : Prop :=
  (live w <= 1)%nat
  /\ (is_Some (proxyProcess (this w)) ->
        children (startProxy port w) = children w).

(** The proxy was started by [ensureProxyAvailable] and answered its first
    health probe. *)
Definition started : list event :=
  [CallEnsure; Settle 0 (Scanned []); Settle 0 TimerFired;
   Settle 0 (Fetched (Response 200 5))].

Definition w_started : world :=
  {| this := {| proxyPort := Some 7001; proxyProcess := Some 0%nat;
                healthCheckInterval := Some 0%nat; isStopped := false |};
     children := [Running]; intervals := [true]; pending := [] |}.

Lemma w_started_reachable : reachable w_started.
Proof.
  apply (run_reachable started initial_world); [constructor|].
  vm_compute. reflexivity.
Qed.

(** [startProxy] called in that state spawns a second child beside the
    first, which goes on running without a handle. *)
Lemma startProxy_spawns_while_attached :
  reachable w_started
  /\ ~ start_refused_while_attached w_started 7002
  /\ reachable (startProxy 7002 w_started)
  /\ children (startProxy 7002 w_started) = [Running; Running]
  /\ live (startProxy 7002 w_started) = 2%nat.
Proof.
  split; [exact w_started_reachable|]. split.
  - intros [_ H]. specialize (H (mk_is_Some _ _ eq_refl)).
    vm_compute in H. discriminate H.
  - split; [|split; reflexivity].
    apply (reachable_step w_started (CallStart 7002));
      [exact w_started_reachable|reflexivity].
Qed.

(** C4 (amended). In every reachable state the supervisor holds at most
    one process handle; an attached handle is that of the child spawned
    last, and that child runs.  [startProxy(port)] never refuses: it spawns
    a new child and attaches its handle, whether or not a handle was
    attached, and leaves the children spawned before as they were. *)
Theorem handle_is_last_child (w : world) :
  reachable w ->
  (forall p, proxyProcess (this w) = Some p ->
     S p = length (children w) /\ children w !! p = Some Running)
  /\ (forall port,
        children (startProxy port w) = children w ++ [Running]
        /\ proxyProcess (this (startProxy port w)) = Some (length (children w))
        /\ proxyPort (this (startProxy port w)) = Some port).
Proof.
  intros Hw. split.
  - exact (reachable_handle_ok w Hw).
  - intros port. destruct (startProxy_children port w) as (H1 & H2 & H3 & _).
    auto.
Qed.

Lemma handle_is_last_child_witness :
  reachable w_started
  /\ ((forall p, proxyProcess (this w_started) = Some p ->
         S p = length (children w_started)
         /\ children w_started !! p = Some Running)
      /\ (forall port,
            children (startProxy port w_started)
              = children w_started ++ [Running]
            /\ proxyProcess (this (startProxy port w_started))
                 = Some (length (children w_started))
            /\ proxyPort (this (startProxy port w_started)) = Some port)).
Proof.
  split; [exact w_started_reachable|].
  apply (handle_is_last_child w_started). exact w_started_reachable.
Defined.

End ProcessHandle.

(* --------------------------------------------------------------------- *)
(** ** stopProxy and the automatic restart                                 *)
(* --------------------------------------------------------------------- *)

Section StopProxy.
Import ProxyManager.

(** Every live interval is the one the field [healthCheckInterval] holds. *)
Definition timers_tracked (w : world) : Prop :=
  forall t, intervals w !! t = Some true ->
    healthCheckInterval (this w) = Some t.

Definition cleared (w : world) : list bool :=
  match healthCheckInterval (this w) with
  | Some t => <[t := false]> (intervals w)
  | None => intervals w
  end.

Lemma cleared_all_false w :
  timers_tracked w -> Forall (fun b => b = false) (cleared w).
Proof.
  intros Ht. apply Forall_lookup. intros i b Hi. unfold cleared in Hi.
  destruct b; [exfalso|reflexivity].
  destruct (healthCheckInterval (this w)) as [t|] eqn:Hf.
  - destruct (decide (t = i)) as [->|Hne].
    + apply list_lookup_insert_Some in Hi. destruct Hi as [(_ & ? & _)|[? _]];
        congruence.
    + rewrite list_lookup_insert_ne in Hi by exact Hne.
      apply Ht in Hi. congruence.
  - apply Ht in Hi. congruence.
Qed.

Lemma all_false_no_live (ivs : list bool) t :
  Forall (fun b => b = false) ivs -> ivs !! t = Some true -> False.
Proof.
  intros Hall Ht. rewrite Forall_lookup in Hall.
  specialize (Hall t true Ht). discriminate.
Qed.

Lemma stopProxy_intervals w :
  intervals (stopProxy w) = cleared w
  /\ healthCheckInterval (this (stopProxy w)) = None.
Proof.
  unfold stopProxy, cleared.
  destruct (healthCheckInterval (this w)) eqn:Hf; cbn;
    destruct (proxyProcess (this w)); cbn; rewrite ?Hf; auto.
Qed.

Lemma stopProxy_tracked w : timers_tracked w -> timers_tracked (stopProxy w).
Proof.
  intros Ht t Hlive. destruct (stopProxy_intervals w) as [Hi _].
  rewrite Hi in Hlive.
  destruct (all_false_no_live _ _ (cleared_all_false w Ht) Hlive).
Qed.

Lemma startProxy_tracked port w :
  timers_tracked w -> timers_tracked (startProxy port w).
Proof.
  intros Ht t Hlive. unfold startProxy, setupHealthCheck in *. cbn in *.
  fold (cleared w) in *.
  destruct (decide (t < length (cleared w))%nat) as [Hlt|Hge].
  - rewrite lookup_app_l in Hlive by exact Hlt.
    destruct (all_false_no_live _ _ (cleared_all_false w Ht) Hlive).
  - apply lookup_lt_Some in Hlive as Hlen. rewrite length_app in Hlen.
    cbn in Hlen. f_equal. lia.
Qed.

Lemma resume_tracked t a w w' :
  timers_tracked w -> resume t a w = Some w' -> timers_tracked w'.
Proof.
  intros Hw Hr.
  destruct t, a; cbn in Hr; try discriminate; injection Hr as <-;
    repeat match goal with
           | |- context [if ?b then _ else _] => destruct b
           end;
    auto using startProxy_tracked, stopProxy_tracked.
  unfold restartProxy. apply (stopProxy_tracked w Hw).
Qed.

Lemma step_tracked w e w' :
  timers_tracked w -> step w e = Some w' -> timers_tracked w'.
Proof.
  intros Hw Hs. destruct e as [port| | |pid|tid|i a]; cbn in Hs.
  - injection Hs as <-. now apply startProxy_tracked.
  - injection Hs as <-. unfold ensureProxyAvailable.
    now destruct (port_unset (this w)).
  - injection Hs as <-. now apply stopProxy_tracked.
  - assert (Hc : timers_tracked (on_close pid w)).
    { unfold on_close, ensureProxyAvailable, port_unset. cbn.
      now destruct (isStopped (this w)). }
    destruct (children w !! pid) as [[]|]; try discriminate;
      now injection Hs as <-.
  - destruct (intervals w !! tid) as [[]|]; try discriminate.
    injection Hs as <-. unfold on_tick. now destruct (port_unset (this w)).
  - destruct (pending w !! i); [|discriminate].
    eapply resume_tracked; [|exact Hs]. exact Hw.
Qed.

Lemma reachable_tracked w : reachable w -> timers_tracked w.
Proof.
  induction 1 as [|w e w' _ IH Hs].
  - intros t Ht. discriminate Ht.
  - eapply step_tracked; eauto.
Qed.

(** The methods that end in a call of [startProxy]. *)
Definition restart_in_flight (t : task) : bool :=
  match t with
  | RestartDelay | RestartScan | EnsureProbe | EnsureScan => true
  | StartSettle | StartProbe | TickProbe => false
  end.

(** The supervisor after a deliberate stop, with no restart on its way. *)
Definition stopped (w : world) : Prop :=
  proxyPort (this w) = None
  /\ proxyProcess (this w) = None
  /\ healthCheckInterval (this w) = None
  /\ isStopped (this w) = true
  /\ Forall (fun b => b = false) (intervals w)
  /\ Forall (fun t => restart_in_flight t = false) (pending w).

Lemma stopped_stopProxy w : stopped w -> stopProxy w = w.
Proof.
  intros (Hport & Hproc & Htimer & _). unfold stopProxy.
  rewrite Htimer, Hproc. reflexivity.
Qed.

Lemma stopped_step w e w' :
  stopped w -> internal e = true -> step w e = Some w' ->
  stopped w' /\ length (children w') = length (children w).
Proof.
  intros Hst Hint Hs.
  pose proof Hst as (Hport & Hproc & Htimer & Hflag & Hivs & Hpend).
  destruct e as [port| | |pid|tid|i a]; try discriminate Hint; cbn in Hs.
  - (* 'close' *)
    assert (Hc : on_close pid w
                 = {| this := this w; children := <[pid := Exited]> (children w);
                      intervals := intervals w; pending := pending w |}).
    { unfold on_close. cbn. rewrite Hflag. destruct w as [[] ? ? ?].
      cbn in *. now subst. }
    destruct (children w !! pid) as [[]|]; try discriminate;
      injection Hs as <-; rewrite Hc; cbn;
      (split; [repeat split; assumption|apply length_insert]).
  - (* no interval is live *)
    destruct (intervals w !! tid) as [[]|] eqn:Ht; try discriminate.
    destruct (all_false_no_live _ _ Hivs Ht).
  - (* an await settles *)
    destruct (pending w !! i) as [t|] eqn:Hi; [|discriminate].
    remember {| this := this w; children := children w;
                intervals := intervals w;
                pending := delete i (pending w) |} as w0 eqn:Hw0.
    assert (Hst0 : stopped w0).
    { subst w0. repeat split; try assumption. cbn.
      rewrite Forall_lookup in Hpend |- *. intros j t' Hj.
      apply (Hpend (if decide (j < i)%nat then j else S j)).
      destruct (decide (j < i)%nat) as [Hlt|Hge].
      - now rewrite list_lookup_delete_lt in Hj.
      - rewrite list_lookup_delete_ge in Hj by lia. exact Hj. }
    assert (Hlen0 : length (children w0) = length (children w))
      by now subst w0.
    assert (Ht : restart_in_flight t = false).
    { rewrite Forall_lookup in Hpend. exact (Hpend i t Hi). }
    clear Hw0.
    pose proof Hst0 as (Hport0 & _ & _ & Hflag0 & _).
    assert (Hunset : port_unset (this w0) = true).
    { unfold port_unset. now rewrite Hport0. }
    destruct t, a; cbn in Hs; try discriminate; try discriminate Ht;
      injection Hs as <-.
    + rewrite Hunset, (stopped_stopProxy w0 Hst0). auto.
    + destruct (outcome_ok o); rewrite ?(stopped_stopProxy w0 Hst0); auto.
    + rewrite Hflag0, andb_false_r. auto.
Qed.

Lemma stopped_run es : forall w w',
  stopped w -> forallb internal es = true -> run w es = Some w' ->
  stopped w' /\ length (children w') = length (children w).
Proof.
  induction es as [|e es IH]; intros w w' Hst Hint Hrun; cbn in *.
  - injection Hrun as <-. auto.
  - apply andb_true_iff in Hint as [He Hes].
    destruct (step w e) as [w1|] eqn:Hs; [|discriminate].
    destruct (stopped_step w e w1 Hst He Hs) as [Hst1 Hlen1].
    destruct (IH w1 w' Hst1 Hes Hrun) as [Hst' Hlen']. split; [assumption|].
    congruence.
Qed.

(** [stopProxy] with a handle attached clears the handle, the port and
    the interval and raises [isStopped]; [isProxyAvailable] is false from
    then on, without a network call. *)
Lemma stopProxy_clears w :
  is_Some (proxyProcess (this w)) -> timers_tracked w ->
  this (stopProxy w) = {| proxyPort := None; proxyProcess := None;
                          healthCheckInterval := None; isStopped := true |}
  /\ Forall (fun b => b = false) (intervals (stopProxy w))
  /\ children (stopProxy w) = kill (default 0%nat (proxyProcess (this w)))
                                   (children w)
  /\ pending (stopProxy w) = pending w
  /\ forall fetch,
       isProxyAvailable (this (stopProxy w)) fetch
         = {| available := false; requests := []; elapsed_ms := 0 |}.
Proof.
  intros [p Hp] Ht.
  assert (Hthis : this (stopProxy w)
                  = {| proxyPort := None; proxyProcess := None;
                       healthCheckInterval := None; isStopped := true |}).
  { unfold stopProxy.
    destruct (healthCheckInterval (this w)) eqn:Hf; cbn; rewrite Hp; cbn;
      rewrite ?Hf; reflexivity. }
  split; [exact Hthis|]. split; [|split; [|split]].
  - destruct (stopProxy_intervals w) as [-> _]. now apply cleared_all_false.
  - unfold stopProxy.
    destruct (healthCheckInterval (this w)); cbn; rewrite Hp; reflexivity.
  - unfold stopProxy.
    destruct (healthCheckInterval (this w)); cbn; rewrite Hp; reflexivity.
  - intros fetch. rewrite Hthis. reflexivity.
Qed.

(** When no method that ends in [startProxy] is suspended at the moment
    of the stop, no child is ever spawned again by the events that are not
    calls of the host: neither a 'close' nor an interval nor a settled
    await starts the proxy. *)
Lemma stopProxy_final_when_quiescent w es w' :
  reachable w -> is_Some (proxyProcess (this w)) ->
  Forall (fun t => restart_in_flight t = false) (pending w) ->
  forallb internal es = true -> run (stopProxy w) es = Some w' ->
  length (children w') = length (children w)
  /\ stopped w'.
Proof.
  intros Hreach Hproc Hpend Hint Hrun.
  destruct (stopProxy_clears w Hproc (reachable_tracked w Hreach))
    as (Hthis & Hivs & Hch & Hp & _).
  assert (Hst : stopped (stopProxy w)).
  { unfold stopped. rewrite Hthis, Hp. cbn. auto 10. }
  destruct (stopped_run es _ _ Hst Hint Hrun) as [Hst' Hlen].
  split; [|exact Hst']. rewrite Hlen, Hch. unfold kill.
  destruct (children w !! _) as [[]|]; rewrite ?length_insert; reflexivity.
Qed.

(** The proxy crashed while a health probe was in flight: the 'close'
    handler and the failed probe each began a restart, and the first of
    the two has already spawned the next child. *)
Definition crashed_and_restarted : list event :=
  started ++
  [Tick 0; Close 0; Settle 0 (Fetched (NetworkError 1));
   Settle 0 (Scanned [])].

Definition w_restarted : world :=
  {| this := {| proxyPort := Some 7001; proxyProcess := Some 1%nat;
                healthCheckInterval := Some 1%nat; isStopped := false |};
     children := [Exited; Running]; intervals := [false; true];
     pending := [RestartDelay; StartSettle] |}.

(** C5 (the code at the failing input). In the reachable state
    [w_restarted] a handle is attached and [restartProxy] is still waiting
    for its delay.  [stopProxy()] clears the handle, the port and the
    interval, and [isProxyAvailable] is false; yet the events that follow,
    none of them a call of the host, spawn a third child and lower
    [isStopped] again. *)
Lemma restart_after_stopProxy :
  run initial_world crashed_and_restarted = Some w_restarted
  /\ proxyProcess (this w_restarted) = Some 1%nat
  /\ this (stopProxy w_restarted)
       = {| proxyPort := None; proxyProcess := None;
            healthCheckInterval := None; isStopped := true |}
  /\ forallb internal [Settle 0 TimerFired; Settle 1 (Scanned [7001])] = true
  /\ run (stopProxy w_restarted)
         [Settle 0 TimerFired; Settle 1 (Scanned [7001])]
       = Some {| this := {| proxyPort := Some 7002;
                            proxyProcess := Some 2%nat;
                            healthCheckInterval := Some 2%nat;
                            isStopped := false |};
                 children := [Exited; Killed; Running];
                 intervals := [false; false; true];
                 pending := [StartSettle; StartSettle] |}.
Proof. repeat split; vm_compute; reflexivity. Qed.

End StopProxy.

(* --------------------------------------------------------------------- *)
(** ** Date.parse reads back what toISOString wrote                        *)
(* --------------------------------------------------------------------- *)

Section TimeStamps.
Import JSON Clock.
#[local] Arguments append !_ _ / : simpl nomatch.

Lemma digit_value_digit z : 0 <= z <= 9 -> digit_value (digit z) = Some z.
Proof.
  intros H.
  assert (Hz : z = 0 \/ z = 1 \/ z = 2 \/ z = 3 \/ z = 4 \/ z = 5 \/ z = 6
               \/ z = 7 \/ z = 8 \/ z = 9) by lia.
  repeat destruct Hz as [->|Hz]; try subst z; reflexivity.
Qed.

Lemma digit_not_sign z :
  0 <= z <= 9 -> is_char (digit z) 43 = false /\ is_char (digit z) 45 = false.
Proof.
  intros H.
  assert (Hz : z = 0 \/ z = 1 \/ z = 2 \/ z = 3 \/ z = 4 \/ z = 5 \/ z = 6
               \/ z = 7 \/ z = 8 \/ z = 9) by lia.
  repeat destruct Hz as [->|Hz]; try subst z; split; reflexivity.
Qed.

Lemma read_fixed_fixed width : forall acc z rest,
  read_fixed width acc (fixed width z +:+ rest)
    = Some (acc * 10 ^ Z.of_nat width + z mod 10 ^ Z.of_nat width, rest).
Proof.
  induction width as [|w IH]; intros acc z rest.
  - cbn. rewrite Z.mod_1_r. do 2 f_equal. lia.
  - cbn [fixed read_fixed append].
    assert (Hpow : 0 < 10 ^ Z.of_nat w) by (apply Z.pow_pos_nonneg; lia).
    rewrite digit_value_digit
      by (pose proof (Z.mod_pos_bound (z / 10 ^ Z.of_nat w) 10); lia).
    rewrite IH. do 2 f_equal.
    rewrite Nat2Z.inj_succ, Z.pow_succ_r by lia.
    rewrite (Z.mul_comm 10 (10 ^ Z.of_nat w)).
    rewrite (Z.rem_mul_r z (10 ^ Z.of_nat w) 10) by lia.
    lia.
Qed.

Lemma read_fixed_in_range width z rest :
  0 <= z < 10 ^ Z.of_nat width ->
  read_fixed width 0 (fixed width z +:+ rest) = Some (z, rest).
Proof.
  intros H. rewrite read_fixed_fixed, Z.mod_small by exact H.
  do 2 f_equal.
Qed.

Lemma read_year_iso_year y rest :
  -271821 <= y <= 275760 -> read_year (iso_year y +:+ rest) = Some (y, rest).
Proof.
  intros Hy. unfold iso_year.
  destruct ((0 <=? y) && (y <=? 9999)) eqn:Hsmall.
  - apply andb_true_iff in Hsmall as [H1 H2]. apply Z.leb_le in H1, H2.
    pose proof (read_fixed_in_range 4 y rest ltac:(cbn; lia)) as Hread.
    cbn [fixed append] in *. unfold read_year.
    destruct (digit_not_sign ((y / 10 ^ Z.of_nat 3) mod 10)) as [-> ->];
      [pose proof (Z.mod_pos_bound (y / 10 ^ Z.of_nat 3) 10); lia|].
    exact Hread.
  - destruct (y <? 0) eqn:Hneg.
    + apply Z.ltb_lt in Hneg. cbn [append]. unfold read_year.
      change (is_char "-" 43) with false. change (is_char "-" 45) with true.
      cbv iota.
      rewrite (read_fixed_in_range 6 (Z.abs y) rest) by (cbn; lia).
      replace (Z.abs y =? 0) with false by (symmetry; apply Z.eqb_neq; lia).
      do 2 f_equal. lia.
    + apply Z.ltb_ge in Hneg. cbn [append]. unfold read_year.
      change (is_char "+" 43) with true. cbv iota.
      rewrite (read_fixed_in_range 6 (Z.abs y) rest) by (cbn; lia).
      do 2 f_equal. lia.
Qed.

Lemma days_in_month_le y m : days_in_month y m <= 31.
Proof.
  unfold days_in_month.
  repeat match goal with |- context [if ?b then _ else _] => destruct b end;
    lia.
Qed.

(** A date that exists is printed by [toISOString] as a text that
    [Date.parse] accepts, with the fields it was printed from. *)
Lemma parse_toISOString d :
  valid d ->
  parse (toISOString d)
    = Some {| year := getUTCFullYear d; month := getUTCMonth d + 1;
              day := getUTCDate d; hours := getUTCHours d;
              minutes := getUTCMinutes d; seconds := getUTCSeconds d;
              milliseconds := getUTCMilliseconds d |}.
Proof.
  intros (Hy & Hm & Hd & Hh & Hmi & Hs & Hms).
  pose proof (days_in_month_le (getUTCFullYear d) (getUTCMonth d + 1)) as Hdm.
  unfold parse, toISOString.
  rewrite read_year_iso_year by exact Hy. cbn [mbind option_bind append expect].
  change (is_char "-" 45) with true. cbv iota. cbn [mbind option_bind].
  rewrite read_fixed_in_range by (cbn; lia).
  cbn [mbind option_bind append expect].
  change (is_char "-" 45) with true. cbv iota. cbn [mbind option_bind].
  rewrite read_fixed_in_range by (cbn; lia).
  cbn [mbind option_bind append expect].
  change (is_char "T" 84) with true. cbv iota. cbn [mbind option_bind].
  rewrite read_fixed_in_range by (cbn; lia).
  cbn [mbind option_bind append expect].
  change (is_char ":" 58) with true. cbv iota. cbn [mbind option_bind].
  rewrite read_fixed_in_range by (cbn; lia).
  cbn [mbind option_bind append expect].
  change (is_char ":" 58) with true. cbv iota. cbn [mbind option_bind].
  rewrite read_fixed_in_range by (cbn; lia).
  cbn [mbind option_bind append expect].
  change (is_char "." 46) with true. cbv iota. cbn [mbind option_bind].
  rewrite (read_fixed_in_range 3 (getUTCMilliseconds d) "Z") by (cbn; lia).
  cbn [mbind option_bind append expect].
  change (is_char "Z" 90) with true. cbv iota. cbn [mbind option_bind].
  change (String.eqb "" "") with true.
  repeat match goal with
         | |- context [?a <=? ?b] =>
             replace (a <=? b) with true by (symmetry; apply Z.leb_le; lia)
         end.
  reflexivity.
Qed.

End TimeStamps.

(* --------------------------------------------------------------------- *)
(** ** logRequest: the exchange log                                        *)
(* --------------------------------------------------------------------- *)

Section ExchangeLog.
Import JS Runtime OrchestratorAdapter.
#[local] Arguments append !_ _ / : simpl nomatch.

(** The directory and the file [logRequest] computes in a world. *)
Definition logDir_of (w : World) : string :=
  match snd (log_directory w) with
  | Return d => d
  | Throw _ => ""
  end.

Definition logFile_of (w : World) : string :=
  Fs.path_join [logDir_of w; log_file_name (clock w)].

(** The file system with a directory at [path], made when nothing was
    there. *)
Definition made (path : string) (f : Fs.fs) : Fs.fs :=
  if Fs.existsSync path f then f else Fs.with_entry path Fs.Dir f.

(** The file system once the directory was looked for and, when it was
    missing, created, with the directories on the way to it. *)
Definition with_directory (dir : string) (f : Fs.fs) : Fs.fs :=
  if Fs.existsSync dir f then f
  else made dir (fold_left (fun f path => made path f) (Fs.ancestors dir) f).

(** The file system once [text] was added at the end of the file. *)
Definition with_appended (path text : string) (f : Fs.fs) : Fs.fs :=
  Fs.with_entry path (Fs.File (Fs.content_of path f +:+ text)) f.

Definition line_feed : string := String JSON.newline "".

Lemma log_directory_eq w : log_directory w = (w, Return (logDir_of w)).
Proof. reflexivity. Qed.

Lemma with_files_same w : with_files (files w) w = w.
Proof. now destruct w. Qed.

Lemma mkdir_step_Return leaf path f f' :
  Fs.mkdir_step leaf path f = (f', Return tt) -> f' = made path f.
Proof.
  unfold Fs.mkdir_step, made, Fs.existsSync.
  destruct (Fs.entries f !! path) as [[|content]|] eqn:Hpath.
  - intros [= <-]. rewrite bool_decide_eq_true_2 by eauto. reflexivity.
  - discriminate.
  - destruct (bool_decide (path ∈ Fs.denied f)); [discriminate|].
    intros [= <-]. rewrite bool_decide_eq_false_2; [reflexivity|].
    now intros [n Hn].
Qed.

Lemma mkdir_way_Return paths : forall f f',
  Fs.mkdir_way paths f = (f', Return tt) ->
  f' = fold_left (fun f path => made path f) paths f.
Proof.
  induction paths as [|path paths IH]; intros f f'; cbn [Fs.mkdir_way fold_left].
  - now intros [= <-].
  - unfold mbind, ST_bind.
    destruct (Fs.mkdir_step false path f) as [f1 [[]|e]] eqn:Hstep;
      [|discriminate].
    apply mkdir_step_Return in Hstep. subst f1. apply IH.
Qed.

Lemma mkdirSync_Return dir f f' :
  Fs.existsSync dir f = false ->
  Fs.mkdirSync dir f = (f', Return tt) ->
  f' = with_directory dir f.
Proof.
  intros Hex. unfold Fs.mkdirSync, with_directory, mbind, ST_bind.
  rewrite Hex.
  destruct (Fs.mkdir_way (Fs.ancestors dir) f) as [f1 [[]|e]] eqn:Hway;
    [|discriminate].
  apply mkdir_way_Return in Hway. subst f1. apply mkdir_step_Return.
Qed.

Lemma appendFileSync_Return path text f f' :
  Fs.appendFileSync path text f = (f', Return tt) ->
  f' = with_appended path text f.
Proof.
  unfold Fs.appendFileSync, with_appended, Fs.content_of.
  destruct (bool_decide (path ∈ Fs.denied f)); [discriminate|].
  destruct (match Fs.dirname path with
            | Some parent => Fs.entries f !! parent
            | None => Some Fs.Dir
            end) as [[|?]|]; try discriminate.
  destruct (Fs.entries f !! path) as [[|content]|]; try discriminate;
    destruct (Fs.short f !! path) as [n|];
    try destruct (n <? String.length text)%nat; try discriminate;
    now intros [= <-].
Qed.

(** What a call of [logRequest] that returns has done. *)
Lemma logRequest_Return p data w w' :
  logRequest p data w = (w', Return tt) ->
  exists js,
    literal_to_json (depth_bound (heap w)) (heap w) data = Return js
    /\ w' = with_files
              (with_appended (logFile_of w)
                 (JSON.print (entry_json (Clock.toISOString (clock w)) p js)
                    +:+ line_feed)
                 (with_directory (logDir_of w) (files w))) w.
Proof.
  unfold logRequest. unfold mbind at 1, ST_bind at 1.
  rewrite log_directory_eq.
  unfold mbind at 1, ST_bind at 1, on_files at 1. cbn [files].
  rewrite with_files_same.
  assert (Hdir : exists f1,
            ((if negb (Fs.existsSync (logDir_of w) (files w))
              then on_files (Fs.mkdirSync (logDir_of w)) else mret tt) w
               = (with_files f1 w, Return tt)
             /\ f1 = with_directory (logDir_of w) (files w))
            \/ exists e,
                 (if negb (Fs.existsSync (logDir_of w) (files w))
                  then on_files (Fs.mkdirSync (logDir_of w)) else mret tt) w
                   = (with_files f1 w, Throw e)).
  { destruct (Fs.existsSync (logDir_of w) (files w)) eqn:Hex; cbn [negb].
    - exists (files w). left. rewrite with_files_same. split; [reflexivity|].
      unfold with_directory. now rewrite Hex.
    - unfold on_files.
      destruct (Fs.mkdirSync (logDir_of w) (files w)) as [f1 [[]|e]] eqn:Hmk.
      + exists f1. left. split; [reflexivity|].
        eapply mkdirSync_Return; eauto.
      + exists f1. right. eauto. }
  destruct Hdir as (f1 & [[Hrun Hf1]|[e Hrun]]);
    unfold mbind at 1, ST_bind at 1; rewrite Hrun; [|discriminate].
  unfold mbind at 1, ST_bind at 1, new_Date at 1. cbn [clock with_files].
  unfold mbind at 1, ST_bind at 1, stringify_entry at 1.
  cbn [heap with_files].
  destruct (literal_to_json (depth_bound (heap w)) (heap w) data)
    as [js|e]; [|discriminate].
  unfold on_files. cbn [files with_files].
  destruct (Fs.appendFileSync _ _ f1) as [f2 [[]|e]] eqn:Happ; [|discriminate].
  intros [= <-]. exists js. split; [reflexivity|].
  apply appendFileSync_Return in Happ. subst f1 f2. reflexivity.
Qed.

Lemma string_of_Z_not_empty n s : string_of_Z n +:+ s <> "".
Proof.
  destruct (string_of_Z_head n) as (c & s' & -> & _). discriminate.
Qed.

Lemma path_join_differs dir name :
  name <> "" -> Fs.path_join [dir; name] <> dir.
Proof.
  intros Hname. unfold Fs.path_join.
  rewrite !filter_cons, filter_nil.
  destruct (decide (name <> "")) as [_|Hn]; [|contradiction].
  destruct (decide (dir <> "")) as [Hd|Hd].
  - cbn [JSON.join]. intros Heq.
    apply (f_equal String.length) in Heq.
    rewrite !length_append in Heq. cbn [String.length] in Heq. lia.
  - cbn [JSON.join]. apply dec_stable in Hd. now subst dir.
Qed.

Lemma logFile_not_logDir w : logFile_of w <> logDir_of w.
Proof. apply path_join_differs, string_of_Z_not_empty. Qed.

(** Making a directory changes no file, and nothing that was there. *)
Lemma lookup_made path p f n :
  Fs.entries f !! path = Some n -> Fs.entries (made p f) !! path = Some n.
Proof.
  intros Hpath. unfold made, Fs.existsSync.
  destruct (decide (is_Some (Fs.entries f !! p))) as [Hp|Hp].
  - now rewrite bool_decide_eq_true_2.
  - rewrite bool_decide_eq_false_2 by exact Hp. cbn [Fs.entries Fs.with_entry].
    rewrite lookup_insert_ne; [exact Hpath|]. intros <-. destruct Hp. eauto.
Qed.

Lemma made_files path p f content :
  Fs.entries (made p f) !! path = Some (Fs.File content)
  <-> Fs.entries f !! path = Some (Fs.File content).
Proof.
  split; [|apply lookup_made]. unfold made.
  destruct (Fs.existsSync p f); [auto|]. cbn [Fs.entries Fs.with_entry].
  destruct (decide (path = p)) as [->|Hne].
  - rewrite lookup_insert_eq. discriminate.
  - now rewrite lookup_insert_ne.
Qed.

Lemma way_files paths : forall path f content,
  Fs.entries (fold_left (fun f p => made p f) paths f) !! path
    = Some (Fs.File content)
  <-> Fs.entries f !! path = Some (Fs.File content).
Proof.
  induction paths as [|p paths IH]; intros path f content; cbn [fold_left].
  - reflexivity.
  - rewrite IH. apply made_files.
Qed.

Lemma with_directory_files path dir f content :
  Fs.entries (with_directory dir f) !! path = Some (Fs.File content)
  <-> Fs.entries f !! path = Some (Fs.File content).
Proof.
  unfold with_directory. destruct (Fs.existsSync dir f); [reflexivity|].
  rewrite made_files. apply way_files.
Qed.

Lemma content_of_files path f f' :
  (forall content,
     Fs.entries f' !! path = Some (Fs.File content)
     <-> Fs.entries f !! path = Some (Fs.File content)) ->
  Fs.content_of path f' = Fs.content_of path f.
Proof.
  intros Hfiles. unfold Fs.content_of.
  destruct (Fs.entries f' !! path) as [[|content']|],
    (Fs.entries f !! path) as [[|content]|]; try reflexivity;
    try (pose proof (proj2 (Hfiles content) eq_refl) as H; discriminate H);
    pose proof (proj1 (Hfiles content') eq_refl) as H; try discriminate H.
  now injection H as ->.
Qed.

Lemma content_of_with_directory_any path dir f :
  Fs.content_of path (with_directory dir f) = Fs.content_of path f.
Proof. apply content_of_files. intros. apply with_directory_files. Qed.

Lemma content_of_with_directory path dir f :
  path <> dir ->
  Fs.content_of path (with_directory dir f) = Fs.content_of path f.
Proof. intros _. apply content_of_with_directory_any. Qed.



Lemma content_of_with_appended path text f :
  Fs.content_of path (with_appended path text f)
    = Fs.content_of path f +:+ text.
Proof.
  unfold with_appended, Fs.content_of at 1. cbn [Fs.entries Fs.with_entry].
  now rewrite lookup_insert_eq.
Qed.

(** *** Worlds to try things in *)

Definition noon : Clock.Date :=
  {| Clock.getFullYear := 2025; Clock.getMonth := 4; Clock.getDate := 7;
     Clock.getUTCFullYear := 2025; Clock.getUTCMonth := 4;
     Clock.getUTCDate := 7; Clock.getUTCHours := 10;
     Clock.getUTCMinutes := 5; Clock.getUTCSeconds := 9;
     Clock.getUTCMilliseconds := 42 |}.

(** The array [[{ role: "user", content: "hi" }]] at 0. *)
Definition hi_heap : gmap nat cell :=
  <[0%nat := Arr [VRef 1]]>
    (<[1%nat := Obj [("role", VStr "user"); ("content", VStr "hi")]]> ∅).

(** A home directory in which everything may be written. *)
Definition w_home : World :=
  {| heap := hi_heap;
     files := {| Fs.entries := ∅; Fs.denied := ∅; Fs.short := ∅ |};
     env := <["HOME" := "/home/u"]> ∅;
     clock := noon |}.

(** The log directory exists and the file of the day cannot be written. *)
Definition w_readonly : World :=
  {| heap := hi_heap;
     files := {| Fs.entries := <["/home/u/.orchestrator/logs" := Fs.Dir]> ∅;
                 Fs.denied := {["/home/u/.orchestrator/logs/2025-05-07.log"]};
                 Fs.short := ∅ |};
     env := <["HOME" := "/home/u"]> ∅;
     clock := noon |}.

Definition hi_data : list (string * value) :=
  [("messages", VRef 0); ("meta", VNull)].





Lemma pad_is_fixed n :
  0 <= n <= 99 -> Clock.padStart 2 "0" (string_of_Z n) = Clock.fixed 2 n.
Proof.
  intros Hn. rewrite <- (Z2Nat.id n) by lia.
  assert (Hk : (Z.to_nat n < 100)%nat) by lia.
  generalize dependent (Z.to_nat n). clear. intros k Hk.
  do 100 (destruct k as [|k]; [vm_compute; reflexivity|]). lia.
Qed.

(** The year, the month and the day that a file name of the form
    YYYY-MM-DD.log spells. *)
Definition read_log_file_name (name : string) : option (Z * Z * Z) :=
  match JSON.read_number name with
  | Some (year, String "-" rest) =>
      match Clock.read_fixed 2 0 rest with
      | Some (month, String "-" rest') =>
          match Clock.read_fixed 2 0 rest' with
          | Some (day, ".log") => Some (year, month, day)
          | _ => None
          end
      | _ => None
      end
  | _ => None
  end.

Lemma read_log_file_name_eq d :
  0 <= Clock.getMonth d <= 11 -> 1 <= Clock.getDate d <= 31 ->
  read_log_file_name (log_file_name d)
    = Some (Clock.getFullYear d, Clock.getMonth d + 1, Clock.getDate d).
Proof.
  intros Hmonth Hdate. unfold log_file_name, read_log_file_name.
  rewrite !pad_is_fixed by lia.
  rewrite read_number_print by reflexivity.
  change ("-" +:+ ?x) with (String "-" x). cbv beta iota.
  rewrite read_fixed_fixed.
  change ("-" +:+ ?x) with (String "-" x). cbv beta iota.
  rewrite read_fixed_fixed.
  change (10 ^ Z.of_nat 2) with 100.
  rewrite !Z.mod_small by lia. reflexivity.
Qed.

(** *** What a record says

    The data of a record as the specification has it read back: the
    tree that JSON makes of a value of the store.  A property that is
    undefined is left out, an element that is undefined reads null. *)
Inductive shows (h : gmap nat cell) : value -> option JSON.json -> Prop :=
| shows_undefined : shows h VUndefined None
| shows_null : shows h VNull (Some JSON.JNull)
| shows_bool b : shows h (VBool b) (Some (JSON.JBool b))
| shows_num n : shows h (VNum n) (Some (JSON.JNum n))
| shows_str s : shows h (VStr s) (Some (JSON.JStr s))
| shows_array l elems js :
    h !! l = Some (Arr elems) ->
    shows_elements h elems js ->
    shows h (VRef l) (Some (JSON.JArr js))
| shows_object l props js :
    h !! l = Some (Obj props) ->
    shows_properties h props js ->
    shows h (VRef l) (Some (JSON.JObj js))
| shows_nothing l : h !! l = None -> shows h (VRef l) None
with shows_elements (h : gmap nat cell)
    : list value -> list JSON.json -> Prop :=
| shows_no_element : shows_elements h [] []
| shows_element e es oj js :
    shows h e oj ->
    shows_elements h es js ->
    shows_elements h (e :: es) (default JSON.JNull oj :: js)
with shows_properties (h : gmap nat cell)
    : list (string * value) -> list (string * JSON.json) -> Prop :=
| shows_no_property : shows_properties h [] []
| shows_property k e j ps js :
    shows h e (Some j) ->
    shows_properties h ps js ->
    shows_properties h ((k, e) :: ps) ((k, j) :: js)
| shows_left_out k e ps js :
    shows h e None ->
    shows_properties h ps js ->
    shows_properties h ((k, e) :: ps) js.

Lemma to_json_shows fuel : forall h v oj,
  to_json fuel h v = Return oj -> shows h v oj.
Proof.
  induction fuel as [|fuel IH]; intros h v oj.
  - destruct v; cbn; try discriminate; intros [= <-]; constructor.
  - destruct v as [| | b | n | s | l]; cbn [to_json];
      try (intros [= <-]; constructor).
    destruct (h !! l) as [[elems|props]|] eqn:Hl;
      [| |intros [= <-]; now constructor].
    + assert (Helems : forall es acc oj,
                (fix elements (es : list value) (acc : list JSON.json)
                   {struct es} : completion (option JSON.json) :=
                   match es with
                   | [] => Return (Some (JSON.JArr (rev acc)))
                   | e :: es' =>
                       match to_json fuel h e with
                       | Return oj => elements es' (default JSON.JNull oj :: acc)
                       | Throw x => Throw x
                       end
                   end) es acc = Return oj ->
                exists js, oj = Some (JSON.JArr (rev acc ++ js))
                           /\ shows_elements h es js).
      { clear oj. induction es as [|e es IHes]; intros acc oj.
        - intros [= <-]. exists []. rewrite app_nil_r.
          split; [reflexivity|constructor].
        - destruct (to_json fuel h e) as [oe|x] eqn:He; [|discriminate].
          intros Hrest. destruct (IHes _ _ Hrest) as (js & -> & Hjs).
          exists (default JSON.JNull oe :: js). cbn [rev].
          rewrite <- app_assoc. split; [reflexivity|].
          constructor; [now apply IH|exact Hjs]. }
      intros Hrun. destruct (Helems _ _ _ Hrun) as (js & -> & Hjs).
      econstructor; eauto.
    + assert (Hprops : forall ps acc oj,
                (fix properties (ps : list (string * value))
                   (acc : list (string * JSON.json)) {struct ps}
                   : completion (option JSON.json) :=
                   match ps with
                   | [] => Return (Some (JSON.JObj (rev acc)))
                   | (k, e) :: ps' =>
                       match to_json fuel h e with
                       | Return (Some j) => properties ps' ((k, j) :: acc)
                       | Return None => properties ps' acc
                       | Throw x => Throw x
                       end
                   end) ps acc = Return oj ->
                exists js, oj = Some (JSON.JObj (rev acc ++ js))
                           /\ shows_properties h ps js).
      { clear oj. induction ps as [|[k e] ps IHps]; intros acc oj.
        - intros [= <-]. exists []. rewrite app_nil_r.
          split; [reflexivity|constructor].
        - destruct (to_json fuel h e) as [[j|]|x] eqn:He; [| |discriminate];
            intros Hrest; destruct (IHps _ _ Hrest) as (js & -> & Hjs).
          + exists ((k, j) :: js). cbn [rev]. rewrite <- app_assoc.
            split; [reflexivity|]. constructor; [now apply IH|exact Hjs].
          + exists js. split; [reflexivity|].
            apply shows_left_out; [now apply IH|exact Hjs]. }
      intros Hrun. destruct (Hprops _ _ _ Hrun) as (js & -> & Hjs).
      econstructor; eauto.
Qed.

Lemma literal_to_json_shows fuel h props : forall js,
  literal_to_json fuel h props = Return js -> shows_properties h props js.
Proof.
  induction props as [|[k e] props IH]; intros js; cbn [literal_to_json].
  - intros [= <-]. constructor.
  - destruct (to_json fuel h e) as [oj|x] eqn:He; [|discriminate].
    destruct (literal_to_json fuel h props) as [js'|x]; [|discriminate].
    apply to_json_shows in He. intros [= <-].
    destruct oj as [j|]; [constructor|apply shows_left_out]; auto.
Qed.

(** The local day of a moment that exists. *)
Definition local_day (d : Clock.Date) : Prop :=
  0 <= Clock.getMonth d <= 11 /\ 1 <= Clock.getDate d <= 31.

(** The round trip of the specification, at one call: between the files
    of [w] and the files [f'], one line has been added to the file of the
    log directory whose name spells the local day of [w], and to no other
    file; [JSON.parse] of that line is [{ ts, phase, data }], where [ts]
    reads back as the moment of [w], [phase] is the phase by its name and
    [data] is what JSON shows of [data] in the store of [w]. *)
Definition recorded (p : phase) (data : list (string * value)) (w : World)
    (f' : Fs.fs) : Prop :=
  exists name line ts js,
    read_log_file_name name
      = Some (Clock.getFullYear (clock w), Clock.getMonth (clock w) + 1,
              Clock.getDate (clock w))
    /\ Fs.content_of (Fs.path_join [logDir_of w; name]) f'
         = Fs.content_of (Fs.path_join [logDir_of w; name]) (files w)
             +:+ line +:+ line_feed
    /\ (forall path,
          path <> Fs.path_join [logDir_of w; name] ->
          Fs.content_of path f' = Fs.content_of path (files w))
    /\ JSON.one_line line = true
    /\ JSON.parse line
         = Some (JSON.JObj
                   [("ts", JSON.JStr ts);
                    ("phase", JSON.JStr match p with
                                        | inbound => "inbound"
                                        | outbound => "outbound"
                                        end);
                    ("data", JSON.JObj js)])
    /\ Clock.parse ts
         = Some {| Clock.year := Clock.getUTCFullYear (clock w);
                   Clock.month := Clock.getUTCMonth (clock w) + 1;
                   Clock.day := Clock.getUTCDate (clock w);
                   Clock.hours := Clock.getUTCHours (clock w);
                   Clock.minutes := Clock.getUTCMinutes (clock w);
                   Clock.seconds := Clock.getUTCSeconds (clock w);
                   Clock.milliseconds := Clock.getUTCMilliseconds (clock w) |}
    /\ shows_properties (heap w) data js.

Lemma content_of_with_appended_other path path' text f :
  path <> path' ->
  Fs.content_of path (with_appended path' text f) = Fs.content_of path f.
Proof.
  intros Hne. unfold with_appended, Fs.content_of at 1.
  cbn [Fs.entries Fs.with_entry]. now rewrite lookup_insert_ne.
Qed.

(** A call of [logRequest] that returns has written the record. *)
Lemma logRequest_recorded p data w w' :
  Clock.valid (clock w) ->
  local_day (clock w) ->
  logRequest p data w = (w', Return tt) ->
  recorded p data w (files w').
Proof.
  intros Hvalid [Hmonth Hdate] Hrun.
  destruct (logRequest_Return p data w w' Hrun) as (js & Hjs & ->).
  exists (log_file_name (clock w)),
    (JSON.print (entry_json (Clock.toISOString (clock w)) p js)),
    (Clock.toISOString (clock w)), js.
  fold (logFile_of w). cbn [files with_files].
  split; [now apply read_log_file_name_eq|].
  split; [now rewrite content_of_with_appended, content_of_with_directory_any|].
  split.
  { intros path Hne.
    now rewrite content_of_with_appended_other, content_of_with_directory_any. }
  split; [apply one_line_print|].
  split; [rewrite parse_print; now destruct p|].
  split; [now apply parse_toISOString|].
  now apply literal_to_json_shows in Hjs.
Qed.

(** The sentence of the specification at one call: the call returns and
    has written the record. *)
Definition always_records (p : phase) (data : list (string * value))
    (w : World) : Prop :=
  exists w', logRequest p data w = (w', Return tt)
             /\ recorded p data w (files w').

(** An object that holds itself, [o.self = o], at 0. *)
Definition w_loop : World :=
  {| heap := <[0%nat := Obj [("self", VRef 0)]]> ∅;
     files := {| Fs.entries := ∅; Fs.denied := ∅; Fs.short := ∅ |};
     env := <["HOME" := "/home/u"]> ∅;
     clock := noon |}.

(** [JSON.stringify] throws on data that holds itself, and [logRequest]
    with it, before anything is written to the log file; and with a log
    file that cannot be written the call throws as well. *)
Lemma logRequest_throws_on_circular_data :
  (exists w' e,
     logRequest outbound [("chunk", VRef 0); ("meta", VNull)] w_loop
       = (w', Throw e)
     /\ Fs.content_of (logFile_of w_loop) (files w') = "")
  /\ ~ always_records outbound [("chunk", VRef 0); ("meta", VNull)] w_loop
  /\ ~ always_records inbound hi_data w_readonly.
Proof.
  split; [|split].
  - do 2 eexists. split; vm_compute; reflexivity.
  - intros (w' & Hrun & _). vm_compute in Hrun. discriminate.
  - intros (w' & Hrun & _). vm_compute in Hrun. discriminate.
Qed.

(** C9 (amended). A call [logRequest(phase, data)] that returns has added
    exactly one line to the file of the log directory that is named after
    the local day, and has changed the content of no other file.
    [JSON.parse] of that line is the object [{ ts, phase, data }]: [ts] is
    a time stamp that [Date.parse] reads back as the moment of the call,
    [phase] is "inbound" or "outbound" as the call was given it, and
    [data] is the data as JSON shows it. *)
Theorem logRequest_round_trip p data w w' :
  Clock.valid (clock w) ->
  local_day (clock w) ->
  logRequest p data w = (w', Return tt) ->
  exists name line ts js,
    read_log_file_name name
      = Some (Clock.getFullYear (clock w), Clock.getMonth (clock w) + 1,
              Clock.getDate (clock w))
    /\ Fs.content_of (Fs.path_join [logDir_of w; name]) (files w')
         = Fs.content_of (Fs.path_join [logDir_of w; name]) (files w)
             +:+ line +:+ line_feed
    /\ (forall path,
          path <> Fs.path_join [logDir_of w; name] ->
          Fs.content_of path (files w') = Fs.content_of path (files w))
    /\ JSON.one_line line = true
    /\ JSON.parse line
         = Some (JSON.JObj
                   [("ts", JSON.JStr ts);
                    ("phase", JSON.JStr match p with
                                        | inbound => "inbound"
                                        | outbound => "outbound"
                                        end);
                    ("data", JSON.JObj js)])
    /\ Clock.parse ts
         = Some {| Clock.year := Clock.getUTCFullYear (clock w);
                   Clock.month := Clock.getUTCMonth (clock w) + 1;
                   Clock.day := Clock.getUTCDate (clock w);
                   Clock.hours := Clock.getUTCHours (clock w);
                   Clock.minutes := Clock.getUTCMinutes (clock w);
                   Clock.seconds := Clock.getUTCSeconds (clock w);
                   Clock.milliseconds := Clock.getUTCMilliseconds (clock w) |}
    /\ shows_properties (heap w) data js.
Proof. exact (logRequest_recorded p data w w'). Qed.

Lemma noon_valid : Clock.valid noon.
Proof. unfold Clock.valid. repeat split; vm_compute; discriminate. Qed.

Lemma noon_local_day : local_day noon.
Proof. unfold local_day. cbn. lia. Qed.

(** The record of the first call in [w_home], as it is read back. *)
Definition hi_record : JSON.json :=
  JSON.JObj
    [("ts", JSON.JStr "2025-05-07T10:05:09.042Z");
     ("phase", JSON.JStr "inbound");
     ("data",
      JSON.JObj
        [("messages",
          JSON.JArr [JSON.JObj [("role", JSON.JStr "user");
                                ("content", JSON.JStr "hi")]]);
         ("meta", JSON.JNull)])].

Lemma logRequest_round_trip_witness :
  Fs.content_of "/home/u/.orchestrator/logs/2025-05-07.log"
    (files (fst (logRequest inbound hi_data w_home)))
    = JSON.print hi_record +:+ line_feed
  /\ JSON.parse (JSON.print hi_record) = Some hi_record
  /\ exists name line ts js,
       read_log_file_name name = Some (2025, 5, 7)
       /\ Fs.content_of (Fs.path_join [logDir_of w_home; name])
            (files (fst (logRequest inbound hi_data w_home)))
            = Fs.content_of (Fs.path_join [logDir_of w_home; name])
                (files w_home) +:+ line +:+ line_feed
       /\ (forall path,
             path <> Fs.path_join [logDir_of w_home; name] ->
             Fs.content_of path (files (fst (logRequest inbound hi_data w_home)))
               = Fs.content_of path (files w_home))
       /\ JSON.one_line line = true
       /\ JSON.parse line
            = Some (JSON.JObj [("ts", JSON.JStr ts);
                               ("phase", JSON.JStr "inbound");
                               ("data", JSON.JObj js)])
       /\ Clock.parse ts
            = Some {| Clock.year := 2025; Clock.month := 5; Clock.day := 7;
                      Clock.hours := 10; Clock.minutes := 5;
                      Clock.seconds := 9; Clock.milliseconds := 42 |}
       /\ shows_properties (heap w_home) hi_data js.
Proof.
  split; [vm_compute; reflexivity|]. split; [vm_compute; reflexivity|].
  apply (logRequest_round_trip inbound hi_data w_home
           (fst (logRequest inbound hi_data w_home)));
    [exact noon_valid|exact noon_local_day|vm_compute; reflexivity].
Defined.

End ExchangeLog.

(* --------------------------------------------------------------------- *)
(** ** processPrompt and processResponse of the adapter                    *)
(* --------------------------------------------------------------------- *)

Section Adapter.
Import JS Runtime OrchestratorAdapter.
#[local] Arguments append !_ _ / : simpl nomatch.

(** [messages[0]] and [v.k], read from a store. *)
Definition first_of (h : gmap nat cell) (messages : value) : option value :=
  match messages with
  | VRef l =>
      match h !! l with
      | Some (Arr (m0 :: _)) => Some m0
      | _ => None
      end
  | _ => None
  end.

Definition named (h : gmap nat cell) (v : value) (k : string)
    : completion value :=
  match v with
  | VUndefined => Throw "TypeError: Cannot read properties of undefined"
  | VNull => Throw "TypeError: Cannot read properties of null"
  | VBool _ | VNum _ | VStr _ => Return VUndefined
  | VRef l =>
      match h !! l with
      | Some (Obj props) => Return (get k props)
      | _ => Return VUndefined
      end
  end.

(** [v[0].content], undefined when there is no such thing. *)
Definition first_content (h : gmap nat cell) (v : value) : value :=
  match first_of h v with
  | Some m0 =>
      match named h m0 "content" with
      | Return c => c
      | Throw _ => VUndefined
      end
  | None => VUndefined
  end.

(** The content with the mark [processPrompt] puts in front. *)
Definition marked (h : gmap nat cell) (content : value) : value :=
  VStr ("[DEBUG] " +:+ to_string (depth_bound h) h content).

Lemma first_message_eq messages w :
  first_message messages w = (w, Return (first_element (heap w) messages)).
Proof. reflexivity. Qed.

(** Of an array, [first_element] is the first element. *)
Lemma first_element_array h l elems :
  h !! l = Some (Arr elems) -> first_element h (VRef l) = first_of h (VRef l).
Proof.
  intros Hl. unfold first_element, first_of. cbn [truthy]. rewrite Hl.
  now destruct elems.
Qed.

Lemma get_named_eq v k w : get_named v k w = (w, named (heap w) v k).
Proof.
  unfold get_named, named. destruct v; try reflexivity.
  destruct (heap w !! l) as [[elems|props]|]; reflexivity.
Qed.

Lemma logRequest_heap p data w w' r :
  logRequest p data w = (w', r) -> heap w' = heap w.
Proof.
  unfold logRequest. unfold mbind at 1, ST_bind at 1.
  rewrite log_directory_eq.
  unfold mbind at 1, ST_bind at 1, on_files at 1. cbn [files].
  rewrite with_files_same.
  unfold mbind at 1, ST_bind at 1.
  destruct ((if negb (Fs.existsSync (logDir_of w) (files w))
             then on_files (Fs.mkdirSync (logDir_of w)) else mret tt) w)
    as [w1 r1] eqn:Hdir.
  assert (Hw1 : heap w1 = heap w).
  { destruct (negb (Fs.existsSync (logDir_of w) (files w))).
    - unfold on_files in Hdir.
      destruct (Fs.mkdirSync (logDir_of w) (files w)) as [f1 r1'].
      now injection Hdir as <- _.
    - now injection Hdir as <- _. }
  destruct r1 as [[]|e]; [|now intros [= <- _]].
  unfold mbind at 1, ST_bind at 1, new_Date at 1.
  unfold mbind at 1, ST_bind at 1, stringify_entry at 1.
  destruct (literal_to_json _ _ data) as [js|e]; [|now intros [= <- _]].
  unfold on_files.
  destruct (Fs.appendFileSync _ _ (files w1)) as [f2 r2].
  now intros [= <- _].
Qed.

Lemma processResponse_Return chunk meta w w' v :
  processResponse chunk meta w = (w', Return v) ->
  v = chunk
  /\ logRequest outbound [("chunk", chunk); ("meta", meta)] w
       = (w', Return tt).
Proof.
  unfold processResponse, mbind, ST_bind.
  destruct (logRequest outbound _ w) as [w1 [[]|e]] eqn:Hlog; [|discriminate].
  now intros [= <- <-].
Qed.

Lemma set_named_files v k x w w' r :
  set_named v k x w = (w', r) -> files w' = files w /\ r = Return tt.
Proof.
  unfold set_named. destruct v; try now intros [= <- <-].
  destruct (heap w !! l) as [[?|?]|]; now intros [= <- <-].
Qed.

(** What a call of [processPrompt] that returns has done. *)
Lemma processPrompt_Return messages meta w w' v :
  processPrompt messages meta w = (w', Return v) ->
  v = messages
  /\ exists w1,
       logRequest inbound [("messages", messages); ("meta", meta)] w
         = (w1, Return tt)
       /\ match first_element (heap w) messages with
          | Some m0 =>
              exists content,
                named (heap w) m0 "content" = Return content
                /\ (if truthy content
                    then set_named m0 "content" (marked (heap w) content) w1
                           = (w', Return tt)
                    else w' = w1)
          | None => w' = w1
          end.
Proof.
  unfold processPrompt. unfold mbind at 1, ST_bind at 1.
  destruct (logRequest inbound _ w) as [w1 [[]|e]] eqn:Hlog; [|discriminate].
  pose proof (logRequest_heap _ _ _ _ _ Hlog) as Hheap.
  unfold mbind at 1, ST_bind at 1. rewrite first_message_eq, Hheap.
  destruct (first_element (heap w) messages) as [m0|].
  - unfold mbind at 1, ST_bind at 1. rewrite get_named_eq, Hheap.
    destruct (named (heap w) m0 "content") as [content|e]; [|discriminate].
    destruct (truthy content) eqn:Htruthy.
    + unfold mbind at 1, ST_bind at 1, to_String at 1. rewrite Hheap.
      unfold mbind at 1, ST_bind at 1. fold (marked (heap w) content).
      destruct (set_named m0 "content" _ w1) as [w2 [[]|e]] eqn:Hset;
        [|discriminate].
      intros [= <- <-]. split; [reflexivity|]. exists w1.
      split; [reflexivity|]. exists content. now rewrite Htruthy.
    + intros [= <- <-]. split; [reflexivity|]. exists w1.
      split; [reflexivity|]. exists content. now rewrite Htruthy.
  - intros [= <- <-]. split; [reflexivity|]. exists w1. auto.
Qed.

Lemma get_set_eq k v props : get k (set k v props) = v.
Proof.
  induction props as [|[k' v'] props IH]; cbn.
  - now rewrite String.eqb_refl.
  - destruct (String.eqb k k') eqn:Hk; cbn.
    + now rewrite String.eqb_refl.
    + now rewrite Hk.
Qed.


(** The store after the content of the object at [lo] was overwritten. *)
Definition remarked (h : gmap nat cell) (lo : nat)
    (props : list (string * value)) : gmap nat cell :=
  <[lo := Obj (set "content" (marked h (get "content" props)) props)]> h.

Lemma processPrompt_marks l lo rest props meta w w' v :
  heap w !! l = Some (Arr (VRef lo :: rest)) ->
  heap w !! lo = Some (Obj props) ->
  truthy (get "content" props) = true ->
  processPrompt (VRef l) meta w = (w', Return v) ->
  v = VRef l /\ heap w' = remarked (heap w) lo props.
Proof.
  intros Hl Hlo Htruthy Hrun.
  destruct (processPrompt_Return _ _ _ _ _ Hrun) as (-> & w1 & Hlog & Hfirst).
  split; [reflexivity|].
  pose proof (logRequest_heap _ _ _ _ _ Hlog) as Hheap.
  rewrite (first_element_array _ _ _ Hl) in Hfirst.
  unfold first_of in Hfirst. rewrite Hl in Hfirst.
  destruct Hfirst as (content & Hnamed & Hset).
  unfold named in Hnamed. rewrite Hlo in Hnamed. injection Hnamed as <-.
  rewrite Htruthy in Hset. unfold set_named in Hset.
  rewrite Hheap, Hlo in Hset. injection Hset as <-.
  reflexivity.
Qed.

(** The sentence of the specification about [processPrompt], at one call:
    what is returned is the argument, and no array or object of the store
    has changed. *)
Definition passes_through (messages meta : value) (w : World) : Prop :=
  forall w' v,
    processPrompt messages meta w = (w', Return v) ->
    v = messages /\ heap w' = heap w.

(** On [[{ role: "user", content: "hi" }]] the call returns the array it
    was given, whose first message now reads "[DEBUG] hi". *)
Lemma processPrompt_rewrites_content :
  (exists w',
     processPrompt (VRef 0) VNull w_home = (w', Return (VRef 0))
     /\ first_content (heap w_home) (VRef 0) = VStr "hi"
     /\ first_content (heap w') (VRef 0) = VStr "[DEBUG] hi")
  /\ ~ passes_through (VRef 0) VNull w_home.
Proof.
  assert (Hrun : processPrompt (VRef 0) VNull w_home
                 = (fst (processPrompt (VRef 0) VNull w_home),
                    Return (VRef 0)))
    by (vm_compute; reflexivity).
  split.
  - eexists. split; [exact Hrun|]. split; vm_compute; reflexivity.
  - intros Hpass. destruct (Hpass _ _ Hrun) as [_ Hheap].
    apply (f_equal (fun h => first_content h (VRef 0))) in Hheap.
    vm_compute in Hheap. discriminate.
Qed.

(** What is no array but has a [length] and a first element is treated
    like one: for [{ length: 1, "0": { content: "hi" } }] at 0 the
    content is marked as well. *)
Definition w_array_like : World :=
  {| heap := <[0%nat := Obj [("length", VNum 1); ("0", VRef 1)]]>
               (<[1%nat := Obj [("content", VStr "hi")]]> ∅);
     files := {| Fs.entries := ∅; Fs.denied := ∅; Fs.short := ∅ |};
     env := <["HOME" := "/home/u"]> ∅;
     clock := noon |}.

Lemma processPrompt_marks_array_like :
  snd (processPrompt (VRef 0) VNull w_array_like) = Return (VRef 0)
  /\ heap (fst (processPrompt (VRef 0) VNull w_array_like)) !! 1%nat
       = Some (Obj [("content", VStr "[DEBUG] hi")]).
Proof. split; vm_compute; reflexivity. Qed.

(** The store that [processPrompt] leaves when it is given an array with
    the elements [elems]: the [content] of the first element overwritten
    when that element is an object whose [content] is truthy, and the
    store as it was in every other case. *)
Definition prompted (h : gmap nat cell) (elems : list value)
    : gmap nat cell :=
  match elems with
  | VRef lo :: _ =>
      match h !! lo with
      | Some (Obj props) =>
          if truthy (get "content" props) then remarked h lo props else h
      | _ => h
      end
  | _ => h
  end.

(** C3 (amended). Both methods of the adapter record the exchange: a
    call that returns has written the record of its arguments as they were
    when the call began.  [processResponse] gives back its argument and
    leaves every array and object as it was.  [processPrompt] gives back
    the array it was given; when the first element of the array is an
    object with a truthy [content] it has overwritten that [content] with
    "[DEBUG] " followed by the old content, and it has changed nothing
    else; in every other case it has left the store as it was. *)
Theorem adapter_passes_through_but_first_content :
  (forall chunk meta w w' v,
     Clock.valid (clock w) ->
     local_day (clock w) ->
     processResponse chunk meta w = (w', Return v) ->
     v = chunk
     /\ heap w' = heap w
     /\ recorded outbound [("chunk", chunk); ("meta", meta)] w (files w'))
  /\ (forall l elems meta w w' v,
        Clock.valid (clock w) ->
        local_day (clock w) ->
        heap w !! l = Some (Arr elems) ->
        processPrompt (VRef l) meta w = (w', Return v) ->
        v = VRef l
        /\ heap w' = prompted (heap w) elems
        /\ recorded inbound [("messages", VRef l); ("meta", meta)] w
             (files w')).
Proof.
  split.
  - intros chunk meta w w' v Hvalid Hday Hrun.
    destruct (processResponse_Return _ _ _ _ _ Hrun) as [-> Hlog].
    split; [reflexivity|].
    split; [exact (logRequest_heap _ _ _ _ _ Hlog)|].
    now apply logRequest_recorded.
  - intros l elems meta w w' v Hvalid Hday Hl Hrun.
    destruct (processPrompt_Return _ _ _ _ _ Hrun)
      as (-> & w1 & Hlog & Hfirst).
    split; [reflexivity|].
    pose proof (logRequest_heap _ _ _ _ _ Hlog) as Hheap.
    pose proof (logRequest_recorded _ _ _ _ Hvalid Hday Hlog) as Hrecorded.
    rewrite (first_element_array _ _ _ Hl) in Hfirst.
    unfold first_of in Hfirst. rewrite Hl in Hfirst. unfold prompted.
    destruct elems as [|m0 rest]; [now subst w'|].
    destruct Hfirst as (content & Hnamed & Hset).
    assert (Hkept : truthy content = false ->
                    heap w' = heap w
                    /\ recorded inbound [("messages", VRef l); ("meta", meta)]
                         w (files w')).
    { intros Hfalse. rewrite Hfalse in Hset. now subst w'. }
    unfold named in Hnamed.
    destruct m0 as [| | b | n | s | lo]; try discriminate;
      try (injection Hnamed as <-; now apply Hkept).
    destruct (heap w !! lo) as [[elems'|props]|] eqn:Hlo;
      try (injection Hnamed as <-; now apply Hkept).
    injection Hnamed as <-.
    destruct (truthy (get "content" props)) eqn:Htruthy; [|now apply Hkept].
    pose proof (set_named_files _ _ _ _ _ _ Hset) as [Hfiles _].
    rewrite Hfiles. split; [|exact Hrecorded].
    unfold set_named in Hset. rewrite Hheap, Hlo in Hset.
    injection Hset as <-. reflexivity.
Qed.

Lemma adapter_passes_through_but_first_content_witness :
  snd (processPrompt (VRef 0) VNull w_home) = Return (VRef 0)
  /\ heap (fst (processPrompt (VRef 0) VNull w_home))
       = <[1%nat := Obj [("role", VStr "user");
                         ("content", VStr "[DEBUG] hi")]]> (heap w_home)
  /\ recorded inbound hi_data w_home
       (files (fst (processPrompt (VRef 0) VNull w_home))).
Proof.
  assert (Hrun : processPrompt (VRef 0) VNull w_home
                 = (fst (processPrompt (VRef 0) VNull w_home),
                    Return (VRef 0)))
    by (vm_compute; reflexivity).
  destruct (proj2 adapter_passes_through_but_first_content 0%nat [VRef 1]
              VNull w_home _ _ noon_valid noon_local_day eq_refl Hrun)
    as (_ & Hheap & Hrecorded).
  split; [vm_compute; reflexivity|]. split; [exact Hheap|exact Hrecorded].
Defined.







End Adapter.

(* --------------------------------------------------------------------- *)
(** ** The handler of POST /v1/chat/completions                            *)
(* --------------------------------------------------------------------- *)

Section Handler.
Import JS Runtime Proxy.
#[local] Arguments append !_ _ / : simpl nomatch.

(** The response of the catch-all of the handler. *)
Definition internal_server_error : ServerResponse :=
  {| statusCode := 500; headers := [];
     calls := [Chunk "Internal Server Error"; End] |}.

(** The fail-open sentence of the specification, at one request: when
    [processPrompt] throws, one request goes upstream, its body is the
    original body as [JSON.stringify] shows it, and the caller is not
    answered with an error. *)
Definition fails_open (tr : Transformer) (fetch : Posted -> fetched)
    (req : Request) (w : World) : Prop :=
  forall w1 w2 messages meta e x',
    prepare req w = (w1, Return (messages, meta)) ->
    processPrompt tr messages meta w1 = (w2, Throw e) ->
    chat_completions tr fetch req (begin w) = (x', Return tt) ->
    (exists p original,
       posted x' = [p]
       /\ stringify_literal (body req) w = (w, Return original)
       /\ payload p = original)
    /\ statusCode (res x') <> 500.

(** The request [{ model: "gpt-4", messages: [...] }], with the array of
    messages at 0 in the store. *)
Definition req_hi : Request :=
  {| body := [("model", VStr "gpt-4"); ("messages", VRef 0)];
     req_headers := VNull; ip := VStr "127.0.0.1";
     path := VStr "/v1/chat/completions"; method := VStr "POST" |}.

(** An upstream that would answer every request. *)
Definition upstream_ok (p : Posted) : fetched :=
  FetchResolves {| status := 200; text := Return EmptyString; sse := None;
                   json := mret VNull |}.

Lemma chat_completions_catch tr fetch req w w1 w2 messages meta e :
  prepare req w = (w1, Return (messages, meta)) ->
  processPrompt tr messages meta w1 = (w2, Throw e) ->
  chat_completions tr fetch req (begin w)
    = ({| world := w2; posted := []; res := internal_server_error |},
       Return tt).
Proof.
  intros Hprepare Hthrow.
  unfold chat_completions, try_catch.
  unfold mbind at 1, ST_bind at 1, lift at 1. cbn [world begin].
  rewrite Hprepare. cbn [posted res].
  unfold mbind at 1, ST_bind at 1, lift at 1. cbn [world].
  rewrite Hthrow. reflexivity.
Qed.

(** With a log file that cannot be written the adapter throws in
    [processPrompt]; the handler then sends nothing upstream and answers
    500. *)
Lemma chat_completions_fails_closed :
  (exists w1 w2 messages meta e,
     prepare req_hi w_readonly = (w1, Return (messages, meta))
     /\ processPrompt orchestratorAdapter messages meta w1 = (w2, Throw e))
  /\ (exists x',
        chat_completions orchestratorAdapter upstream_ok req_hi
          (begin w_readonly) = (x', Return tt)
        /\ posted x' = []
        /\ res x' = internal_server_error)
  /\ ~ fails_open orchestratorAdapter upstream_ok req_hi w_readonly.
Proof.
  assert (Hprepare : prepare req_hi w_readonly
            = (fst (prepare req_hi w_readonly), Return (VRef 0, VRef 2)))
    by (vm_compute; reflexivity).
  assert (Hthrow : processPrompt orchestratorAdapter (VRef 0) (VRef 2)
                     (fst (prepare req_hi w_readonly))
            = (fst (prepare req_hi w_readonly),
               Throw "EACCES: permission denied, open"))
    by (vm_compute; reflexivity).
  pose proof (chat_completions_catch orchestratorAdapter upstream_ok
                _ _ _ _ _ _ _ Hprepare Hthrow) as Hrun.
  split; [|split].
  - do 5 eexists. split; [exact Hprepare|exact Hthrow].
  - eexists. split; [exact Hrun|]. split; reflexivity.
  - intros Hopen.
    destruct (Hopen _ _ _ _ _ _ Hprepare Hthrow Hrun) as [_ Hstatus].
    now apply Hstatus.
Qed.

(** C2 (amended). When [processPrompt] throws, the catch of the handler
    takes the exception: no request is sent upstream, and the caller is
    answered with status 500 and the body "Internal Server Error". *)
Theorem processPrompt_throw_answers_500 tr fetch req w w1 w2 messages meta e :
  prepare req w = (w1, Return (messages, meta)) ->
  processPrompt tr messages meta w1 = (w2, Throw e) ->
  exists x',
    chat_completions tr fetch req (begin w) = (x', Return tt)
    /\ world x' = w2
    /\ posted x' = []
    /\ statusCode (res x') = 500
    /\ calls (res x') = [Chunk "Internal Server Error"; End].
Proof.
  intros Hprepare Hthrow. eexists.
  split; [exact (chat_completions_catch _ _ _ _ _ _ _ _ _ Hprepare Hthrow)|].
  repeat split.
Qed.

Lemma processPrompt_throw_answers_500_witness :
  exists x',
    chat_completions orchestratorAdapter upstream_ok req_hi (begin w_readonly)
      = (x', Return tt)
    /\ world x' = fst (prepare req_hi w_readonly)
    /\ posted x' = []
    /\ statusCode (res x') = 500
    /\ calls (res x') = [Chunk "Internal Server Error"; End].
Proof.
  apply (processPrompt_throw_answers_500 orchestratorAdapter upstream_ok
           req_hi w_readonly (fst (prepare req_hi w_readonly))
           (fst (prepare req_hi w_readonly)) (VRef 0) (VRef 2)
           "EACCES: permission denied, open");
    vm_compute; reflexivity.
Defined.

End Handler.

(* --------------------------------------------------------------------- *)
(** ** The relay of a streamed answer                                      *)
(* --------------------------------------------------------------------- *)

Section Relay.
Import JS Runtime Proxy.
#[local] Arguments append !_ _ / : simpl nomatch.


(** Those of them that the callback hands to the transformer. *)
Definition payloads (events : list parsed_event) : list string :=
  omap (fun event => match event with
                     | ParsedEvent data =>
                         if truthy (VStr data) then Some data else None
                     | ReconnectInterval _ => None
                     end) events.


(** The texts that reach the caller. *)
Definition received (r : ServerResponse) : list string :=
  omap (fun c => match c with
                 | Chunk text => Some text
                 | End | WriteAfterEnd _ => None
                 end) (calls r).

Definition with_calls (cs : list body_call) (r : ServerResponse)
    : ServerResponse :=
  {| statusCode := statusCode r; headers := headers r; calls := cs |}.

Definition frames (ps : list string) : list body_call :=
  map (fun p => Chunk (frame p)) ps.

Lemma to_string_VStr fuel h s : to_string fuel h (VStr s) = s.
Proof. destruct fuel; reflexivity. Qed.

Lemma writableEnded_app r cs :
  writableEnded (with_calls (calls r ++ cs) r)
    = writableEnded r || existsb is_end cs.
Proof. unfold writableEnded. cbn. apply existsb_app. Qed.


Lemma on_event_skipped tr meta event x :
  match event with
  | ParsedEvent data => truthy (VStr data) = false
  | ReconnectInterval _ => True
  end ->
  on_event tr meta event x = (x, Return tt).
Proof.
  destruct event as [data|n]; cbn; [|reflexivity]. now intros ->.
Qed.

Lemma payloads_cons event events :
  payloads (event :: events)
    = match event with
      | ParsedEvent data =>
          if truthy (VStr data) then data :: payloads events
          else payloads events
      | ReconnectInterval _ => payloads events
      end.
Proof.
  destruct event as [data|n]; [|reflexivity].
  unfold payloads. cbn [omap list_omap].
  now destruct (truthy (VStr data)).
Qed.





Lemma received_app r cs :
  received (with_calls (calls r ++ cs) r)
    = received r ++ omap (fun c => match c with
                                   | Chunk text => Some text
                                   | End | WriteAfterEnd _ => None
                                   end) cs.
Proof. unfold received. cbn. apply omap_app. Qed.

Lemma received_frames ps :
  omap (fun c => match c with
                 | Chunk text => Some text
                 | End | WriteAfterEnd _ => None
                 end) (frames ps ++ [End]) = map frame ps.
Proof. induction ps as [|p ps IH]; cbn; [reflexivity|now f_equal]. Qed.








(** A stream that goes on after the sentinel: the handler writes to the
    response it has ended. *)
Definition past_sentinel : list parsed_event :=
  [ParsedEvent "a"; ParsedEvent "[DONE]"; ParsedEvent "b"].

Lemma relay_writes_past_sentinel :
  calls (res (fst (relay orchestratorAdapter VNull past_sentinel
                     (begin w_home))))
    = [Chunk (frame "a"); Chunk (frame "[DONE]"); End;
       WriteAfterEnd (frame "b")]
  /\ wrote_after_end
       (res (fst (relay orchestratorAdapter VNull past_sentinel
                    (begin w_home)))) = true.
Proof. split; vm_compute; reflexivity. Qed.

(** How the handler comes to the relay: the response it starts with has
    the three headers of an event stream and no body yet. *)
Definition streaming (w : World) : Exchange :=
  {| world := w; posted := [];
     res := {| statusCode := 200;
               headers := [("Content-Type", "text/event-stream");
                           ("Cache-Control", "no-cache");
                           ("Connection", "keep-alive")];
               calls := [] |} |}.

Lemma lift_res {A} (m : M A) x x1 r :
  lift m x = (x1, r) -> res x1 = res x.
Proof.
  unfold lift. destruct (m (world x)) as [w1 r1]. now intros [= <- _].
Qed.

Lemma post_res fetch req processedRequestBody x x1 r :
  post fetch req processedRequestBody x = (x1, r) -> res x1 = res x.
Proof.
  unfold post. unfold mbind at 1, ST_bind at 1.
  destruct (lift _ x) as [xa [auth|e]] eqn:Hauth;
    [|intros [= <- _]; eapply lift_res; eauto].
  apply lift_res in Hauth. unfold mbind at 1, ST_bind at 1.
  destruct (lift _ xa) as [xb [org|e]] eqn:Horg;
    [|intros [= <- _]; apply lift_res in Horg; congruence].
  apply lift_res in Horg. unfold mbind at 1, ST_bind at 1.
  destruct (lift _ xb) as [xc [text|e]] eqn:Htext;
    [|intros [= <- _]; apply lift_res in Htext; congruence].
  apply lift_res in Htext. unfold send.
  destruct (fetch _); intros [= <- _]; cbn [res]; congruence.
Qed.

Lemma chat_completions_streams tr fetch req w w1 w2 messages meta
    processedMessages x1 openaiResponse events :
  prepare req w = (w1, Return (messages, meta)) ->
  processPrompt tr messages meta w1 = (w2, Return processedMessages) ->
  strictly_true (get "stream" (body req)) = true ->
  post fetch req (set "messages" processedMessages (body req)) (streaming w2)
    = (x1, Return openaiResponse) ->
  response_ok openaiResponse = true ->
  sse openaiResponse = Some events ->
  writableEnded (res x1) = false
  /\ chat_completions tr fetch req (begin w)
       = try_catch (relay tr meta events)
           (fun error => res_status 500;; res_send "Internal Server Error")
           x1.
Proof.
  intros Hprepare Hprompt Hstream Hpost Hok Hsse.
  split; [now rewrite (post_res _ _ _ _ _ _ Hpost)|].
  unfold chat_completions, try_catch.
  unfold mbind at 1, ST_bind at 1, lift at 1. cbn [world begin].
  rewrite Hprepare. cbn [posted res].
  unfold mbind at 1, ST_bind at 1, lift at 1. cbn [world].
  rewrite Hprompt. cbn [posted res]. rewrite Hstream.
  unfold mbind at 1, ST_bind at 1, res_setHeader at 1, on_res at 1.
  unfold mbind at 1, ST_bind at 1, res_setHeader at 1, on_res at 1.
  unfold mbind at 1, ST_bind at 1, res_setHeader at 1, on_res at 1.
  cbn [world posted res statusCode headers calls fresh_response app].
  unfold mbind at 1, ST_bind at 1.
  match goal with
  | |- context [post _ _ _ ?st] => change st with (streaming w2)
  end.
  rewrite Hpost, Hok, Hsse. reflexivity.
Qed.

End Relay.

(* ===================================================================== *)
(** * Part III: further properties of the code                             *)
(* ===================================================================== *)

(* --------------------------------------------------------------------- *)
(** ** The supervisor over time                                            *)
(* --------------------------------------------------------------------- *)

Section Supervisor.
Import ProxyManager.

(** A port is recorded exactly while a handle is attached, and a handle
    is attached only while [isStopped] is false. *)
Definition attached_consistent (w : world) : Prop :=
  (proxyPort (this w) = None <-> proxyProcess (this w) = None)
  /\ (is_Some (proxyProcess (this w)) -> isStopped (this w) = false).

Lemma detached_consistent w :
  proxyPort (this w) = None -> proxyProcess (this w) = None ->
  attached_consistent w.
Proof.
  intros Hport Hproc. split; [now rewrite Hport, Hproc|].
  rewrite Hproc. now intros [? ?].
Qed.

Lemma stopProxy_consistent w :
  attached_consistent w -> attached_consistent (stopProxy w).
Proof.
  intros [Hiff Hflag]. unfold stopProxy.
  destruct w as [[port [p|] timer flag] cs ivs ps]; cbn in *.
  - destruct timer; cbn; now apply detached_consistent.
  - destruct timer; cbn; (split; [exact Hiff|now intros [? ?]]).
Qed.

Lemma startProxy_consistent port w : attached_consistent (startProxy port w).
Proof. split; cbn; [split; discriminate|reflexivity]. Qed.

Lemma add_pending_consistent t w :
  attached_consistent w -> attached_consistent (add_pending t w).
Proof. exact id. Qed.

Lemma ensure_consistent w :
  attached_consistent w -> attached_consistent (ensureProxyAvailable w).
Proof. unfold ensureProxyAvailable. now destruct (port_unset (this w)). Qed.

Lemma on_close_consistent pid w : attached_consistent (on_close pid w).
Proof.
  unfold on_close. cbv zeta. cbn [this isStopped].
  destruct (isStopped (this w));
    [|apply ensure_consistent]; now apply detached_consistent.
Qed.

Lemma resume_consistent t a w w' :
  attached_consistent w -> resume t a w = Some w' -> attached_consistent w'.
Proof.
  intros Hw Hr.
  destruct t, a; cbn in Hr; try discriminate; injection Hr as <-.
  - destruct (port_unset (this w)); [now apply stopProxy_consistent|exact Hw].
  - destruct (outcome_ok o); [exact Hw|now apply stopProxy_consistent].
  - destruct (negb (outcome_ok o) && negb (isStopped (this w)));
      [|exact Hw].
    unfold restartProxy. now apply stopProxy_consistent.
  - exact Hw.
  - apply startProxy_consistent.
  - now destruct (outcome_ok o).
  - apply startProxy_consistent.
Qed.

Lemma step_consistent w e w' :
  attached_consistent w -> step w e = Some w' -> attached_consistent w'.
Proof.
  intros Hw Hs. destruct e as [port| | |pid|tid|i a]; cbn in Hs.
  - injection Hs as <-. apply startProxy_consistent.
  - injection Hs as <-. now apply ensure_consistent.
  - injection Hs as <-. now apply stopProxy_consistent.
  - destruct (children w !! pid) as [[]|]; try discriminate;
      injection Hs as <-; apply on_close_consistent.
  - destruct (intervals w !! tid) as [[]|]; try discriminate.
    injection Hs as <-. unfold on_tick.
    now destruct (port_unset (this w)).
  - destruct (pending w !! i) as [t|]; [|discriminate].
    eapply resume_consistent; [|exact Hs]. exact Hw.
Qed.

Lemma reachable_consistent w : reachable w -> attached_consistent w.
Proof.
  induction 1 as [|w e w' _ IH Hs].
  - now apply detached_consistent.
  - exact (step_consistent w e w' IH Hs).
Qed.

(** X1. In every state the supervisor can reach, the port is recorded
    exactly while a process handle is attached, and a handle is attached
    only while [isStopped] is false; without a handle [isProxyAvailable]
    answers false and sends no request. *)
Theorem port_held_with_handle w :
  reachable w ->
  (proxyPort (this w) = None <-> proxyProcess (this w) = None)
  /\ (is_Some (proxyProcess (this w)) -> isStopped (this w) = false)
  /\ (proxyProcess (this w) = None ->
      forall fetch,
        isProxyAvailable (this w) fetch
          = {| available := false; requests := []; elapsed_ms := 0 |}).
Proof.
  intros Hw. destruct (reachable_consistent w Hw) as [Hiff Hflag].
  split; [exact Hiff|]. split; [exact Hflag|].
  intros Hproc fetch. apply Hiff in Hproc.
  unfold isProxyAvailable, port_unset. now rewrite Hproc.
Qed.

Lemma port_held_with_handle_witness :
  reachable w_started
  /\ (proxyPort (this w_started) = None
      <-> proxyProcess (this w_started) = None)
  /\ (is_Some (proxyProcess (this w_started))
      -> isStopped (this w_started) = false)
  /\ (proxyProcess (this w_started) = None ->
      forall fetch,
        isProxyAvailable (this w_started) fetch
          = {| available := false; requests := []; elapsed_ms := 0 |}).
Proof.
  split; [exact w_started_reachable|].
  exact (port_held_with_handle w_started w_started_reachable).
Defined.

(** X2. At most one health-check interval is live at any time, and it is
    the one the field [healthCheckInterval] holds: every interval that
    was set before has been cleared. *)
Theorem one_live_interval w t1 t2 :
  reachable w ->
  intervals w !! t1 = Some true ->
  intervals w !! t2 = Some true ->
  t1 = t2 /\ healthCheckInterval (this w) = Some t1.
Proof.
  intros Hw H1 H2. pose proof (reachable_tracked w Hw) as Htracked.
  pose proof (Htracked t1 H1) as Ht1. pose proof (Htracked t2 H2) as Ht2.
  split; [congruence|exact Ht1].
Qed.

Lemma w_restarted_reachable : reachable w_restarted.
Proof.
  apply (run_reachable crashed_and_restarted initial_world);
    [constructor|reflexivity].
Qed.

Lemma one_live_interval_witness :
  intervals w_restarted = [false; true]
  /\ healthCheckInterval (this w_restarted) = Some 1%nat.
Proof.
  split; [reflexivity|].
  exact (proj2 (one_live_interval w_restarted 1 1 w_restarted_reachable
                  eq_refl eq_refl)).
Defined.

(** X3. A second [stopProxy] changes nothing: it clears no interval and
    signals no child. *)
Theorem stopProxy_idempotent w : stopProxy (stopProxy w) = stopProxy w.
Proof.
  unfold stopProxy.
  destruct w as [[port [p|] [t|] flag] cs ivs ps]; reflexivity.
Qed.

(** X4. [stopProxy] called with a handle attached, while no method that
    ends in [startProxy] is suspended: the child is signalled, and from
    then on no 'close', no interval and no settled await spawns a child
    or sets a port, a handle or an interval again; [isProxyAvailable]
    stays false and sends nothing. *)
Theorem stop_is_final_without_restart_in_flight w p es w' :
  reachable w ->
  proxyProcess (this w) = Some p ->
  Forall (fun t => restart_in_flight t = false) (pending w) ->
  forallb internal es = true ->
  run (stopProxy w) es = Some w' ->
  children (stopProxy w) = <[p := Killed]> (children w)
  /\ length (children w') = length (children w)
  /\ this w' = {| proxyPort := None; proxyProcess := None;
                  healthCheckInterval := None; isStopped := true |}
  /\ Forall (fun b => b = false) (intervals w')
  /\ forall fetch,
       isProxyAvailable (this w') fetch
         = {| available := false; requests := []; elapsed_ms := 0 |}.
Proof.
  intros Hw Hp Hpend Hint Hrun.
  assert (Hsome : is_Some (proxyProcess (this w))) by (rewrite Hp; eauto).
  destruct (stopProxy_final_when_quiescent w es w' Hw Hsome Hpend Hint Hrun)
    as (Hlen & Hport & Hproc & Htimer & Hflag & Hivs & _).
  destruct (stopProxy_clears w Hsome (reachable_tracked w Hw))
    as (_ & _ & Hch & _).
  destruct (reachable_handle_ok w Hw p Hp) as [_ Hrunning].
  assert (Hthis : this w' = {| proxyPort := None; proxyProcess := None;
                               healthCheckInterval := None;
                               isStopped := true |}).
  { destruct w' as [[] ? ? ?]. cbn in *. now subst. }
  split; [|split; [exact Hlen|split; [exact Hthis|split; [exact Hivs|]]]].
  - rewrite Hch, Hp. cbn. unfold kill. now rewrite Hrunning.
  - intros fetch. now rewrite Hthis.
Qed.

Lemma stop_is_final_without_restart_in_flight_witness :
  run (stopProxy w_started) [Close 0]
    = Some {| this := {| proxyPort := None; proxyProcess := None;
                         healthCheckInterval := None; isStopped := true |};
              children := [Exited]; intervals := [false]; pending := [] |}
  /\ children (stopProxy w_started) = <[0%nat := Killed]> (children w_started).
Proof.
  split; [reflexivity|].
  exact (proj1 (stop_is_final_without_restart_in_flight w_started 0
                  [Close 0] _ w_started_reachable eq_refl
                  (Forall_nil_2 _) eq_refl eq_refl)).
Defined.

Lemma findFreeProxyPort_range canBind :
  7001 <= findFreeProxyPort canBind <= 7010.
Proof.
  unfold findFreeProxyPort, findFreeProxyPort_trace.
  destruct (findFreeProxyPort_loop_spec canBind 11 7001 [])
    as [(p & Hp & _ & _ & ->)|[_ ->]]; cbn; lia.
Qed.

Lemma port_set_not_unset f port :
  proxyPort f = Some port -> 7001 <= port -> port_unset f = false.
Proof.
  intros Hport Hrange. unfold port_unset. rewrite Hport.
  apply Z.eqb_neq. lia.
Qed.

(** The state in which a first child runs on [port], with the methods
    suspended, and the one left by a first child that did not answer. *)
Definition serving (port : Z) (suspended : list task) : world :=
  {| this := {| proxyPort := Some port; proxyProcess := Some 0%nat;
                healthCheckInterval := Some 0%nat; isStopped := false |};
     children := [Running]; intervals := [true]; pending := suspended |}.

Definition given_up : world :=
  {| this := {| proxyPort := None; proxyProcess := None;
                healthCheckInterval := None; isStopped := true |};
     children := [Killed]; intervals := [false]; pending := [] |}.

(** X5. [ensureProxyAvailable] on a fresh manager, as the activation of
    the extension calls it: no probe is sent; the ports are scanned, one
    child is spawned on the first free port of 7001..7010 (7001 when none
    is free), and two seconds later it is probed once.  When the probe is
    answered with a 2xx status the child is kept, with one interval
    running; otherwise it is signalled and the manager is left stopped. *)
Theorem activation_starts_on_first_free_port busy o :
  run initial_world
    [CallEnsure; Settle 0 (Scanned busy); Settle 0 TimerFired;
     Settle 0 (Fetched o)]
    = Some (if outcome_ok o
            then serving (findFreeProxyPort (canBind_except busy)) []
            else given_up).
Proof.
  pose proof (findFreeProxyPort_range (canBind_except busy)) as Hrange.
  set (port := findFreeProxyPort (canBind_except busy)) in *.
  change [CallEnsure; Settle 0 (Scanned busy); Settle 0 TimerFired;
          Settle 0 (Fetched o)]
    with ([CallEnsure; Settle 0 (Scanned busy)]
            ++ [Settle 0 TimerFired; Settle 0 (Fetched o)]).
  rewrite run_app.
  change (run initial_world [CallEnsure; Settle 0 (Scanned busy)])
    with (Some (serving port [StartSettle])).
  cbv beta iota.
  change (run (serving port [StartSettle])
            [Settle 0 TimerFired; Settle 0 (Fetched o)])
    with (match Some (if port_unset (this (serving port []))
                      then stopProxy (serving port [])
                      else serving port [StartProbe]) with
          | Some w => run w [Settle 0 (Fetched o)]
          | None => None
          end).
  rewrite (port_set_not_unset _ port) by (reflexivity || lia).
  cbv beta iota.
  change (run (serving port [StartProbe]) [Settle 0 (Fetched o)])
    with (Some (if outcome_ok o then serving port []
                else stopProxy (serving port []))).
  reflexivity.
Qed.

(** A first child that has been given its two seconds and is being
    probed. *)
Definition w_probing : world :=
  {| this := {| proxyPort := Some 7001; proxyProcess := Some 0%nat;
                healthCheckInterval := Some 0%nat; isStopped := false |};
     children := [Running]; intervals := [true]; pending := [StartProbe] |}.

Lemma w_probing_reachable : reachable w_probing.
Proof.
  apply (run_reachable
           [CallEnsure; Settle 0 (Scanned []); Settle 0 TimerFired]
           initial_world); [constructor|reflexivity].
Qed.

(** X6. When the probe that [startProxy] makes after its two seconds is
    not answered with a 2xx status, the attached child is signalled, the
    handle, the port and the interval are cleared and [isStopped] is
    raised; the 'close' of that child then starts nothing: the failed
    start is not tried again. *)
Theorem failed_start_is_not_retried w i p o :
  reachable w ->
  proxyProcess (this w) = Some p ->
  pending w !! i = Some StartProbe ->
  outcome_ok o = false ->
  exists w1 w2,
    step w (Settle i (Fetched o)) = Some w1
    /\ this w1 = {| proxyPort := None; proxyProcess := None;
                    healthCheckInterval := None; isStopped := true |}
    /\ children w1 = <[p := Killed]> (children w)
    /\ pending w1 = delete i (pending w)
    /\ Forall (fun b => b = false) (intervals w1)
    /\ step w1 (Close p) = Some w2
    /\ this w2 = this w1
    /\ children w2 = <[p := Exited]> (children w)
    /\ pending w2 = pending w1.
Proof.
  intros Hw Hp Hi Ho.
  destruct (reachable_handle_ok w Hw p Hp) as [Hlast Hrunning].
  set (w0 := {| this := this w; children := children w;
                intervals := intervals w; pending := delete i (pending w) |}).
  assert (Hsome : is_Some (proxyProcess (this w0))) by (cbn; rewrite Hp; eauto).
  assert (Htracked : timers_tracked w0) by exact (reachable_tracked w Hw).
  destruct (stopProxy_clears w0 Hsome Htracked) as (Hthis & Hivs & Hch & Hpend & _).
  assert (Hch' : children (stopProxy w0) = <[p := Killed]> (children w)).
  { rewrite Hch. cbn. rewrite Hp. cbn. unfold kill. now rewrite Hrunning. }
  assert (Hlt : (p < length (children w))%nat) by lia.
  exists (stopProxy w0), (on_close p (stopProxy w0)).
  split; [cbn; rewrite Hi; cbn; now rewrite Ho|].
  split; [exact Hthis|]. split; [exact Hch'|]. split; [exact Hpend|].
  split; [exact Hivs|].
  split; [cbn [step]; rewrite Hch', list_lookup_insert_eq by exact Hlt;
          reflexivity|].
  unfold on_close. cbv zeta. cbn [this isStopped]. rewrite Hthis.
  cbn [isStopped healthCheckInterval this children pending].
  split; [reflexivity|]. split; [|reflexivity].
  rewrite Hch'. apply list_insert_insert_eq.
Qed.

Lemma failed_start_is_not_retried_witness :
  exists w1 w2,
    step w_probing (Settle 0 (Fetched (NetworkError 3))) = Some w1
    /\ this w1 = {| proxyPort := None; proxyProcess := None;
                    healthCheckInterval := None; isStopped := true |}
    /\ children w1 = [Killed]
    /\ pending w1 = []
    /\ Forall (fun b => b = false) (intervals w1)
    /\ step w1 (Close 0) = Some w2
    /\ this w2 = this w1
    /\ children w2 = [Exited]
    /\ pending w2 = pending w1.
Proof.
  exact (failed_start_is_not_retried w_probing 0 0 (NetworkError 3)
           w_probing_reachable eq_refl eq_refl eq_refl).
Defined.

(** X7. When the child whose handle is attached terminates, the handle
    and the port are cleared and, without a probe, the ports are scanned:
    a new child is spawned on the first free port of 7001..7010 (7001
    when none is free) and its handle attached. *)
Theorem exit_of_attached_child_restarts w p busy :
  reachable w ->
  proxyProcess (this w) = Some p ->
  exists w1 w2,
    step w (Close p) = Some w1
    /\ this w1 = {| proxyPort := None; proxyProcess := None;
                    healthCheckInterval := healthCheckInterval (this w);
                    isStopped := false |}
    /\ pending w1 = pending w ++ [EnsureScan]
    /\ step w1 (Settle (length (pending w)) (Scanned busy)) = Some w2
    /\ children w2 = <[p := Exited]> (children w) ++ [Running]
    /\ proxyProcess (this w2) = Some (length (children w))
    /\ proxyPort (this w2) = Some (findFreeProxyPort (canBind_except busy))
    /\ 7001 <= findFreeProxyPort (canBind_except busy) <= 7010
    /\ pending w2 = pending w ++ [StartSettle].
Proof.
  intros Hw Hp.
  destruct (reachable_handle_ok w Hw p Hp) as [_ Hrunning].
  destruct (reachable_consistent w Hw) as [_ Hflag].
  assert (Hgo : isStopped (this w) = false) by (apply Hflag; rewrite Hp; eauto).
  set (w1 := {| this := {| proxyPort := None; proxyProcess := None;
                           healthCheckInterval := healthCheckInterval (this w);
                           isStopped := false |};
                children := <[p := Exited]> (children w);
                intervals := intervals w;
                pending := pending w ++ [EnsureScan] |}).
  assert (Hclose : on_close p w = w1).
  { unfold on_close. cbv zeta. cbn [this isStopped]. rewrite Hgo.
    reflexivity. }
  exists w1, (startProxy (findFreeProxyPort (canBind_except busy))
                {| this := this w1; children := children w1;
                   intervals := intervals w1; pending := pending w |}).
  split; [cbn [step]; rewrite Hrunning, Hclose; reflexivity|].
  split; [reflexivity|]. split; [reflexivity|].
  assert (Hdelete : delete (length (pending w)) (pending w ++ [EnsureScan])
                    = pending w).
  { clear. induction (pending w) as [|t ts IH]; [reflexivity|].
    cbn. f_equal. exact IH. }
  split.
  { cbn [step pending w1].
    rewrite lookup_app_r by lia. rewrite Nat.sub_diag. cbn [lookup list_lookup].
    rewrite Hdelete. reflexivity. }
  split; [reflexivity|].
  split; [cbn; now rewrite length_insert|].
  split; [reflexivity|].
  split; [apply findFreeProxyPort_range|reflexivity].
Qed.

Lemma exit_of_attached_child_restarts_witness :
  exists w1 w2,
    step w_started (Close 0) = Some w1
    /\ this w1 = {| proxyPort := None; proxyProcess := None;
                    healthCheckInterval := Some 0%nat; isStopped := false |}
    /\ pending w1 = [EnsureScan]
    /\ step w1 (Settle 0 (Scanned [7001; 7002])) = Some w2
    /\ children w2 = [Exited; Running]
    /\ proxyProcess (this w2) = Some 1%nat
    /\ proxyPort (this w2) = Some 7003
    /\ 7001 <= 7003 <= 7010
    /\ pending w2 = [StartSettle].
Proof.
  exact (exit_of_attached_child_restarts w_started 0 [7001; 7002]
           w_started_reachable eq_refl).
Defined.

(** What a turn may do to the children: none is forgotten, and one that
    changes is the running child whose handle is attached, now signalled. *)
Definition kept_or_signalled (handle : option nat)
    (cs cs' : list child_status) : Prop :=
  (length cs <= length cs')%nat
  /\ forall pid c, cs !! pid = Some c ->
       cs' !! pid = Some c
       \/ (c = Running /\ cs' !! pid = Some Killed /\ handle = Some pid).

Lemma kept_refl handle cs : kept_or_signalled handle cs cs.
Proof. split; [lia|auto]. Qed.

Lemma kept_app handle cs c : kept_or_signalled handle cs (cs ++ [c]).
Proof.
  split; [rewrite length_app; lia|]. intros pid c' Hpid. left.
  now apply lookup_app_l_Some.
Qed.

Lemma kept_kill p cs : kept_or_signalled (Some p) cs (kill p cs).
Proof.
  unfold kill. destruct (cs !! p) as [[]|] eqn:Hp; try apply kept_refl.
  split; [now rewrite length_insert|]. intros pid c Hpid.
  destruct (decide (pid = p)) as [->|Hne].
  - right. rewrite Hp in Hpid. injection Hpid as <-.
    split; [reflexivity|]. split; [|reflexivity].
    apply list_lookup_insert_eq. now apply lookup_lt_Some in Hp.
  - left. now rewrite list_lookup_insert_ne.
Qed.

Lemma stopProxy_kept w :
  kept_or_signalled (proxyProcess (this w)) (children w)
    (children (stopProxy w)).
Proof.
  unfold stopProxy.
  destruct w as [[port [p|] [t|] flag] cs ivs ps]; cbn [this children proxyProcess healthCheckInterval];
    try apply kept_kill; apply kept_refl.
Qed.

Lemma resume_kept t a w w' :
  resume t a w = Some w' ->
  kept_or_signalled (proxyProcess (this w)) (children w) (children w').
Proof.
  intros Hr. destruct t, a; cbn in Hr; try discriminate; injection Hr as <-.
  - destruct (port_unset (this w)); [apply stopProxy_kept|apply kept_refl].
  - destruct (outcome_ok o); [apply kept_refl|apply stopProxy_kept].
  - destruct (negb (outcome_ok o) && negb (isStopped (this w)));
      [apply stopProxy_kept|apply kept_refl].
  - apply kept_refl.
  - apply kept_app.
  - destruct (outcome_ok o); apply kept_refl.
  - apply kept_app.
Qed.

(** X8. No turn of the supervisor forgets a child or revives one.  The
    only child it ever signals is the running child whose handle is
    attached at that moment; any other child changes state only by its
    own termination. *)
Theorem signals_only_the_attached_child w e w' :
  step w e = Some w' ->
  (length (children w) <= length (children w'))%nat
  /\ forall pid c, children w !! pid = Some c ->
       children w' !! pid = Some c
       \/ (c = Running /\ children w' !! pid = Some Killed
           /\ proxyProcess (this w) = Some pid)
       \/ (e = Close pid /\ c <> Exited
           /\ children w' !! pid = Some Exited).
Proof.
  intros Hs.
  assert (Hkept : forall cs',
             kept_or_signalled (proxyProcess (this w)) (children w) cs' ->
             (length (children w) <= length cs')%nat
             /\ forall pid c, children w !! pid = Some c ->
                  cs' !! pid = Some c
                  \/ (c = Running /\ cs' !! pid = Some Killed
                      /\ proxyProcess (this w) = Some pid)
                  \/ (e = Close pid /\ c <> Exited
                      /\ cs' !! pid = Some Exited)).
  { intros cs' [Hlen Hall]. split; [exact Hlen|]. intros pid c Hpid.
    destruct (Hall pid c Hpid) as [?|?]; auto. }
  destruct e as [port| | |pid0|tid|i a]; cbn [step] in Hs.
  - injection Hs as <-. apply Hkept, kept_app.
  - injection Hs as <-. apply Hkept. unfold ensureProxyAvailable.
    destruct (port_unset (this w)); apply kept_refl.
  - injection Hs as <-. apply Hkept, stopProxy_kept.
  - assert (Hchildren : children (on_close pid0 w)
                        = <[pid0 := Exited]> (children w)).
    { unfold on_close. cbv zeta. cbn [this isStopped].
      destruct (isStopped (this w)); [reflexivity|].
      unfold ensureProxyAvailable.
      destruct (port_unset _); reflexivity. }
    destruct (children w !! pid0) as [c0|] eqn:Hpid0; [|discriminate].
    assert (Hc0 : c0 <> Exited /\ w' = on_close pid0 w).
    { destruct c0; try discriminate; injection Hs as <-; split;
        congruence. }
    destruct Hc0 as [Hc0 ->]. rewrite Hchildren.
    split; [now rewrite length_insert|]. intros pid c Hpid.
    destruct (decide (pid = pid0)) as [->|Hne].
    + right. right. rewrite Hpid0 in Hpid. injection Hpid as <-.
      split; [reflexivity|]. split; [exact Hc0|].
      apply list_lookup_insert_eq. now apply lookup_lt_Some in Hpid0.
    + left. now rewrite list_lookup_insert_ne.
  - destruct (intervals w !! tid) as [[]|]; try discriminate.
    injection Hs as <-. apply Hkept. unfold on_tick.
    destruct (port_unset (this w)); apply kept_refl.
  - destruct (pending w !! i) as [t|]; [|discriminate].
    apply Hkept. exact (resume_kept _ _ _ _ Hs).
Qed.

(** Two children run, the first without a handle (a second [startProxy]
    was called while the first child was attached). *)
Lemma signals_only_the_attached_child_witness :
  step (startProxy 7002 w_started) CallStop
    = Some (stopProxy (startProxy 7002 w_started))
  /\ proxyProcess (this (startProxy 7002 w_started)) = Some 1%nat
  /\ children (stopProxy (startProxy 7002 w_started)) !! 0%nat = Some Running.
Proof.
  split; [reflexivity|]. split; [reflexivity|].
  destruct (signals_only_the_attached_child (startProxy 7002 w_started)
              CallStop _ eq_refl) as [_ Hall].
  destruct (Hall 0%nat Running eq_refl)
    as [Hkept|[(_ & _ & Hhandle)|(Hclose & _)]];
    [exact Hkept|discriminate Hhandle|discriminate Hclose].
Defined.

End Supervisor.

(* --------------------------------------------------------------------- *)
(** ** The answers of POST /v1/chat/completions                            *)
(* --------------------------------------------------------------------- *)

Section Answers.
Import JS Runtime Proxy.
#[local] Arguments append !_ _ / : simpl nomatch.

(** The exchange when the handler turns to the upstream: nothing sent
    yet, nothing written, and the headers of an event stream set when the
    request asks for one. *)
Definition ready (stream : bool) (w : World) : Exchange :=
  {| world := w; posted := [];
     res := {| statusCode := 200;
               headers := if stream
                          then [("Content-Type", "text/event-stream");
                                ("Cache-Control", "no-cache");
                                ("Connection", "keep-alive")]
                          else [];
               calls := [] |} |}.

Lemma lift_frame {A} (m : M A) x x1 r :
  lift m x = (x1, r) ->
  m (world x) = (world x1, r) /\ posted x1 = posted x /\ res x1 = res x.
Proof.
  unfold lift. destruct (m (world x)) as [w1 r1]. now intros [= <- <-].
Qed.

Lemma get_named_world v k w w' r : get_named v k w = (w', r) -> w' = w.
Proof.
  unfold get_named. destruct v; try now intros [= <- _].
  destruct (heap w !! l) as [[?|?]|]; now intros [= <- _].
Qed.

Lemma stringify_literal_world props w w' r :
  stringify_literal props w = (w', r) -> w' = w.
Proof.
  unfold stringify_literal.
  destruct (literal_to_json _ _ props); now intros [= <- _].
Qed.

(** A request as the handler sends it: to the chat-completions URL, with
    the body [JSON.stringify] makes of [processedRequestBody] in [w]. *)
Definition forwarded (processedRequestBody : list (string * value))
    (w : World) (p : Posted) : Prop :=
  url p = upstream_url
  /\ stringify_literal processedRequestBody w = (w, Return (payload p)).

(** What [post] does: it reads, and sends one request or none. *)
Lemma post_frame fetch req processedRequestBody x x1 r :
  post fetch req processedRequestBody x = (x1, r) ->
  world x1 = world x /\ res x1 = res x
  /\ match r with
     | Return openaiResponse =>
         exists p,
           posted x1 = posted x ++ [p]
           /\ fetch p = FetchResolves openaiResponse
           /\ forwarded processedRequestBody (world x) p
     | Throw e =>
         posted x1 = posted x
         \/ exists p,
              posted x1 = posted x ++ [p]
              /\ fetch p = FetchRejects e
              /\ forwarded processedRequestBody (world x) p
     end.
Proof.
  unfold post. unfold mbind at 1, ST_bind at 1.
  destruct (lift _ x) as [xa ra] eqn:Ha. apply lift_frame in Ha.
  destruct Ha as (Ha & Hpa & Hra).
  assert (Hwa : world xa = world x).
  { unfold mbind, ST_bind in Ha.
    destruct (get_named _ _ (world x)) as [w1 [a|e]] eqn:Hget;
      apply get_named_world in Hget; subst w1;
      [unfold to_String in Ha|]; now injection Ha as <- _. }
  destruct ra as [auth|e]; [|intros [= <- <-]; auto].
  unfold mbind at 1, ST_bind at 1.
  destruct (lift _ xa) as [xb rb] eqn:Hb. apply lift_frame in Hb.
  destruct Hb as (Hb & Hpb & Hrb).
  assert (Hwb : world xb = world xa).
  { unfold mbind, ST_bind in Hb.
    destruct (get_named _ _ (world xa)) as [w1 [a|e]] eqn:Hget;
      apply get_named_world in Hget; subst w1;
      [unfold to_String in Hb|]; now injection Hb as <- _. }
  destruct rb as [org|e];
    [|intros [= <- <-]; repeat split; try congruence; left; congruence].
  unfold mbind at 1, ST_bind at 1.
  destruct (lift _ xb) as [xc rc] eqn:Hc. apply lift_frame in Hc.
  destruct Hc as (Hc & Hpc & Hrc).
  pose proof (stringify_literal_world _ _ _ _ Hc) as Hwc.
  destruct rc as [text|e];
    [|intros [= <- <-]; repeat split; try congruence; left; congruence].
  assert (Hforwarded : forall p, payload p = text -> url p = upstream_url ->
                                 forwarded processedRequestBody (world x) p).
  { intros p Hpayload Hurl. split; [exact Hurl|].
    rewrite Hpayload, <- Hwa, <- Hwb. rewrite Hwc in Hc. exact Hc. }
  unfold send.
  destruct (fetch _) as [e|openaiResponse] eqn:Hfetch; intros [= <- <-];
    cbn [world posted res].
  - repeat split; try congruence. right. eexists.
    split; [f_equal; congruence|]. split; [exact Hfetch|].
    now apply Hforwarded.
  - repeat split; try congruence. eexists.
    split; [f_equal; congruence|]. split; [exact Hfetch|].
    now apply Hforwarded.
Qed.

(** [res.write] and [res.end] on the response itself. *)
Definition written (text : string) (r : ServerResponse) : ServerResponse :=
  with_calls (calls r ++ [if writableEnded r then WriteAfterEnd text
                          else Chunk text]) r.

Definition ended (r : ServerResponse) : ServerResponse :=
  if writableEnded r then r else with_calls (calls r ++ [End]) r.

Definition with_status (code : Z) (r : ServerResponse) : ServerResponse :=
  {| statusCode := code; headers := headers r; calls := calls r |}.

Definition with_res (r : ServerResponse) (x : Exchange) : Exchange :=
  {| world := world x; posted := posted x; res := r |}.

Lemma res_write_eq text x :
  res_write text x = (with_res (written text (res x)) x, Return tt).
Proof. reflexivity. Qed.

Lemma res_end_eq x : res_end x = (with_res (ended (res x)) x, Return tt).
Proof. reflexivity. Qed.

Lemma res_send_eq text x :
  res_send text x = (with_res (ended (written text (res x))) x, Return tt).
Proof. reflexivity. Qed.

Lemma status_send_eq code text x :
  (res_status code;; res_send text) x
    = (with_res (ended (written text (with_status code (res x)))) x,
       Return tt).
Proof. reflexivity. Qed.

Lemma ended_writableEnded r : writableEnded (ended r) = true.
Proof.
  unfold ended. destruct (writableEnded r) eqn:Hended; [exact Hended|].
  unfold writableEnded. cbn [calls with_calls].
  rewrite existsb_app. cbn. apply orb_true_r.
Qed.

Lemma ended_statusCode r : statusCode (ended r) = statusCode r.
Proof. unfold ended. now destruct (writableEnded r). Qed.

Lemma written_statusCode text r : statusCode (written text r) = statusCode r.
Proof. reflexivity. Qed.

Lemma ended_headers r : headers (ended r) = headers r.
Proof. unfold ended. now destruct (writableEnded r). Qed.

Lemma written_headers text r : headers (written text r) = headers r.
Proof. reflexivity. Qed.

Lemma sent_calls text r :
  calls r = [] -> calls (ended (written text r)) = [Chunk text; End].
Proof.
  intros Hempty. unfold ended, written, writableEnded. rewrite Hempty.
  reflexivity.
Qed.

(** One event of the stream never fails, and leaves the status and the
    requests sent as they are. *)
Lemma on_event_total tr meta event x :
  exists x',
    on_event tr meta event x = (x', Return tt)
    /\ statusCode (res x') = statusCode (res x)
    /\ headers (res x') = headers (res x)
    /\ posted x' = posted x.
Proof.
  destruct event as [data|n]; cbn [on_event]; [|eauto].
  destruct (truthy (VStr data)); [|eauto].
  unfold try_catch. unfold mbind at 1, ST_bind at 1.
  destruct (lift (processResponse tr (VStr data) meta) x)
    as [x1 [processedData|e]] eqn:Hanswer;
    apply lift_frame in Hanswer; destruct Hanswer as (_ & Hposted & Hres).
  - unfold mbind at 1, ST_bind at 1, lift at 1, to_String at 1.
    unfold mbind at 1, ST_bind at 1. rewrite res_write_eq.
    destruct (strictly_string processedData sentinel).
    + rewrite res_end_eq. eexists. split; [reflexivity|].
      cbn [res posted with_res].
      rewrite ended_statusCode, written_statusCode, ended_headers,
        written_headers, Hres. auto.
    + eexists. split; [reflexivity|]. cbn [res posted with_res].
      rewrite written_statusCode, written_headers, Hres. auto.
  - rewrite res_write_eq. eexists. split; [reflexivity|].
    cbn [res posted with_res].
    rewrite written_statusCode, written_headers, Hres. auto.
Qed.

(** The relay never fails and always ends the response. *)
Lemma relay_total tr meta events :
  forall x, exists x',
    relay tr meta events x = (x', Return tt)
    /\ writableEnded (res x') = true
    /\ statusCode (res x') = statusCode (res x)
    /\ headers (res x') = headers (res x)
    /\ posted x' = posted x.
Proof.
  induction events as [|event events IH]; intros x; cbn [relay].
  - rewrite res_end_eq. eexists. split; [reflexivity|].
    cbn [res posted with_res].
    rewrite ended_writableEnded, ended_statusCode, ended_headers. auto.
  - unfold mbind, ST_bind.
    destruct (on_event_total tr meta event x)
      as (x1 & -> & Hcode & Hheaders & Hposted).
    destruct (IH x1) as (x' & -> & Hended & Hcode' & Hheaders' & Hposted').
    exists x'. split; [reflexivity|]. repeat split; congruence.
Qed.

Lemma res_json_eq v x :
  res_json v x
    = match to_json (depth_bound (heap (world x))) (heap (world x)) v with
      | Return oj =>
          (with_res
             (ended
                (written (match oj with
                          | Some j => JSON.print j
                          | None => EmptyString
                          end)
                   {| statusCode := statusCode (res x);
                      headers := headers (res x)
                                   ++ [("Content-Type", "application/json")];
                      calls := calls (res x) |})) x,
           Return tt)
      | Throw e => (x, Throw e)
      end.
Proof. unfold res_json. now destruct (to_json _ _ v). Qed.

(** What the caller has got when the handler is done. *)
Definition answered (fetch : Posted -> fetched) (x' : Exchange) : Prop :=
  writableEnded (res x') = true
  /\ (length (posted x') <= 1)%nat
  /\ (statusCode (res x') = 200
      \/ statusCode (res x') = 500
      \/ exists p openaiResponse,
           posted x' = [p]
           /\ fetch p = FetchResolves openaiResponse
           /\ response_ok openaiResponse = false
           /\ statusCode (res x') = status openaiResponse).

Lemma answered_500 fetch text x :
  (length (posted x) <= 1)%nat ->
  answered fetch
    (with_res (ended (written text (with_status 500 (res x)))) x).
Proof.
  intros Hposted. unfold answered. cbn [res posted with_res].
  rewrite ended_writableEnded, ended_statusCode, written_statusCode. auto.
Qed.

(** What the caller gets for the answer of the upstream to the request
    [p], when that answer is no success: the status and the text of the
    answer, or 500 when the text cannot be read or there is no answer. *)
Definition mirrors (fetch : Posted -> fetched) (p : Posted)
    (r : ServerResponse) : Prop :=
  match fetch p with
  | FetchResolves openaiResponse =>
      response_ok openaiResponse = false ->
      match text openaiResponse with
      | Return errorText =>
          statusCode r = status openaiResponse
          /\ calls r = [Chunk errorText; End]
      | Throw _ =>
          statusCode r = 500
          /\ calls r = [Chunk "Internal Server Error"; End]
      end
  | FetchRejects e =>
      statusCode r = 500 /\ calls r = [Chunk "Internal Server Error"; End]
  end.

(** The call upstream and what follows it, in both modes: a response
    that is not ok is mirrored, one that is ok is handed on. *)
Lemma upstream_outcome fetch req processedRequestBody
    (continue : UpstreamResponse -> H unit) x x1 r :
  posted x = [] ->
  statusCode (res x) = 200 ->
  calls (res x) = [] ->
  (forall openaiResponse xd xr rr,
     statusCode (res xd) = 200 ->
     continue openaiResponse xd = (xr, rr) ->
     posted xr = posted xd
     /\ (rr = Return tt ->
         writableEnded (res xr) = true
         /\ (statusCode (res xr) = 200 \/ statusCode (res xr) = 500))) ->
  (openaiResponse ← post fetch req processedRequestBody;
   if negb (response_ok openaiResponse) then
     errorText ← await (text openaiResponse);
     res_status (status openaiResponse);;
     res_send errorText
   else continue openaiResponse) x = (x1, r) ->
  (length (posted x1) <= 1)%nat
  /\ (forall p, In p (posted x1) ->
                forwarded processedRequestBody (world x) p)
  /\ (forall p, In p (posted x1) ->
        match fetch p with
        | FetchResolves openaiResponse =>
            response_ok openaiResponse = false ->
            match text openaiResponse with
            | Return errorText =>
                r = Return tt
                /\ statusCode (res x1) = status openaiResponse
                /\ calls (res x1) = [Chunk errorText; End]
            | Throw e => r = Throw e /\ calls (res x1) = []
            end
        | FetchRejects e => r = Throw e /\ calls (res x1) = []
        end)
  /\ (r = Return tt -> answered fetch x1).
Proof.
  intros Hnone Hcode Hcalls Hcontinue. unfold mbind at 1, ST_bind at 1.
  destruct (post fetch req processedRequestBody x)
    as [xd [openaiResponse|e]] eqn:Hpost;
    apply post_frame in Hpost; destruct Hpost as (_ & Hres & Hposted).
  - destruct Hposted as (p & Hposted & Hfetch & Hforwarded).
    rewrite Hnone in Hposted. cbn [app] in Hposted.
    assert (Hin : forall q, In q [p] ->
                            forwarded processedRequestBody (world x) q)
      by (intros q [<-|[]]; exact Hforwarded).
    destruct (negb (response_ok openaiResponse)) eqn:Hok.
    + unfold mbind at 1, ST_bind at 1, await at 1.
      destruct (text openaiResponse) as [errorText|e] eqn:Htext.
      * rewrite status_send_eq. intros [= <- <-].
        cbn [posted with_res]. rewrite Hposted. split; [cbn; lia|].
        split; [exact Hin|].
        assert (Hsent : statusCode (res (with_res
                          (ended (written errorText
                             (with_status (status openaiResponse) (res xd))))
                          xd)) = status openaiResponse
                        /\ calls (res (with_res
                          (ended (written errorText
                             (with_status (status openaiResponse) (res xd))))
                          xd)) = [Chunk errorText; End]).
        { cbn [res with_res].
          rewrite ended_statusCode, written_statusCode.
          split; [reflexivity|]. apply sent_calls. cbn. congruence. }
        split.
        { intros q [<-|[]]. rewrite Hfetch, Htext. intros _.
          split; [reflexivity|exact Hsent]. }
        intros _. unfold answered. cbn [res posted with_res].
        rewrite ended_writableEnded, ended_statusCode, written_statusCode.
        split; [reflexivity|]. rewrite Hposted. split; [cbn; lia|].
        right. right. exists p, openaiResponse.
        apply negb_true_iff in Hok. auto.
      * intros [= <- <-]. rewrite Hposted. split; [cbn; lia|].
        split; [exact Hin|]. split; [|discriminate].
        intros q [<-|[]]. rewrite Hfetch, Htext. intros _.
        split; [reflexivity|congruence].
    + intros Hrun.
      destruct (Hcontinue openaiResponse xd x1 r) as [Hsame Hdone];
        [congruence|exact Hrun|].
      rewrite Hsame, Hposted. split; [cbn; lia|]. split; [exact Hin|].
      split.
      { intros q [<-|[]]. rewrite Hfetch. intros Hfalse.
        apply negb_false_iff in Hok. congruence. }
      intros Hr. destruct (Hdone Hr) as [Hended Hstatus].
      unfold answered. rewrite Hsame, Hposted.
      split; [exact Hended|]. split; [cbn; lia|].
      destruct Hstatus; auto.
  - intros [= <- <-]. rewrite Hnone in Hposted.
    destruct Hposted as [->|(p & -> & Hfetch & Hforwarded)].
    + split; [cbn; lia|]. split; [intros p []|].
      split; [intros p []|discriminate].
    + split; [cbn; lia|].
      split; [intros q [<-|[]]; exact Hforwarded|].
      split; [|discriminate].
      intros q [<-|[]]. rewrite Hfetch. split; [reflexivity|congruence].
Qed.

(** The handler from end to end. *)
Lemma chat_completions_outcome tr fetch req w :
  exists x',
    chat_completions tr fetch req (begin w) = (x', Return tt)
    /\ answered fetch x'
    /\ (forall p, In p (posted x') ->
          exists w1 w2 messages meta processedMessages,
            prepare req w = (w1, Return (messages, meta))
            /\ processPrompt tr messages meta w1
                 = (w2, Return processedMessages)
            /\ forwarded (set "messages" processedMessages (body req)) w2 p)
    /\ (forall p, In p (posted x') -> mirrors fetch p (res x')).
Proof.
  unfold chat_completions, try_catch.
  match goal with
  | |- context [match ?m (begin w) with _ => _ end] =>
      destruct (m (begin w)) as [x1 r] eqn:Hbody;
      assert (Hout : (length (posted x1) <= 1)%nat
                     /\ (forall p, In p (posted x1) ->
                           exists w1 w2 messages meta processedMessages,
                             prepare req w = (w1, Return (messages, meta))
                             /\ processPrompt tr messages meta w1
                                  = (w2, Return processedMessages)
                             /\ forwarded
                                  (set "messages" processedMessages (body req))
                                  w2 p)
                     /\ (forall p, In p (posted x1) ->
                           match fetch p with
                           | FetchResolves openaiResponse =>
                               response_ok openaiResponse = false ->
                               match text openaiResponse with
                               | Return errorText =>
                                   r = Return tt
                                   /\ statusCode (res x1)
                                        = status openaiResponse
                                   /\ calls (res x1)
                                        = [Chunk errorText; End]
                               | Throw e => r = Throw e /\ calls (res x1) = []
                               end
                           | FetchRejects e =>
                               r = Throw e /\ calls (res x1) = []
                           end)
                     /\ (r = Return tt -> answered fetch x1))
  end.
  { revert Hbody. unfold mbind at 1, ST_bind at 1.
    destruct (lift (prepare req) (begin w)) as [xa [[messages meta]|e]] eqn:Ha;
      apply lift_frame in Ha; destruct Ha as (Ha & Hpa & Hra);
      [|intros [= <- <-]; rewrite Hpa;
        split; [cbn; lia|
                split; [intros p []|split; [intros p []|discriminate]]]].
    unfold mbind at 1, ST_bind at 1.
    destruct (lift (processPrompt tr messages meta) xa)
      as [xb [processedMessages|e]] eqn:Hb;
      apply lift_frame in Hb; destruct Hb as (Hb & Hpb & Hrb);
      [|intros [= <- <-]; rewrite Hpb, Hpa;
        split; [cbn; lia|
                split; [intros p []|split; [intros p []|discriminate]]]].
    assert (Hwitness : forall p,
               forwarded (set "messages" processedMessages (body req))
                 (world xb) p ->
               exists w1 w2 messages meta processedMessages,
                 prepare req w = (w1, Return (messages, meta))
                 /\ processPrompt tr messages meta w1
                      = (w2, Return processedMessages)
                 /\ forwarded (set "messages" processedMessages (body req))
                      w2 p).
    { intros p Hp. exists (world xa), (world xb), messages, meta,
        processedMessages. auto. }
    destruct (strictly_true (get "stream" (body req))).
    - unfold mbind at 1, ST_bind at 1, res_setHeader at 1, on_res at 1.
      unfold mbind at 1, ST_bind at 1, res_setHeader at 1, on_res at 1.
      unfold mbind at 1, ST_bind at 1, res_setHeader at 1, on_res at 1.
      cbn [world posted res statusCode headers calls].
      intros Hbody. apply upstream_outcome in Hbody.
      + destruct Hbody as (Hlen & Hin & Hmirror & Hdone).
        split; [exact Hlen|]. split; [|split; [exact Hmirror|exact Hdone]].
        intros p Hp. apply Hwitness. exact (Hin p Hp).
      + cbn. now rewrite Hpb, Hpa.
      + cbn. now rewrite Hrb, Hra.
      + cbn. now rewrite Hrb, Hra.
      + intros openaiResponse xd xr rr Hcode.
        destruct (sse openaiResponse) as [events|].
        * destruct (relay_total tr meta events xd)
            as (x' & -> & Hended & Hcode' & _ & Hposted).
          intros [= <- <-]. split; [exact Hposted|]. intros _.
          split; [exact Hended|]. left. congruence.
        * rewrite status_send_eq. intros [= <- <-].
          split; [reflexivity|]. intros _. cbn [res with_res].
          rewrite ended_writableEnded, ended_statusCode, written_statusCode.
          auto.
    - intros Hbody. apply upstream_outcome in Hbody.
      + destruct Hbody as (Hlen & Hin & Hmirror & Hdone).
        split; [exact Hlen|]. split; [|split; [exact Hmirror|exact Hdone]].
        intros p Hp. apply Hwitness. exact (Hin p Hp).
      + now rewrite Hpb, Hpa.
      + now rewrite Hrb, Hra.
      + now rewrite Hrb, Hra.
      + intros openaiResponse xd xr rr Hcode.
        unfold mbind at 1, ST_bind at 1.
        destruct (lift (json openaiResponse) xd) as [xe [data|e]] eqn:He;
          apply lift_frame in He; destruct He as (_ & Hpe & Hre);
          [|intros [= <- <-]; split; [exact Hpe|discriminate]].
        unfold mbind at 1, ST_bind at 1.
        destruct (lift (processResponse tr data meta) xe)
          as [xf [processed|e]] eqn:Hf;
          apply lift_frame in Hf; destruct Hf as (_ & Hpf & Hrf);
          [|intros [= <- <-]; split; [congruence|discriminate]].
        rewrite res_json_eq.
        destruct (to_json _ _ processed) as [oj|e];
          intros [= <- <-]; [|split; [congruence|discriminate]].
        split; [cbn; congruence|]. intros _. cbn [res with_res].
        rewrite ended_writableEnded, ended_statusCode, written_statusCode.
        cbn [statusCode]. split; [reflexivity|]. left. congruence. }
  destruct Hout as (Hposted & Hin & Hmirror & Hdone). destruct r as [[]|e].
  - exists x1. split; [reflexivity|]. split; [exact (Hdone eq_refl)|].
    split; [exact Hin|]. intros p Hp. unfold mirrors.
    specialize (Hmirror p Hp). destruct (fetch p) as [e|openaiResponse].
    + now destruct Hmirror.
    + intros Hfalse. specialize (Hmirror Hfalse).
      destruct (text openaiResponse) as [errorText|e].
      * now destruct Hmirror as (_ & ? & ?).
      * now destruct Hmirror.
  - rewrite status_send_eq. eexists. split; [reflexivity|].
    split; [exact (answered_500 fetch _ x1 Hposted)|].
    split; [exact Hin|]. intros p Hp. unfold mirrors.
    specialize (Hmirror p Hp). cbn [posted res with_res].
    rewrite ended_statusCode, written_statusCode.
    destruct (fetch p) as [e'|openaiResponse].
    + destruct Hmirror as [_ Hcalls].
      split; [reflexivity|]. now apply sent_calls.
    + intros Hfalse. specialize (Hmirror Hfalse).
      destruct (text openaiResponse) as [errorText|e'].
      * now destruct Hmirror as (? & _).
      * destruct Hmirror as [_ Hcalls].
        split; [reflexivity|]. now apply sent_calls.
Qed.





(** X10. A request that the handler sends upstream goes to the
    chat-completions URL, and its body is the request body with
    [messages] replaced by what [processPrompt] returned, as
    [JSON.stringify] shows it after [processPrompt] has run: what the
    transformer changed in place is what the upstream reads.  Nothing is
    sent unless [processPrompt] has returned. *)
Theorem forwarded_body_follows_processPrompt tr fetch req w p :
  In p (posted (fst (chat_completions tr fetch req (begin w)))) ->
  exists w1 w2 messages meta processedMessages,
    prepare req w = (w1, Return (messages, meta))
    /\ processPrompt tr messages meta w1 = (w2, Return processedMessages)
    /\ url p = upstream_url
    /\ stringify_literal (set "messages" processedMessages (body req)) w2
         = (w2, Return (payload p)).
Proof.
  destruct (chat_completions_outcome tr fetch req w)
    as (x' & -> & _ & Hin & _).
  exact (Hin p).
Qed.

(** X11. When the upstream answers the request with a status that is
    not 2xx, in either mode, the handler reads the text of the answer:
    when that can be read, the caller is answered with the status of the
    upstream and with that text, and nothing else is written; when it
    cannot, the caller is answered with status 500 and the body
    "Internal Server Error". *)
Theorem upstream_error_is_mirrored tr fetch req w p openaiResponse :
  In p (posted (fst (chat_completions tr fetch req (begin w)))) ->
  fetch p = FetchResolves openaiResponse ->
  response_ok openaiResponse = false ->
  match text openaiResponse with
  | Return errorText =>
      statusCode (res (fst (chat_completions tr fetch req (begin w))))
        = status openaiResponse
      /\ calls (res (fst (chat_completions tr fetch req (begin w))))
           = [Chunk errorText; End]
  | Throw _ =>
      statusCode (res (fst (chat_completions tr fetch req (begin w)))) = 500
      /\ calls (res (fst (chat_completions tr fetch req (begin w))))
           = [Chunk "Internal Server Error"; End]
  end.
Proof.
  destruct (chat_completions_outcome tr fetch req w)
    as (x' & -> & _ & _ & Hmirror).
  cbn [fst]. intros Hp Hfetch Hfalse. specialize (Hmirror p Hp).
  unfold mirrors in Hmirror. rewrite Hfetch in Hmirror.
  exact (Hmirror Hfalse).
Qed.

(** X12. When the call upstream fails (the promise of [fetch] rejects),
    in either mode, the caller is answered with status 500 and the body
    "Internal Server Error". *)
Theorem upstream_failure_answers_500 tr fetch req w p e :
  In p (posted (fst (chat_completions tr fetch req (begin w)))) ->
  fetch p = FetchRejects e ->
  statusCode (res (fst (chat_completions tr fetch req (begin w)))) = 500
  /\ calls (res (fst (chat_completions tr fetch req (begin w))))
       = [Chunk "Internal Server Error"; End].
Proof.
  destruct (chat_completions_outcome tr fetch req w)
    as (x' & -> & _ & _ & Hmirror).
  cbn [fst]. intros Hp Hfetch. specialize (Hmirror p Hp).
  unfold mirrors in Hmirror. now rewrite Hfetch in Hmirror.
Qed.

(** X13. A request that does not ask for a stream, answered by the
    upstream with a 2xx status: the body of the answer is read as JSON,
    handed to [processResponse], and what that returns is sent to the
    caller as JSON, with status 200 and the content type of JSON. *)
Theorem plain_answer_is_processed_json tr fetch req w w1 w2 messages meta
    processedMessages x1 openaiResponse w3 data w4 processed oj :
  prepare req w = (w1, Return (messages, meta)) ->
  processPrompt tr messages meta w1 = (w2, Return processedMessages) ->
  strictly_true (get "stream" (body req)) = false ->
  post fetch req (set "messages" processedMessages (body req)) (ready false w2)
    = (x1, Return openaiResponse) ->
  response_ok openaiResponse = true ->
  json openaiResponse w2 = (w3, Return data) ->
  processResponse tr data meta w3 = (w4, Return processed) ->
  to_json (depth_bound (heap w4)) (heap w4) processed = Return oj ->
  chat_completions tr fetch req (begin w)
    = ({| world := w4; posted := posted x1;
          res := {| statusCode := 200;
                    headers := [("Content-Type", "application/json")];
                    calls := [Chunk (match oj with
                                     | Some j => JSON.print j
                                     | None => EmptyString
                                     end); End] |} |},
       Return tt).
Proof.
  intros Hprepare Hprompt Hstream Hpost Hok Hjson Hresponse Hshown.
  pose proof (post_frame _ _ _ _ _ _ Hpost) as (Hworld & Hres & _).
  cbn [world res ready] in Hworld, Hres.
  unfold chat_completions, try_catch.
  unfold mbind at 1, ST_bind at 1, lift at 1. cbn [world begin].
  rewrite Hprepare. cbn [posted res].
  unfold mbind at 1, ST_bind at 1, lift at 1. cbn [world].
  rewrite Hprompt. cbn [posted res]. rewrite Hstream.
  unfold mbind at 1, ST_bind at 1.
  match goal with
  | |- context [post _ _ _ ?st] => change st with (ready false w2)
  end.
  rewrite Hpost, Hok. cbn [negb].
  unfold mbind at 1, ST_bind at 1, lift at 1. rewrite Hworld, Hjson.
  unfold mbind at 1, ST_bind at 1, lift at 1. cbn [world posted res].
  rewrite Hresponse. rewrite res_json_eq. cbn [world posted res].
  rewrite Hshown, Hres. reflexivity.
Qed.

(** A request with its headers in the store, and three upstreams. *)
Definition chat_heap : gmap nat cell :=
  <[2%nat := Obj [("authorization", VStr "Bearer k")]]> hi_heap.

Definition w_chat : World :=
  {| heap := chat_heap;
     files := {| Fs.entries := ∅; Fs.denied := ∅; Fs.short := ∅ |};
     env := <["HOME" := "/home/u"]> ∅;
     clock := noon |}.

Definition req_chat : Request :=
  {| body := [("model", VStr "gpt-4"); ("messages", VRef 0)];
     req_headers := VRef 2; ip := VStr "127.0.0.1";
     path := VStr "/v1/chat/completions"; method := VStr "POST" |}.

Definition sent_hi : Posted :=
  {| url := upstream_url; authorization := "Bearer k";
     organization := EmptyString;
     payload :=
       JSON.print
         (JSON.JObj
            [("model", JSON.JStr "gpt-4");
             ("messages",
              JSON.JArr
                [JSON.JObj [("role", JSON.JStr "user");
                            ("content", JSON.JStr "[DEBUG] hi")]])]) |}.

Definition upstream_down (p : Posted) : fetched :=
  FetchRejects "ECONNREFUSED".


Lemma forwarded_body_follows_processPrompt_witness :
  posted (fst (chat_completions orchestratorAdapter upstream_ok req_chat
                 (begin w_chat))) = [sent_hi]
  /\ exists w1 w2 messages meta processedMessages,
       prepare req_chat w_chat = (w1, Return (messages, meta))
       /\ processPrompt orchestratorAdapter messages meta w1
            = (w2, Return processedMessages)
       /\ url sent_hi = upstream_url
       /\ stringify_literal
            (set "messages" processedMessages (body req_chat)) w2
            = (w2, Return (payload sent_hi)).
Proof.
  split; [vm_compute; reflexivity|].
  apply (forwarded_body_follows_processPrompt orchestratorAdapter upstream_ok
           req_chat w_chat sent_hi).
  vm_compute. left. reflexivity.
Defined.

Definition busy : UpstreamResponse :=
  {| status := 429; text := Return "slow down"; sse := None;
     json := mret VNull |}.

Definition upstream_busy (p : Posted) : fetched := FetchResolves busy.

(** An answer that breaks off before its text is read. *)
Definition broken : UpstreamResponse :=
  {| status := 502; text := Throw "TypeError: terminated"; sse := None;
     json := mret VNull |}.

Definition upstream_broken (p : Posted) : fetched := FetchResolves broken.

Lemma upstream_error_is_mirrored_witness :
  (statusCode (res (fst (chat_completions orchestratorAdapter upstream_busy
                           req_chat (begin w_chat)))) = 429
   /\ calls (res (fst (chat_completions orchestratorAdapter upstream_busy
                         req_chat (begin w_chat))))
        = [Chunk "slow down"; End])
  /\ (statusCode (res (fst (chat_completions orchestratorAdapter
                              upstream_broken req_chat (begin w_chat)))) = 500
      /\ calls (res (fst (chat_completions orchestratorAdapter upstream_broken
                            req_chat (begin w_chat))))
           = [Chunk "Internal Server Error"; End]).
Proof.
  split.
  - apply (upstream_error_is_mirrored orchestratorAdapter upstream_busy
             req_chat w_chat sent_hi busy);
      [vm_compute; left; reflexivity|reflexivity|reflexivity].
  - apply (upstream_error_is_mirrored orchestratorAdapter upstream_broken
             req_chat w_chat sent_hi broken);
      [vm_compute; left; reflexivity|reflexivity|reflexivity].
Defined.

Lemma upstream_failure_answers_500_witness :
  statusCode (res (fst (chat_completions orchestratorAdapter upstream_down
                          req_chat (begin w_chat)))) = 500
  /\ calls (res (fst (chat_completions orchestratorAdapter upstream_down
                        req_chat (begin w_chat))))
       = [Chunk "Internal Server Error"; End].
Proof.
  apply (upstream_failure_answers_500 orchestratorAdapter upstream_down
           req_chat w_chat sent_hi "ECONNREFUSED");
    [vm_compute; left; reflexivity|reflexivity].
Defined.

Lemma plain_answer_is_processed_json_witness :
  calls (res (fst (chat_completions orchestratorAdapter upstream_ok req_chat
                     (begin w_chat)))) = [Chunk "null"; End].
Proof.
  pose (w1 := fst (prepare req_chat w_chat)).
  pose (w2 := fst (processPrompt orchestratorAdapter (VRef 0) (VRef 3) w1)).
  pose (w4 := fst (processResponse orchestratorAdapter VNull (VRef 3) w2)).
  rewrite (plain_answer_is_processed_json orchestratorAdapter upstream_ok
             req_chat w_chat w1 w2 (VRef 0) (VRef 3) (VRef 0)
             {| world := w2; posted := [sent_hi];
                res := res (ready false w2) |}
             {| status := 200; text := Return EmptyString; sse := None;
                json := mret VNull |}
             w2 VNull w4 VNull (Some JSON.JNull));
    [reflexivity|vm_compute; reflexivity..].
Defined.

End Answers.

(* --------------------------------------------------------------------- *)
(** ** The log of the adapter over several calls                           *)
(* --------------------------------------------------------------------- *)

Section AdapterLog.
Import JS Runtime OrchestratorAdapter.
#[local] Arguments append !_ _ / : simpl nomatch.

(** What [mkdirSync] and [appendFileSync] leave alone, whether they
    return or throw. *)
Lemma mkdir_step_other leaf p f f' r path :
  Fs.mkdir_step leaf p f = (f', r) ->
  path <> p ->
  Fs.entries f' !! path = Fs.entries f !! path.
Proof.
  unfold Fs.mkdir_step.
  destruct (Fs.entries f !! p) as [[|content]|]; try now intros [= <- _].
  destruct (bool_decide (p ∈ Fs.denied f)); intros [= <- _] Hne;
    [reflexivity|].
  cbn [Fs.entries Fs.with_entry]. now rewrite lookup_insert_ne.
Qed.

Lemma mkdir_step_files leaf p f f' r path content :
  Fs.mkdir_step leaf p f = (f', r) ->
  Fs.entries f' !! path = Some (Fs.File content)
  <-> Fs.entries f !! path = Some (Fs.File content).
Proof.
  intros Hstep. destruct (decide (path = p)) as [->|Hne];
    [|now rewrite (mkdir_step_other _ _ _ _ _ _ Hstep Hne)].
  revert Hstep. unfold Fs.mkdir_step.
  destruct (Fs.entries f !! p) as [[|content']|] eqn:Hp;
    try (intros [= <- _]; now rewrite Hp).
  destruct (bool_decide (p ∈ Fs.denied f)); intros [= <- _];
    [now rewrite Hp|].
  cbn [Fs.entries Fs.with_entry]. rewrite lookup_insert_eq.
  split; discriminate.
Qed.


Lemma mkdir_way_files paths : forall f f' r path content,
  Fs.mkdir_way paths f = (f', r) ->
  Fs.entries f' !! path = Some (Fs.File content)
  <-> Fs.entries f !! path = Some (Fs.File content).
Proof.
  induction paths as [|p paths IH]; intros f f' r path content;
    cbn [Fs.mkdir_way].
  - now intros [= <- _].
  - unfold mbind, ST_bind. intros Hrun.
    destruct (Fs.mkdir_step false p f) as [f1 [[]|e]] eqn:Hstep.
    + rewrite (IH _ _ _ _ _ Hrun). eapply mkdir_step_files; eauto.
    + injection Hrun as <- _. eapply mkdir_step_files; eauto.
Qed.

Lemma mkdirSync_files dir f f' r path content :
  Fs.mkdirSync dir f = (f', r) ->
  Fs.entries f' !! path = Some (Fs.File content)
  <-> Fs.entries f !! path = Some (Fs.File content).
Proof.
  unfold Fs.mkdirSync, mbind, ST_bind.
  destruct (Fs.mkdir_way (Fs.ancestors dir) f) as [f1 [[]|e]] eqn:Hway.
  - intros Hstep. rewrite (mkdir_step_files _ _ _ _ _ _ _ Hstep).
    eapply mkdir_way_files; eauto.
  - intros [= <- _]. eapply mkdir_way_files; eauto.
Qed.

Lemma appendFileSync_other path data f f' r path' :
  Fs.appendFileSync path data f = (f', r) ->
  path' <> path ->
  Fs.entries f' !! path' = Fs.entries f !! path'.
Proof.
  unfold Fs.appendFileSync.
  destruct (bool_decide (path ∈ Fs.denied f)); [now intros [= <- _]|].
  destruct (match Fs.dirname path with
            | Some parent => Fs.entries f !! parent
            | None => Some Fs.Dir
            end) as [[|?]|]; try now intros [= <- _].
  destruct (Fs.entries f !! path) as [[|content]|]; try (now intros [= <- _]);
    destruct (Fs.short f !! path) as [n|];
    try destruct (n <? String.length data)%nat;
    intros [= <- _] Hne; cbn [Fs.entries Fs.with_entry];
    now rewrite lookup_insert_ne.
Qed.

(** Every way a call of [logRequest] can end: nothing but the files has
    changed, and of the files none but the log file of the day. *)
Lemma logRequest_outcome p data w w' r :
  logRequest p data w = (w', r) ->
  w' = with_files (files w') w
  /\ forall path content,
       path <> logFile_of w ->
       Fs.entries (files w') !! path = Some (Fs.File content)
       <-> Fs.entries (files w) !! path = Some (Fs.File content).
Proof.
  unfold logRequest. unfold mbind at 1, ST_bind at 1.
  rewrite log_directory_eq.
  unfold mbind at 1, ST_bind at 1, on_files at 1. cbn [files].
  rewrite with_files_same.
  unfold mbind at 1, ST_bind at 1.
  destruct ((if negb (Fs.existsSync (logDir_of w) (files w))
             then on_files (Fs.mkdirSync (logDir_of w)) else mret tt) w)
    as [w1 r1] eqn:Hdir.
  assert (Hw1 : w1 = with_files (files w1) w
                /\ forall path content,
                     Fs.entries (files w1) !! path = Some (Fs.File content)
                     <-> Fs.entries (files w) !! path
                         = Some (Fs.File content)).
  { destruct (negb (Fs.existsSync (logDir_of w) (files w))).
    - unfold on_files in Hdir.
      destruct (Fs.mkdirSync (logDir_of w) (files w)) as [f1 r1'] eqn:Hmk.
      injection Hdir as <- _. split; [reflexivity|].
      intros path content. eapply mkdirSync_files; eauto.
    - injection Hdir as <- _. split; [now rewrite with_files_same|].
      reflexivity. }
  destruct Hw1 as [Hw1 Hfiles1].
  destruct r1 as [[]|e]; [|intros [= <- _]; split; [exact Hw1|auto]].
  unfold mbind at 1, ST_bind at 1, new_Date at 1.
  unfold mbind at 1, ST_bind at 1, stringify_entry at 1.
  destruct (literal_to_json _ _ data) as [js|e];
    [|intros [= <- _]; split; [exact Hw1|auto]].
  unfold on_files.
  destruct (Fs.appendFileSync _ _ (files w1)) as [f2 r2] eqn:Happ.
  intros [= <- _]. cbn [files with_files].
  split; [rewrite Hw1; reflexivity|].
  intros path content Hne. rewrite <- Hfiles1.
  rewrite Hw1 in Happ. cbn [clock with_files] in Happ.
  now rewrite (appendFileSync_other _ _ _ _ _ _ Happ Hne).
Qed.

(** X14. A call of [logRequest], whether it returns or throws, changes
    no array or object and no variable of the environment, and of the
    files none but the log file of the day: every other file is there
    afterwards with the content it had, and no other file has come into
    being.  (The call may create the log directory.) *)
Theorem logRequest_changes_one_file p data w w' r :
  logRequest p data w = (w', r) ->
  heap w' = heap w
  /\ env w' = env w
  /\ (forall path content,
        path <> logFile_of w ->
        Fs.entries (files w') !! path = Some (Fs.File content)
        <-> Fs.entries (files w) !! path = Some (Fs.File content)).
Proof.
  intros Hrun. destruct (logRequest_outcome p data w w' r Hrun) as [Hw' Hfiles].
  split; [now rewrite Hw'|]. split; [now rewrite Hw'|exact Hfiles].
Qed.

Lemma logRequest_changes_one_file_witness :
  logRequest inbound hi_data w_home
    = (fst (logRequest inbound hi_data w_home), Return tt)
  /\ heap (fst (logRequest inbound hi_data w_home)) = heap w_home
  /\ forall path content,
       path <> logFile_of w_home ->
       Fs.entries (files (fst (logRequest inbound hi_data w_home))) !! path
         = Some (Fs.File content)
       <-> Fs.entries (files w_home) !! path = Some (Fs.File content).
Proof.
  assert (Hrun : logRequest inbound hi_data w_home
                 = (fst (logRequest inbound hi_data w_home), Return tt))
    by (vm_compute; reflexivity).
  split; [exact Hrun|].
  destruct (logRequest_changes_one_file inbound hi_data w_home _ _ Hrun)
    as (Hheap & _ & Hfiles).
  split; [exact Hheap|exact Hfiles].
Defined.

(** A write that breaks off leaves a part of the record in the log file:
    here its first ten characters. *)
Definition w_full : World :=
  {| heap := hi_heap;
     files := {| Fs.entries := ∅; Fs.denied := ∅;
                 Fs.short :=
                   {["/home/u/.orchestrator/logs/2025-05-07.log" := 10%nat]} |};
     env := <["HOME" := "/home/u"]> ∅;
     clock := noon |}.

Lemma logRequest_may_leave_part_of_a_record :
  snd (logRequest inbound hi_data w_full)
    = Throw "ENOSPC: no space left on device, write"
  /\ Fs.content_of (logFile_of w_full)
       (files (fst (logRequest inbound hi_data w_full)))
     = substring 0 10 (JSON.print hi_record).
Proof. split; vm_compute; reflexivity. Qed.

(** The directory is a matter of the environment alone. *)
Lemma logDir_of_env w1 w2 : env w1 = env w2 -> logDir_of w1 = logDir_of w2.
Proof.
  intros Henv. unfold logDir_of, log_directory, mbind, ST_bind, getenv,
    to_String, mret, ST_ret. cbn [snd]. rewrite Henv.
  destruct (env w2 !! "USERPROFILE") as [u|];
    destruct (env w2 !! "HOME") as [h|]; unfold or_else; cbn [truthy];
    repeat match goal with
           | |- context [negb ?b] => destruct (negb b); cbn [truthy]
           end; reflexivity.
Qed.

(** X15. Two calls of [logRequest] that return, the second at a moment
    of the same local day in the same environment and on the files the
    first has left: the log file of that day holds what it held before,
    then the record of the first call, then the record of the second,
    each on a line of its own. *)
Theorem same_day_records_follow_in_order p1 data1 p2 data2 w w1 w1' w2 :
  logRequest p1 data1 w = (w1, Return tt) ->
  files w1' = files w1 ->
  env w1' = env w ->
  log_file_name (clock w1') = log_file_name (clock w) ->
  logRequest p2 data2 w1' = (w2, Return tt) ->
  exists js1 js2,
    literal_to_json (depth_bound (heap w)) (heap w) data1 = Return js1
    /\ literal_to_json (depth_bound (heap w1')) (heap w1') data2 = Return js2
    /\ Fs.content_of (logFile_of w) (files w2)
         = Fs.content_of (logFile_of w) (files w)
             +:+ JSON.print (entry_json (Clock.toISOString (clock w)) p1 js1)
             +:+ line_feed
             +:+ JSON.print (entry_json (Clock.toISOString (clock w1')) p2 js2)
             +:+ line_feed.
Proof.
  intros Hfirst Hfiles Henv Hday Hsecond.
  destruct (logRequest_Return _ _ _ _ Hfirst) as (js1 & Hjs1 & ->).
  destruct (logRequest_Return _ _ _ _ Hsecond) as (js2 & Hjs2 & ->).
  exists js1, js2. split; [exact Hjs1|]. split; [exact Hjs2|].
  assert (Hdir : logDir_of w1' = logDir_of w) by now apply logDir_of_env.
  assert (Hfile : logFile_of w1' = logFile_of w).
  { unfold logFile_of. now rewrite Hdir, Hday. }
  cbn [files with_files] in *. rewrite Hfile, Hdir, Hfiles.
  rewrite content_of_with_appended.
  rewrite content_of_with_directory by apply logFile_not_logDir.
  rewrite content_of_with_appended.
  rewrite content_of_with_directory by apply logFile_not_logDir.
  now rewrite !append_assoc.
Qed.

(** An hour after [noon], on the same day. *)
Definition one_o_clock : Clock.Date :=
  {| Clock.getFullYear := 2025; Clock.getMonth := 4; Clock.getDate := 7;
     Clock.getUTCFullYear := 2025; Clock.getUTCMonth := 4;
     Clock.getUTCDate := 7; Clock.getUTCHours := 11;
     Clock.getUTCMinutes := 5; Clock.getUTCSeconds := 9;
     Clock.getUTCMilliseconds := 42 |}.

Definition at_time (d : Clock.Date) (w : World) : World :=
  {| heap := heap w; files := files w; env := env w; clock := d |}.

Lemma same_day_records_follow_in_order_witness :
  exists js1 js2,
    literal_to_json (depth_bound (heap w_home)) (heap w_home) hi_data
      = Return js1
    /\ literal_to_json (depth_bound (heap w_home)) (heap w_home)
         [("chunk", VStr "ok"); ("meta", VNull)] = Return js2
    /\ Fs.content_of (logFile_of w_home)
         (files (fst (logRequest outbound [("chunk", VStr "ok"); ("meta", VNull)]
                        (at_time one_o_clock
                           (fst (logRequest inbound hi_data w_home))))))
         = Fs.content_of (logFile_of w_home) (files w_home)
             +:+ JSON.print (entry_json (Clock.toISOString noon) inbound js1)
             +:+ line_feed
             +:+ JSON.print
                   (entry_json (Clock.toISOString one_o_clock) outbound js2)
             +:+ line_feed.
Proof.
  apply (same_day_records_follow_in_order inbound hi_data outbound
           [("chunk", VStr "ok"); ("meta", VNull)] w_home
           (fst (logRequest inbound hi_data w_home))
           (at_time one_o_clock (fst (logRequest inbound hi_data w_home))));
    vm_compute; reflexivity.
Defined.

(** X16. The name of the log file tells the local day: it spells the
    year, the month and the day of the month of the moment of the call,
    so that two moments whose log files have the same name are moments
    of the same local day. *)
Theorem log_file_name_tells_the_day d1 d2 :
  0 <= Clock.getMonth d1 <= 11 -> 1 <= Clock.getDate d1 <= 31 ->
  0 <= Clock.getMonth d2 <= 11 -> 1 <= Clock.getDate d2 <= 31 ->
  read_log_file_name (log_file_name d1)
    = Some (Clock.getFullYear d1, Clock.getMonth d1 + 1, Clock.getDate d1)
  /\ (log_file_name d1 = log_file_name d2 ->
      Clock.getFullYear d1 = Clock.getFullYear d2
      /\ Clock.getMonth d1 = Clock.getMonth d2
      /\ Clock.getDate d1 = Clock.getDate d2).
Proof.
  intros Hm1 Hd1 Hm2 Hd2.
  split; [now apply read_log_file_name_eq|]. intros Hname.
  pose proof (read_log_file_name_eq d1 Hm1 Hd1) as H1.
  pose proof (read_log_file_name_eq d2 Hm2 Hd2) as H2.
  rewrite Hname, H2 in H1. injection H1 as Hyear Hmonth Hdate.
  lia.
Qed.

Lemma log_file_name_tells_the_day_witness :
  read_log_file_name (log_file_name noon) = Some (2025, 5, 7)
  /\ (log_file_name noon = log_file_name one_o_clock ->
      Clock.getFullYear noon = Clock.getFullYear one_o_clock
      /\ Clock.getMonth noon = Clock.getMonth one_o_clock
      /\ Clock.getDate noon = Clock.getDate one_o_clock).
Proof.
  apply (log_file_name_tells_the_day noon one_o_clock); cbn; lia.
Defined.

(** X17. The record that [processPrompt] writes is made before the
    first message is touched: a call that returns has added one line to
    the log file of the day, and the line shows the messages as they were
    when the call began, without the mark. *)
Theorem processPrompt_logs_the_original messages meta w w' v :
  processPrompt messages meta w = (w', Return v) ->
  exists js,
    literal_to_json (depth_bound (heap w)) (heap w)
      [("messages", messages); ("meta", meta)] = Return js
    /\ Fs.content_of (logFile_of w) (files w')
         = Fs.content_of (logFile_of w) (files w)
             +:+ JSON.print
                   (entry_json (Clock.toISOString (clock w)) inbound js)
             +:+ line_feed.
Proof.
  intros Hrun.
  destruct (processPrompt_Return _ _ _ _ _ Hrun) as (_ & w1 & Hlog & Hfirst).
  destruct (logRequest_Return _ _ _ _ Hlog) as (js & Hjs & Hw1).
  exists js. split; [exact Hjs|].
  assert (Hfiles : files w' = files w1).
  { destruct (first_element (heap w) messages) as [m0|]; [|now subst w'].
    destruct Hfirst as (content & _ & Hset).
    destruct (truthy content); [|now subst w'].
    now apply set_named_files in Hset. }
  rewrite Hfiles, Hw1. cbn [files with_files].
  rewrite content_of_with_appended.
  now rewrite content_of_with_directory by apply logFile_not_logDir.
Qed.

Lemma processPrompt_logs_the_original_witness :
  exists js,
    literal_to_json (depth_bound (heap w_home)) (heap w_home)
      [("messages", VRef 0); ("meta", VNull)] = Return js
    /\ Fs.content_of (logFile_of w_home)
         (files (fst (processPrompt (VRef 0) VNull w_home)))
         = Fs.content_of (logFile_of w_home) (files w_home)
             +:+ JSON.print
                   (entry_json (Clock.toISOString (clock w_home)) inbound js)
             +:+ line_feed.
Proof.
  apply (processPrompt_logs_the_original (VRef 0) VNull w_home
           (fst (processPrompt (VRef 0) VNull w_home)) (VRef 0)).
  vm_compute. reflexivity.
Defined.

(** X18. [processPrompt] is not idempotent: called again on the array it
    has returned, it marks the first message again, so that the content
    then begins with the mark twice. *)
Theorem processPrompt_twice_marks_twice l lo rest props meta meta' w w1 v1
    w2 v2 :
  heap w !! l = Some (Arr (VRef lo :: rest)) ->
  heap w !! lo = Some (Obj props) ->
  truthy (get "content" props) = true ->
  processPrompt (VRef l) meta w = (w1, Return v1) ->
  processPrompt v1 meta' w1 = (w2, Return v2) ->
  v2 = VRef l
  /\ first_content (heap w2) (VRef l)
       = VStr ("[DEBUG] [DEBUG] "
                 +:+ to_string (depth_bound (heap w)) (heap w)
                       (get "content" props)).
Proof.
  intros Hl Hlo Htruthy Hfirst Hsecond.
  destruct (processPrompt_marks _ _ _ _ _ _ _ _ Hl Hlo Htruthy Hfirst)
    as [-> Hheap1].
  assert (Hne : l <> lo) by (intros ->; congruence).
  assert (Hl1 : heap w1 !! l = Some (Arr (VRef lo :: rest))).
  { rewrite Hheap1. unfold remarked. now rewrite lookup_insert_ne. }
  assert (Hlo1 : heap w1 !! lo
                 = Some (Obj (set "content"
                                (marked (heap w) (get "content" props))
                                props))).
  { rewrite Hheap1. unfold remarked. now rewrite lookup_insert_eq. }
  assert (Htruthy1 : truthy (get "content"
                               (set "content"
                                  (marked (heap w) (get "content" props))
                                  props)) = true)
    by now rewrite get_set_eq.
  destruct (processPrompt_marks _ _ _ _ _ _ _ _ Hl1 Hlo1 Htruthy1 Hsecond)
    as [-> Hheap2].
  split; [reflexivity|].
  unfold first_content, first_of, named.
  rewrite Hheap2. unfold remarked at 1 2.
  rewrite lookup_insert_ne by congruence. rewrite Hl1.
  rewrite lookup_insert_eq, !get_set_eq.
  unfold marked. now rewrite to_string_VStr.
Qed.

Lemma processPrompt_twice_marks_twice_witness :
  first_content
    (heap (fst (processPrompt (VRef 0) VNull
                  (fst (processPrompt (VRef 0) VNull w_home)))))
    (VRef 0)
    = VStr "[DEBUG] [DEBUG] hi".
Proof.
  exact (proj2 (processPrompt_twice_marks_twice 0 1 []
                  [("role", VStr "user"); ("content", VStr "hi")]
                  VNull VNull w_home
                  (fst (processPrompt (VRef 0) VNull w_home)) (VRef 0)
                  (fst (processPrompt (VRef 0) VNull
                          (fst (processPrompt (VRef 0) VNull w_home))))
                  (VRef 0) eq_refl eq_refl eq_refl
                  ltac:(vm_compute; reflexivity)
                  ltac:(vm_compute; reflexivity))).
Defined.




End AdapterLog.

(* --------------------------------------------------------------------- *)
(** ** proxy.ts: the port the server listens on                            *)
(* --------------------------------------------------------------------- *)

Module Startup.
Import JSON JS.

(** The decimal digits at the head of [s] as a number; nothing when
    there is none. *)
Definition leading_digits (s : string) : option Z :=
  let '(ds, _) := span_digits s in
  match ds with
  | EmptyString => None
  | _ =>
      match NilZero.int_of_string ds with
      | Some d => Some (Z.of_int d)
      | None => None
      end
  end.

(** [parseInt(s, 10)]; [None] is NaN. *)
Definition parseInt (s : string) : option Z :=
  match skip_white_space s with
  | String c rest =>
      if is_char c 45 then                       (* - *)
        match leading_digits rest with
        | Some n => Some (- n)
        | None => None
        end
      else if is_char c 43 then leading_digits rest    (* + *)
      else leading_digits (String c rest)
  | EmptyString => None
  end.

(** [process.env.PORT ? parseInt(process.env.PORT, 10) : 7001] *)
Definition default_port (env : gmap string string) : option Z :=
  match env !! "PORT" with
  | Some s => if truthy (VStr s) then parseInt s else Some 7001
  | None => Some 7001
  end.

(** The [forEach] over [process.argv]: an argument '--port' that has a
    successor sets PORT to what [parseInt] makes of the successor. *)
Fixpoint scan_argv (argv : list string) (PORT : option Z) : option Z :=
  match argv with
  | [] => PORT
  | arg :: rest =>
      scan_argv rest
        (match rest with
         | next :: _ => if String.eqb arg "--port" then parseInt next else PORT
         | [] => PORT
         end)
  end.

(** The value of PORT when [server.listen(PORT)] is called. *)
Definition listen_port (env : gmap string string) (argv : list string)
    : option Z :=
  scan_argv argv (default_port env).

(** What [startProxy] hands to [spawn]: the arguments after 'node', and
    the environment of the child. *)
Definition spawn_args (proxyPath : string) (port : Z) : list string :=
  [proxyPath; "--port"; string_of_Z port].

Definition spawn_env (env : gmap string string) (port : Z)
    : gmap string string :=
  <["PORT" := string_of_Z port]> env.

(** [process.argv] of a child started as [node args]: the path of the
    executable, then the arguments, the first of them the script (made
    absolute by Node, which leaves the other arguments as they are). *)
Definition child_argv (execPath scriptPath : string) (args : list string)
    : list string :=
  execPath :: scriptPath :: tail args.

End Startup.

Section ListenPort.
Import JSON JS Startup.

Lemma skip_white_space_digit c s :
  (is_digit c || is_char c 45) = true ->
  skip_white_space (String c s) = String c s.
Proof.
  destruct c as [[] [] [] [] [] [] [] []]; try discriminate; intros _;
    cbn; destruct s as [|c1 [|c2 s2]]; reflexivity.
Qed.

Lemma leading_digits_uint d :
  d <> Decimal.Nil ->
  leading_digits (NilEmpty.string_of_uint d) = Some (Z.of_int (Decimal.Pos d)).
Proof.
  intros Hd. destruct (string_of_uint_nonnil d Hd) as (Hz & c & s & Hs & Hc).
  assert (Hi := NilZero.isi (Decimal.Pos d)).
  cbn [NilZero.string_of_int] in Hi. rewrite Hz in Hi.
  unfold leading_digits.
  rewrite <- (append_empty_r (NilEmpty.string_of_uint d)) at 1.
  rewrite span_digits_uint by reflexivity.
  rewrite Hs. rewrite <- Hs.
  now rewrite Hi by (intros [=]; congruence).
Qed.

(** [parseInt] reads back what [toString] prints of an integer. *)
Lemma parseInt_string_of_Z n : parseInt (string_of_Z n) = Some n.
Proof.
  unfold string_of_Z.
  destruct (to_int_unsigned n) as (d & Hd & [Hn|Hn]);
    destruct (string_of_uint_nonnil d Hd) as (Hz & c & s & Hs & Hc).
  - rewrite Hn. cbn [NilZero.string_of_int]. rewrite Hz. unfold parseInt.
    rewrite Hs, skip_white_space_digit by (rewrite Hc; reflexivity).
    assert (Hsign : is_char c 45 = false /\ is_char c 43 = false).
    { destruct c as [[] [] [] [] [] [] [] []]; try discriminate; auto. }
    destruct Hsign as [-> ->].
    rewrite <- Hs, leading_digits_uint by exact Hd.
    rewrite <- Hn, DecimalZ.of_to. reflexivity.
  - rewrite Hn. cbn [NilZero.string_of_int]. rewrite Hz. unfold parseInt.
    rewrite skip_white_space_digit by reflexivity.
    change (is_char "-" 45) with true. cbv iota.
    rewrite leading_digits_uint by exact Hd.
    change (- Z.of_int (Decimal.Pos d)) with (Z.of_int (Decimal.Neg d)).
    rewrite <- Hn, DecimalZ.of_to. reflexivity.
Qed.

Lemma string_of_Z_truthy n : truthy (VStr (string_of_Z n)) = true.
Proof.
  destruct (string_of_Z_head n) as (c & s & -> & _). reflexivity.
Qed.

(** X20. The child that [startProxy(port)] spawns listens on [port]:
    the server reads the port back from the '--port' argument it is
    given, whatever the paths of the executable and of the script are and
    whatever PORT held before; the PORT variable that [startProxy] sets
    for the child would by itself give the same port. *)
Theorem child_listens_on_the_port env execPath scriptPath proxyPath port :
  listen_port (spawn_env env port)
    (child_argv execPath scriptPath (spawn_args proxyPath port)) = Some port
  /\ default_port (spawn_env env port) = Some port.
Proof.
  assert (Hdefault : default_port (spawn_env env port) = Some port).
  { unfold default_port, spawn_env. rewrite lookup_insert_eq.
    now rewrite string_of_Z_truthy, parseInt_string_of_Z. }
  split; [|exact Hdefault].
  unfold listen_port, child_argv, spawn_args. cbn [tail scan_argv].
  change (String.eqb "--port" "--port") with true. cbv iota.
  apply parseInt_string_of_Z.
Qed.

(** An argument '--port' in the last place has no successor. *)
Lemma scan_argv_without_flag argv : forall PORT,
  ~ In "--port" (removelast argv) -> scan_argv argv PORT = PORT.
Proof.
  induction argv as [|arg [|next rest] IH]; intros PORT Hnone;
    [reflexivity..|].
  cbn [scan_argv]. destruct (String.eqb arg "--port") eqn:Harg.
  - apply String.eqb_eq in Harg. subst arg. destruct Hnone. now left.
  - apply IH. intros Hin. apply Hnone. now right.
Qed.

Lemma scan_argv_app pre arg rest : forall PORT,
  exists PORT',
    scan_argv (pre ++ arg :: rest) PORT = scan_argv (arg :: rest) PORT'.
Proof.
  induction pre as [|a pre IH]; intros PORT; [eauto|].
  cbn [app scan_argv]. apply IH.
Qed.

(** X21. Which port the server takes: the last argument '--port' that
    has a successor decides, by what [parseInt] makes of the successor;
    when no '--port' has a successor, the variable PORT decides, and when
    PORT is unset or empty the port is 7001. *)
Theorem last_port_argument_decides env :
  (forall pre v post,
     ~ In "--port" (removelast (v :: post)) ->
     listen_port env (pre ++ "--port" :: v :: post) = parseInt v)
  /\ (forall argv,
        ~ In "--port" (removelast argv) ->
        listen_port env argv = default_port env)
  /\ (env !! "PORT" = None \/ env !! "PORT" = Some EmptyString ->
      default_port env = Some 7001).
Proof.
  split; [|split].
  - intros pre v post Hnone. unfold listen_port.
    destruct (scan_argv_app pre "--port" (v :: post) (default_port env))
      as [PORT' ->].
    change (scan_argv ("--port" :: v :: post) PORT')
      with (scan_argv (v :: post) (parseInt v)).
    now apply scan_argv_without_flag.
  - intros argv Hnone. now apply scan_argv_without_flag.
  - unfold default_port. now intros [-> | ->].
Qed.

End ListenPort.

(* --------------------------------------------------------------------- *)
(** ** extension.ts: the directory of the modules                          *)
(* --------------------------------------------------------------------- *)

Module Extension.
Import JS.

(** [ensureModulesDirSyncExists(modulesPath)] *)
Definition ensureModulesDirSyncExists (modulesPath : string)
    : ST Fs.fs bool :=
  try_catch
    (present ← (fun f => (f, Return (Fs.existsSync modulesPath f)));
     (if negb present then Fs.mkdirSync modulesPath else mret tt);;
     mret true)
    (fun error => mret false).

End Extension.

Section ModulesDirectory.
Import JS Extension.





(** A directory two levels down in an empty file system: both levels
    are created.  And with the second level refused, the first is created
    all the same, and the answer is false. *)
Lemma ensureModulesDirSyncExists_makes_the_way :
  ensureModulesDirSyncExists "/ext/modules"
    {| Fs.entries := ∅; Fs.denied := ∅; Fs.short := ∅ |}
    = ({| Fs.entries := <["/ext/modules" := Fs.Dir]> (<["/ext" := Fs.Dir]> ∅);
          Fs.denied := ∅; Fs.short := ∅ |}, Return true)
  /\ ensureModulesDirSyncExists "/ext/modules"
       {| Fs.entries := ∅; Fs.denied := {["/ext/modules"]}; Fs.short := ∅ |}
       = ({| Fs.entries := <["/ext" := Fs.Dir]> ∅;
             Fs.denied := {["/ext/modules"]}; Fs.short := ∅ |}, Return false).
Proof. split; vm_compute; reflexivity. Qed.

End ModulesDirectory.

(* --------------------------------------------------------------------- *)
(** ** proxy.ts: the route that forwards everything else                   *)
(* --------------------------------------------------------------------- *)

Module Forward.
Import JSON JS Runtime Proxy.

(** A value of [req.headers]: Node gives a string, or an array of strings
    for a header it does not join; the type allows undefined. *)
Inductive header_value :=
| HUndefined
| HString (s : string)
| HArray (items : list string).

Definition header_truthy (v : header_value) : bool :=
  match v with
  | HUndefined => false
  | HString s => negb (String.eqb s "")
  | HArray _ => true
  end.

(** [Array.isArray(value) ? value.join(', ') : value.toString()], for a
    value that is truthy. *)
Definition header_text (v : header_value) : string :=
  match v with
  | HArray items => join ", " items
  | HString s => s
  | HUndefined => ""
  end.

(** *** The [Headers] of fetch

    [set] strips the HTTP white space around the value, refuses a name
    that is no token and a value with a NUL, a line feed or a carriage
    return, and keeps one value by name, names compared without regard
    to case. *)
Definition is_http_whitespace (c : ascii) : bool :=
  is_char c 9 || is_char c 10 || is_char c 13 || is_char c 32.

Fixpoint strip_leading (s : string) : string :=
  match s with
  | String c rest => if is_http_whitespace c then strip_leading rest else s
  | EmptyString => EmptyString
  end.

Definition reverse (s : string) : string :=
  string_of_list_ascii (rev (list_ascii_of_string s)).

Definition headerValueNormalize (v : string) : string :=
  reverse (strip_leading (reverse (strip_leading v))).

Definition is_token_char (c : ascii) : bool :=
  let n := N_of_ascii c in
  ((48 <=? n) && (n <=? 57) || (65 <=? n) && (n <=? 90)
   || (97 <=? n) && (n <=? 122)
   || existsb (N.eqb n) [33; 35; 36; 37; 38; 39; 42; 43; 45; 46; 94; 95;
                         96; 124; 126])%N.

Definition isValidHeaderName (name : string) : bool :=
  negb (String.eqb name "")
  && forallb is_token_char (list_ascii_of_string name).

Definition isValidHeaderValue (v : string) : bool :=
  forallb (fun c => negb (is_char c 0 || is_char c 10 || is_char c 13))
    (list_ascii_of_string v).

Definition lower_char (c : ascii) : ascii :=
  let n := N_of_ascii c in
  if ((65 <=? n) && (n <=? 90))%N then ascii_of_N (n + 32) else c.

Fixpoint lower (s : string) : string :=
  match s with
  | String c rest => String (lower_char c) (lower rest)
  | EmptyString => EmptyString
  end.

Definition Headers := list (string * string).

Fixpoint put (k v : string) (hs : Headers) : Headers :=
  match hs with
  | [] => [(k, v)]
  | (k', v') :: hs' =>
      if String.eqb k k' then (k, v) :: hs' else (k', v') :: put k v hs'
  end.

Fixpoint header_of (k : string) (hs : Headers) : option string :=
  match hs with
  | [] => None
  | (k', v) :: hs' => if String.eqb k k' then Some v else header_of k hs'
  end.

Definition Headers_set (name value : string) (hs : Headers)
    : completion Headers :=
  let value := headerValueNormalize value in
  if negb (isValidHeaderName name) then Throw "TypeError: invalid header name"
  else if negb (isValidHeaderValue value)
       then Throw "TypeError: invalid header value"
       else Return (put (lower name) value hs).

(** *** The handler *)

(** The loop over [Object.entries(req.headers)]. *)
Fixpoint forward_headers (entries : list (string * header_value))
    (hs : Headers) : completion Headers :=
  match entries with
  | [] => Return hs
  | (key, value) :: entries' =>
      if header_truthy value && negb (String.eqb key "host")
         && negb (String.eqb key "connection")
      then
        match Headers_set key (header_text value) hs with
        | Return hs' => forward_headers entries' hs'
        | Throw e => Throw e
        end
      else forward_headers entries' hs
  end.

Record AnyRequest := {
  originalUrl : string;
  any_method : string;
  any_headers : list (string * header_value);   (* Object.entries(req.headers) *)
  any_body : value                               (* req.body *)
}.

(** The request handed to [fetch]. *)
Record Forwarded := {
  target : string;
  fwd_method : string;
  fwd_headers : Headers;
  fwd_body : option string      (* options.body, when it is set to a string *)
}.

(** The upstream answer: its status, its headers as [entries()] yields
    them, and what [arrayBuffer()] comes to. *)
Record AnyResponse := {
  any_status : Z;
  any_response_headers : list (string * string);
  arrayBuffer : completion string
}.

Inductive any_fetched :=
| AnyRejects (error : string)
| AnyResolves (openaiResponse : AnyResponse).

(** [['POST', 'PUT', 'PATCH'].includes(req.method)] *)
Definition with_body (method : string) : bool :=
  existsb (String.eqb method) ["POST"; "PUT"; "PATCH"].

(** [options.body]: [JSON.stringify(req.body)] for the three methods. *)
Definition request_body (h : gmap nat cell) (req : AnyRequest)
    : completion (option string) :=
  if with_body (any_method req) then
    match to_json (depth_bound h) h (any_body req) with
    | Return (Some j) => Return (Some (print j))
    | Return None => Return None
    | Throw e => Throw e
    end
  else Return None.

Definition with_header (name v : string) (r : ServerResponse)
    : ServerResponse :=
  {| statusCode := statusCode r; headers := headers r ++ [(name, v)];
     calls := calls r |}.

(** [res.status(500).send('Internal Server Error')] of the catch. *)
Definition internal_error (r : ServerResponse) : ServerResponse :=
  ended (written "Internal Server Error" (with_status 500 r)).

(** The handler: the requests sent upstream and the response. *)
Definition forward (fetch : Forwarded -> any_fetched) (h : gmap nat cell)
    (req : AnyRequest) : list Forwarded * ServerResponse :=
  match forward_headers (any_headers req) [] with
  | Throw _ => ([], internal_error fresh_response)
  | Return hs =>
      match request_body h req with
      | Throw _ => ([], internal_error fresh_response)
      | Return body =>
          let options :=
            {| target := "https://api.openai.com" +:+ originalUrl req;
               fwd_method := any_method req;
               fwd_headers := hs;
               fwd_body := body |} in
          match fetch options with
          | AnyRejects _ => ([options], internal_error fresh_response)
          | AnyResolves openaiResponse =>
              let mirrored :=
                fold_left (fun r '(key, value) => with_header key value r)
                  (any_response_headers openaiResponse)
                  (with_status (any_status openaiResponse) fresh_response) in
              match arrayBuffer openaiResponse with
              | Throw _ => ([options], internal_error mirrored)
              | Return responseBody =>
                  ([options], ended (written responseBody mirrored))
              end
          end
      end
  end.

End Forward.

Section ForwardedRequests.
Import JSON JS Runtime Proxy Forward.

Lemma header_of_put_same k v hs : header_of k (put k v hs) = Some v.
Proof.
  induction hs as [|[k' v'] hs IH]; cbn.
  - now rewrite String.eqb_refl.
  - destruct (String.eqb k k') eqn:Hk; cbn.
    + now rewrite String.eqb_refl.
    + now rewrite Hk.
Qed.

Lemma header_of_put_other k k' v hs :
  k <> k' -> header_of k (put k' v hs) = header_of k hs.
Proof.
  intros Hne. apply String.eqb_neq in Hne.
  induction hs as [|[k0 v0] hs IH]; cbn.
  - now rewrite Hne.
  - destruct (String.eqb k' k0) eqn:Hk0; cbn.
    + apply String.eqb_eq in Hk0. subst k0. now rewrite Hne.
    + now rewrite IH.
Qed.

Lemma Headers_set_Return name value hs hs' :
  Headers_set name value hs = Return hs' ->
  hs' = put (lower name) (headerValueNormalize value) hs.
Proof.
  unfold Headers_set. destruct (negb (isValidHeaderName name)); [discriminate|].
  destruct (negb (isValidHeaderValue _)); [discriminate|]. now intros [= <-].
Qed.

(** The test of the loop. *)
Definition passed_on (key : string) (v : header_value) : Prop :=
  header_truthy v = true /\ key <> "host" /\ key <> "connection".

Lemma passed_on_guard key v :
  header_truthy v && negb (String.eqb key "host")
    && negb (String.eqb key "connection") = true
  <-> passed_on key v.
Proof.
  unfold passed_on.
  rewrite !andb_true_iff, !negb_true_iff, !String.eqb_neq. tauto.
Qed.

(** What the loop leaves under each name. *)
Lemma forward_headers_each entries : forall acc hs,
  forward_headers entries acc = Return hs ->
  (forall key v, In (key, v) entries -> lower key = key) ->
  forall k,
    (header_of k hs = header_of k acc
     /\ forall v, In (k, v) entries -> ~ passed_on k v)
    \/ exists v,
         In (k, v) entries /\ passed_on k v
         /\ header_of k hs = Some (headerValueNormalize (header_text v)).
Proof.
  induction entries as [|[key value] entries IH]; intros acc hs Hrun Hlower k.
  - injection Hrun as <-. left. split; [reflexivity|]. intros v [].
  - cbn [forward_headers] in Hrun.
    assert (Hlower' : forall key v, In (key, v) entries -> lower key = key)
      by (intros; eapply Hlower; right; eauto).
    destruct (header_truthy value && negb (String.eqb key "host")
              && negb (String.eqb key "connection")) eqn:Hguard.
    + apply passed_on_guard in Hguard.
      destruct (Headers_set key (header_text value) acc) as [hs1|e] eqn:Hset;
        [|discriminate].
      apply Headers_set_Return in Hset.
      rewrite (Hlower key value) in Hset by now left.
      destruct (IH hs1 hs Hrun Hlower' k) as [[Hsame Hnone]|(v & Hin & Hv & Hk)].
      * destruct (decide (k = key)) as [->|Hne].
        -- right. exists value. split; [now left|]. split; [exact Hguard|].
           rewrite Hsame, Hset. apply header_of_put_same.
        -- left. split.
           ++ rewrite Hsame, Hset. now apply header_of_put_other.
           ++ intros v [[= -> ->]|Hin]; [congruence|now apply Hnone].
      * right. exists v. split; [now right|]. auto.
    + destruct (IH acc hs Hrun Hlower' k) as [[Hsame Hnone]|(v & Hin & Hv & Hk)].
      * left. split; [exact Hsame|].
        intros v [[= -> ->]|Hin]; [|now apply Hnone].
        intros Hpassed. apply passed_on_guard in Hpassed. congruence.
      * right. exists v. split; [now right|]. auto.
Qed.

Lemma NoDup_fst_In {A} (l : list (string * A)) k v v' :
  NoDup (map fst l) -> In (k, v) l -> In (k, v') l -> v = v'.
Proof.
  induction l as [|[k0 v0] l IH]; intros Hnodup Hv Hv'; [destruct Hv|].
  apply NoDup_cons in Hnodup as [Hnotin Hnodup]. cbn in Hnotin.
  destruct Hv as [Hv|Hv], Hv' as [Hv'|Hv'].
  - congruence.
  - injection Hv as -> _. destruct Hnotin.
    apply list_elem_of_In, in_map_iff. exists (k, v'). auto.
  - injection Hv' as -> _. destruct Hnotin.
    apply list_elem_of_In, in_map_iff. exists (k, v). auto.
  - now apply IH.
Qed.

(** A request that is sent carries the headers the loop has made. *)
Lemma forward_sent fetch h req p :
  In p (fst (forward fetch h req)) ->
  fst (forward fetch h req) = [p]
  /\ forward_headers (any_headers req) [] = Return (fwd_headers p)
  /\ request_body h req = Return (fwd_body p)
  /\ target p = "https://api.openai.com" +:+ originalUrl req
  /\ fwd_method p = any_method req.
Proof.
  unfold forward.
  destruct (forward_headers (any_headers req) []) as [hs|e]; [|intros []].
  destruct (request_body h req) as [body|e]; [|intros []].
  set (options := {| target := _; fwd_method := _; fwd_headers := _;
                     fwd_body := _ |}).
  assert (Hp : In p [options] ->
               [options] = [p]
               /\ Return hs = Return (fwd_headers p)
               /\ Return body = Return (fwd_body p)
               /\ target p = "https://api.openai.com" +:+ originalUrl req
               /\ fwd_method p = any_method req)
    by (intros [<-|[]]; auto).
  destruct (fetch options) as [e|openaiResponse]; [exact Hp|].
  destruct (arrayBuffer openaiResponse); exact Hp.
Qed.

(** X23. A request that the forwarding route sends upstream never
    carries the 'host' or the 'connection' header of the caller, nor a
    header whose value is the empty string or undefined.  Every other
    header of the caller is passed on under its name, with the white
    space around the value removed; an array of values is passed on
    whatever it holds, joined with ', ', so that an array of one empty
    string is passed on with an empty value.  And the request carries no
    header that the caller has not sent.  (The names are lower-case and
    distinct, as Node gives them.) *)
Theorem forwarded_headers_rule fetch h req p :
  (forall key v, In (key, v) (any_headers req) -> lower key = key) ->
  NoDup (map fst (any_headers req)) ->
  In p (fst (forward fetch h req)) ->
  header_of "host" (fwd_headers p) = None
  /\ header_of "connection" (fwd_headers p) = None
  /\ (forall k v,
        In (k, v) (any_headers req) ->
        header_of k (fwd_headers p)
          = if header_truthy v && negb (String.eqb k "host")
               && negb (String.eqb k "connection")
            then Some (headerValueNormalize (header_text v))
            else None)
  /\ (forall k,
        In (k, HString EmptyString) (any_headers req)
        \/ In (k, HUndefined) (any_headers req) ->
        header_of k (fwd_headers p) = None)
  /\ (forall k items,
        In (k, HArray items) (any_headers req) ->
        k <> "host" -> k <> "connection" ->
        header_of k (fwd_headers p)
          = Some (headerValueNormalize (join ", " items)))
  /\ (forall k x,
        header_of k (fwd_headers p) = Some x ->
        exists v, In (k, v) (any_headers req)
                  /\ x = headerValueNormalize (header_text v)).
Proof.
  intros Hlower Hnodup Hp.
  destruct (forward_sent fetch h req p Hp) as (_ & Hrun & _).
  pose proof (forward_headers_each _ _ _ Hrun Hlower) as Heach.
  assert (Hnone : forall k, (k = "host" \/ k = "connection") ->
                            header_of k (fwd_headers p) = None).
  { intros k Hk. destruct (Heach k) as [[-> _]|(v & _ & (_ & Hh & Hc) & _)];
      [reflexivity|]. destruct Hk; contradiction. }
  assert (Hrule : forall k v,
             In (k, v) (any_headers req) ->
             header_of k (fwd_headers p)
               = if header_truthy v && negb (String.eqb k "host")
                    && negb (String.eqb k "connection")
                 then Some (headerValueNormalize (header_text v))
                 else None).
  { intros k v Hin.
    destruct (Heach k) as [[-> Hno]|(v' & Hin' & Hpassed & ->)].
    + specialize (Hno v Hin). rewrite <- passed_on_guard in Hno.
      now destruct (header_truthy v && _ && _).
    + rewrite (NoDup_fst_In _ k v v' Hnodup Hin Hin').
      apply passed_on_guard in Hpassed. now rewrite Hpassed. }
  split; [apply Hnone; now left|]. split; [apply Hnone; now right|].
  split; [exact Hrule|]. split; [|split].
  - intros k [Hin|Hin]; now rewrite (Hrule _ _ Hin).
  - intros k items Hin Hhost Hconnection. rewrite (Hrule _ _ Hin).
    apply String.eqb_neq in Hhost, Hconnection.
    now rewrite Hhost, Hconnection.
  - intros k x Hx.
    destruct (Heach k) as [[Hsame _]|(v & Hin & _ & Hk)].
    + rewrite Hsame in Hx. discriminate.
    + exists v. split; [exact Hin|congruence].
Qed.

(** A GET with five headers, and an upstream that answers it. *)
Definition req_models : AnyRequest :=
  {| originalUrl := "/v1/models"; any_method := "GET";
     any_headers := [("host", HString "127.0.0.1:7001");
                     ("authorization", HString " Bearer k");
                     ("accept", HArray ["text/plain"; "application/json"]);
                     ("x-trace", HString EmptyString);
                     ("set-cookie", HArray [EmptyString])];
     any_body := VUndefined |}.

Definition upstream_lists (p : Forwarded) : any_fetched :=
  AnyResolves {| any_status := 200;
                 any_response_headers := [("content-type", "text/plain")];
                 arrayBuffer := Return "gpt-4" |}.

Definition sent_models : Forwarded :=
  {| target := "https://api.openai.com/v1/models"; fwd_method := "GET";
     fwd_headers := [("authorization", "Bearer k");
                     ("accept", "text/plain, application/json");
                     ("set-cookie", EmptyString)];
     fwd_body := None |}.

Lemma forwarded_headers_rule_witness :
  fst (forward upstream_lists ∅ req_models) = [sent_models]
  /\ header_of "host" (fwd_headers sent_models) = None
  /\ header_of "x-trace" (fwd_headers sent_models) = None
  /\ header_of "set-cookie" (fwd_headers sent_models) = Some EmptyString
  /\ header_of "accept" (fwd_headers sent_models)
       = Some "text/plain, application/json".
Proof.
  split; [vm_compute; reflexivity|].
  destruct (forwarded_headers_rule upstream_lists ∅ req_models sent_models)
    as (Hhost & _ & _ & Hempty & Harray & _).
  - intros key v Hin. cbn in Hin.
    destruct Hin as [Heq|[Heq|[Heq|[Heq|[Heq|[]]]]]]; injection Heq as <- <-;
      reflexivity.
  - refine (bool_decide_unpack _ _). vm_compute. exact I.
  - vm_compute. left. reflexivity.
  - split; [exact Hhost|]. split; [|split].
    + apply Hempty. left. do 3 right. left. reflexivity.
    + apply (Harray "set-cookie" [EmptyString]);
        [do 4 right; left; reflexivity|discriminate..].
    + apply (Harray "accept" ["text/plain"; "application/json"]);
        [do 2 right; left; reflexivity|discriminate..].
Defined.




End ForwardedRequests.

(* --------------------------------------------------------------------- *)
(** ** Streamed answers when something fails                               *)
(* --------------------------------------------------------------------- *)

Section StreamFailures.
Import JS Runtime Proxy.
#[local] Arguments append !_ _ / : simpl nomatch.

(** One event whose payload the transformer fails on. *)
Lemma on_event_rejected tr meta d x e :
  truthy (VStr d) = true ->
  processResponse tr (VStr d) meta (world x) = (world x, Throw e) ->
  on_event tr meta (ParsedEvent d) x
    = (with_res (written (frame d) (res x)) x, Return tt).
Proof.
  intros Htruthy Hthrow. unfold on_event. rewrite Htruthy.
  unfold try_catch. unfold mbind at 1, ST_bind at 1, lift at 1.
  rewrite Hthrow. rewrite res_write_eq. now destruct x.
Qed.

Lemma relay_rejected tr meta events :
  forall x,
    writableEnded (res x) = false ->
    (forall d, In d (payloads events) ->
       exists e,
         processResponse tr (VStr d) meta (world x) = (world x, Throw e)) ->
    relay tr meta events x
      = (with_res (with_calls
                     (calls (res x) ++ frames (payloads events) ++ [End])
                     (res x)) x,
         Return tt).
Proof.
  induction events as [|event events IH]; intros x Hopen Hthrows.
  - cbn [relay]. rewrite res_end_eq. unfold ended. now rewrite Hopen.
  - cbn [relay]. unfold mbind, ST_bind. rewrite payloads_cons in Hthrows.
    rewrite payloads_cons.
    destruct event as [d|n]; [destruct (truthy (VStr d)) eqn:Htruthy|].
    + destruct (Hthrows d ltac:(now left)) as [e Hthrow].
      rewrite (on_event_rejected tr meta d x e Htruthy Hthrow).
      assert (Hwritten : written (frame d) (res x)
                         = with_calls (calls (res x) ++ [Chunk (frame d)])
                             (res x))
        by (unfold written; now rewrite Hopen).
      rewrite IH.
      * rewrite Hwritten. unfold with_res, with_calls. cbn.
        now rewrite <- app_assoc.
      * cbn [res with_res]. rewrite Hwritten, writableEnded_app, Hopen.
        reflexivity.
      * intros d' Hd'. cbn [world with_res]. apply Hthrows. now right.
    + rewrite on_event_skipped by exact Htruthy. now apply IH.
    + rewrite on_event_skipped by exact I. now apply IH.
Qed.

(** X25. The relay fails open on the side of the answer: when
    [processResponse] throws on the payloads of a stream (leaving the
    world as it was), every payload that is not empty reaches the caller
    as upstream sent it, in order, the sentinel among them like any
    other, and the response is ended when the upstream body ends. *)
Theorem relay_forwards_raw_when_processResponse_throws tr meta events x :
  writableEnded (res x) = false ->
  (forall d, In d (payloads events) ->
     exists e,
       processResponse tr (VStr d) meta (world x) = (world x, Throw e)) ->
  exists x',
    relay tr meta events x = (x', Return tt)
    /\ world x' = world x
    /\ calls (res x') = calls (res x) ++ frames (payloads events) ++ [End]
    /\ received (res x') = received (res x) ++ map frame (payloads events).
Proof.
  intros Hopen Hthrows. eexists.
  split; [exact (relay_rejected tr meta events x Hopen Hthrows)|].
  cbn [world res with_res]. split; [reflexivity|]. split; [reflexivity|].
  now rewrite received_app, received_frames.
Qed.

Lemma relay_forwards_raw_when_processResponse_throws_witness :
  exists x',
    relay orchestratorAdapter VNull
      [ParsedEvent "a"; ParsedEvent EmptyString; ParsedEvent "[DONE]"]
      (begin w_readonly) = (x', Return tt)
    /\ world x' = w_readonly
    /\ calls (res x')
         = [Chunk (frame "a"); Chunk (frame "[DONE]"); End]
    /\ received (res x') = [frame "a"; frame "[DONE]"].
Proof.
  apply (relay_forwards_raw_when_processResponse_throws orchestratorAdapter
           VNull
           [ParsedEvent "a"; ParsedEvent EmptyString; ParsedEvent "[DONE]"]
           (begin w_readonly) eq_refl).
  intros d [<-|[<-|[]]]; eexists; vm_compute; reflexivity.
Defined.

End StreamFailures.
